(** * ByteBuffer: a fixed-size read/write buffer (package buffer)

    Shallow embedding of [bytebuffer.go] (the current variant, the one
    with the SIZEOF_n_BYTE constants) and verification of its
    specification.

    Conventions of the embedding:
    - Go's [int] is the 64-bit two's-complement integer; every [+] the
      source performs on an [int] is written [int_add], with its
      wrap-around.
    - A byte is a [Z] in [0, 256); [uintN] is a [Z] in [0, 2^N); [intN]
      is a [Z] in [-2^(N-1), 2^(N-1)).
    - The receiver [*ByteBuffer] is threaded through a state monad [M];
      a Go run-time panic (index or slice out of range) is the outcome
      [Panic], which keeps the state reached when the panic was raised.
    - A Go [error] result is [option Error]; [None] is [nil]. *)

From Stdlib Require Import ZArith List String Ascii Lia Bool.
From stdpp Require Import base list.
Import ListNotations.

Local Open Scope Z_scope.

(** ** Go integers *)

Definition int_min : Z := - 2 ^ 63.
Definition int_max : Z := 2 ^ 63 - 1.

(** Two's-complement wrap-around of a 64-bit signed integer. *)
Definition int_wrap (z : Z) : Z := (z + 2 ^ 63) mod 2 ^ 64 - 2 ^ 63.

(** [x + y] on Go [int]s. *)
Definition int_add (x y : Z) : Z := int_wrap (x + y).

Definition is_int (z : Z) : Prop := int_min <= z <= int_max.

Definition is_byte (z : Z) : Prop := 0 <= z < 256.

(** [byte(v)]: truncating conversion of an unsigned integer. *)
Definition byte_of (v : Z) : Z := Z.land v 255.

(** [uint16(v)], [uint32(v)], [uint64(v)] applied to a signed value of the
    same width, and [int16(u)], [int32(u)], [int64(u)] applied to an
    unsigned one: both reinterpret the same [w] bits. *)
Definition to_unsigned (w : Z) (v : Z) : Z := v mod 2 ^ w.
Definition to_signed (w : Z) (u : Z) : Z :=
  if u <? 2 ^ (w - 1) then u else u - 2 ^ w.

Definition is_uint (w : Z) (v : Z) : Prop := 0 <= v < 2 ^ w.
Definition is_sint (w : Z) (v : Z) : Prop := - 2 ^ (w - 1) <= v < 2 ^ (w - 1).

(** [len(s)] of a byte slice. *)
Definition len (s : list Z) : Z := Z.of_nat (List.length s).

(** [s[i]] as a partial function: [None] is the out-of-range panic. *)
Definition index (s : list Z) (i : Z) : option Z :=
  if i <? 0 then None else s !! Z.to_nat i.

(** The largest slice [make] can allocate on a 64-bit target
    ([runtime.maxAlloc], 48 address bits); [make([]byte, n)] panics for
    [n] outside [0, maxAlloc]. *)
Definition maxAlloc : Z := 2 ^ 48.

(** A Go [float32] / [float64] is its IEEE-754 bit pattern;
    [math.Float32bits] and [math.Float32frombits] are the two directions
    of that reinterpretation (likewise for 64 bits). *)
Record float32 : Type := Float32frombits { Float32bits : Z }.
Record float64 : Type := Float64frombits { Float64bits : Z }.

(** A Go [string] is a sequence of bytes; [[]byte(s)] and [string(b)]
    convert without changing any byte. *)
Definition bytes_of_string (s : string) : list Z :=
  List.map (fun a => Z.of_N (N_of_ascii a)) (list_ascii_of_string s).
Definition string_of_bytes (l : list Z) : string :=
  string_of_list_ascii (List.map (fun z => ascii_of_N (Z.to_N z)) l).

(** ** Constants and errors of the package *)

Definition TRUE : Z := 1.
Definition FALSE : Z := 0.

Definition SIZEOF_1_BYTE : Z := 1.
Definition SIZEOF_2_BYTE : Z := 2.
Definition SIZEOF_4_BYTE : Z := 4.
Definition SIZEOF_8_BYTE : Z := 8.

(** The three package-level error values. *)
Inductive Error : Type :=
| ErrorWriteOverflow
| ErrorReadOverflow
| ErrorPositionOverflow.

Definition error : Type := option Error.

(** [binary.ByteOrder]: the two implementations the package documents. *)
Inductive ByteOrder : Type := LittleEndian | BigEndian.

(** ** The buffer *)

Record ByteBuffer : Type := mkByteBuffer {
  cap : Z;            (* buffer capacity *)
  buf : list Z;       (* buffer *)
  length : Z;         (* effective data length *)
  offset : Z;         (* read/write position *)
  order : ByteOrder   (* byte arrangement *)
}.

(** ** The monad of methods on [*ByteBuffer] *)

Inductive result (A : Type) : Type :=
| Ret (a : A)
| Panic.
Arguments Ret {A} a.
Arguments Panic {A}.

Definition M (A : Type) : Type := ByteBuffer -> ByteBuffer * result A.

Definition ret {A} (a : A) : M A := fun b => (b, Ret a).
Definition bind {A B} (m : M A) (k : A -> M B) : M B :=
  fun b => match m b with
           | (b', Ret a) => k a b'
           | (b', Panic) => (b', Panic)
           end.

Notation "'letM' x ':=' m 'in' k" := (bind m (fun x => k))
  (at level 10, x pattern, m at level 100, k at level 200).
Notation "m ;;; k" := (bind m (fun _ => k))
  (at level 100, k at level 200, right associativity).

(** Field reads and assignments. *)
Definition get : M ByteBuffer := fun b => (b, Ret b).
Definition set_offset (v : Z) : M unit :=
  fun b => (mkByteBuffer (cap b) (buf b) (length b) v (order b), Ret tt).
Definition set_length (v : Z) : M unit :=
  fun b => (mkByteBuffer (cap b) (buf b) v (offset b) (order b), Ret tt).
Definition set_order (o : ByteOrder) : M unit :=
  fun b => (mkByteBuffer (cap b) (buf b) (length b) (offset b) o, Ret tt).
Definition set_buf (s : list Z) : M unit :=
  fun b => (mkByteBuffer (cap b) s (length b) (offset b) (order b), Ret tt).

(** [buf.buf[i]] *)
Definition load (i : Z) : M Z :=
  fun b => match index (buf b) i with
           | Some v => (b, Ret v)
           | None => (b, Panic)
           end.

(** [buf.buf[i] = v] *)
Definition store (i v : Z) : M unit :=
  fun b => if (0 <=? i) && (i <? len (buf b))
           then set_buf (<[Z.to_nat i := v]> (buf b)) b
           else (b, Panic).

(** [buf.buf[low:]]: the view shares the backing array, so it is
    represented by its start; the slice expression panics unless
    [0 <= low <= len(buf.buf)]. *)
Definition slice_from (low : Z) : M unit :=
  fun b => if (0 <=? low) && (low <=? len (buf b)) then (b, Ret tt) else (b, Panic).

(** [_ = b[k]] on the view [buf.buf[low:]]: the bounds check that opens
    every [encoding/binary] accessor. *)
Definition bounds_hint (low k : Z) : M unit :=
  fun b => if low + k <? len (buf b) then (b, Ret tt) else (b, Panic).

(** [buf.buf[low:high]] as a value; panics unless
    [0 <= low <= high <= cap(buf.buf)], and [make([]byte, n)] gives
    [cap = len]. *)
Definition slice (low high : Z) : M (list Z) :=
  fun b => if (0 <=? low) && (low <=? high) && (high <=? len (buf b))
           then (b, Ret (take (Z.to_nat (high - low)) (drop (Z.to_nat low) (buf b))))
           else (b, Panic).

(** [copy(buf.buf[low:], src)]: copies [min(len(dst), len(src))] bytes into
    the backing array and returns that count. *)
Definition copy_in (low : Z) (src : list Z) : M Z :=
  slice_from low ;;;
  letM b := get in
  let n := Z.min (len (buf b) - low) (len src) in
  set_buf (take (Z.to_nat low) (buf b) ++ take (Z.to_nat n) src
             ++ drop (Z.to_nat (low + n)) (buf b)) ;;;
  ret n.

(** [copy(dst, src)] into a slice of the caller: new contents of [dst] and
    the count. *)
Definition copy_out (dst src : list Z) : list Z * Z :=
  let n := Z.min (len dst) (len src) in
  (take (Z.to_nat n) src ++ drop (Z.to_nat n) dst, n).

(** ** [encoding/binary]: the [ByteOrder] methods on the view [buf.buf[low:]]

    Each accessor is the standard library's: a bounds check on the last
    byte it touches, then one byte per index. A byte widened to [uintN]
    and shifted left by at most [N - 8] stays below [2^N], so the shifts
    below need no truncation. *)

Definition order_PutUint16 (o : ByteOrder) (low v : Z) : M unit :=
  slice_from low ;;;
  bounds_hint low 1 ;;;
  match o with
  | LittleEndian =>
      store (low + 0) (byte_of v) ;;;
      store (low + 1) (byte_of (Z.shiftr v 8))
  | BigEndian =>
      store (low + 0) (byte_of (Z.shiftr v 8)) ;;;
      store (low + 1) (byte_of v)
  end.

Definition order_PutUint32 (o : ByteOrder) (low v : Z) : M unit :=
  slice_from low ;;;
  bounds_hint low 3 ;;;
  match o with
  | LittleEndian =>
      store (low + 0) (byte_of v) ;;;
      store (low + 1) (byte_of (Z.shiftr v 8)) ;;;
      store (low + 2) (byte_of (Z.shiftr v 16)) ;;;
      store (low + 3) (byte_of (Z.shiftr v 24))
  | BigEndian =>
      store (low + 0) (byte_of (Z.shiftr v 24)) ;;;
      store (low + 1) (byte_of (Z.shiftr v 16)) ;;;
      store (low + 2) (byte_of (Z.shiftr v 8)) ;;;
      store (low + 3) (byte_of v)
  end.

Definition order_PutUint64 (o : ByteOrder) (low v : Z) : M unit :=
  slice_from low ;;;
  bounds_hint low 7 ;;;
  match o with
  | LittleEndian =>
      store (low + 0) (byte_of v) ;;;
      store (low + 1) (byte_of (Z.shiftr v 8)) ;;;
      store (low + 2) (byte_of (Z.shiftr v 16)) ;;;
      store (low + 3) (byte_of (Z.shiftr v 24)) ;;;
      store (low + 4) (byte_of (Z.shiftr v 32)) ;;;
      store (low + 5) (byte_of (Z.shiftr v 40)) ;;;
      store (low + 6) (byte_of (Z.shiftr v 48)) ;;;
      store (low + 7) (byte_of (Z.shiftr v 56))
  | BigEndian =>
      store (low + 0) (byte_of (Z.shiftr v 56)) ;;;
      store (low + 1) (byte_of (Z.shiftr v 48)) ;;;
      store (low + 2) (byte_of (Z.shiftr v 40)) ;;;
      store (low + 3) (byte_of (Z.shiftr v 32)) ;;;
      store (low + 4) (byte_of (Z.shiftr v 24)) ;;;
      store (low + 5) (byte_of (Z.shiftr v 16)) ;;;
      store (low + 6) (byte_of (Z.shiftr v 8)) ;;;
      store (low + 7) (byte_of v)
  end.

Definition order_Uint16 (o : ByteOrder) (low : Z) : M Z :=
  slice_from low ;;;
  bounds_hint low 1 ;;;
  letM b0 := load (low + 0) in
  letM b1 := load (low + 1) in
  match o with
  | LittleEndian => ret (Z.lor b0 (Z.shiftl b1 8))
  | BigEndian => ret (Z.lor b1 (Z.shiftl b0 8))
  end.

Definition order_Uint32 (o : ByteOrder) (low : Z) : M Z :=
  slice_from low ;;;
  bounds_hint low 3 ;;;
  letM b0 := load (low + 0) in
  letM b1 := load (low + 1) in
  letM b2 := load (low + 2) in
  letM b3 := load (low + 3) in
  match o with
  | LittleEndian =>
      ret (Z.lor (Z.lor (Z.lor b0 (Z.shiftl b1 8)) (Z.shiftl b2 16)) (Z.shiftl b3 24))
  | BigEndian =>
      ret (Z.lor (Z.lor (Z.lor b3 (Z.shiftl b2 8)) (Z.shiftl b1 16)) (Z.shiftl b0 24))
  end.

Definition order_Uint64 (o : ByteOrder) (low : Z) : M Z :=
  slice_from low ;;;
  bounds_hint low 7 ;;;
  letM b0 := load (low + 0) in
  letM b1 := load (low + 1) in
  letM b2 := load (low + 2) in
  letM b3 := load (low + 3) in
  letM b4 := load (low + 4) in
  letM b5 := load (low + 5) in
  letM b6 := load (low + 6) in
  letM b7 := load (low + 7) in
  match o with
  | LittleEndian =>
      ret (Z.lor (Z.lor (Z.lor (Z.lor (Z.lor (Z.lor (Z.lor
             b0 (Z.shiftl b1 8)) (Z.shiftl b2 16)) (Z.shiftl b3 24))
             (Z.shiftl b4 32)) (Z.shiftl b5 40)) (Z.shiftl b6 48)) (Z.shiftl b7 56))
  | BigEndian =>
      ret (Z.lor (Z.lor (Z.lor (Z.lor (Z.lor (Z.lor (Z.lor
             b7 (Z.shiftl b6 8)) (Z.shiftl b5 16)) (Z.shiftl b4 24))
             (Z.shiftl b3 32)) (Z.shiftl b2 40)) (Z.shiftl b1 48)) (Z.shiftl b0 56))
  end.

(** ** Construction and accessors *)

(** [NewByteBuffer]: [make([]byte, cap)] is a zeroed slice of [cap] bytes,
    and panics when [cap] is negative or beyond what can be allocated. *)
Definition NewByteBuffer (cap : Z) (order : ByteOrder) : result ByteBuffer :=
  if (0 <=? cap) && (cap <=? maxAlloc)
  then Ret (mkByteBuffer cap (replicate (Z.to_nat cap) 0) 0 0 order)
  else Panic.

Definition Length : M Z := letM b := get in ret (length b).
Definition Cap : M Z := letM b := get in ret (cap b).
Definition Position : M Z := letM b := get in ret (offset b).

Definition SetPosition (asbOffset : Z) : M error :=
  letM b := get in
  if (asbOffset <? 0) || (asbOffset >? length b)
  then ret (Some ErrorPositionOverflow)
  else set_offset asbOffset ;;; ret None.

Definition Reset : M unit :=
  set_length 0 ;;; set_offset 0.

Definition SetOrder (order : ByteOrder) : M unit := set_order order.

Definition Buffer : M (list Z) := letM b := get in ret (buf b).

Definition Data : M (list Z) := letM b := get in slice 0 (length b).

Definition applyWrite (size : Z) : M (Z * bool) :=
  letM b := get in
  let offset0 := offset b in
  if int_add (offset b) size >? cap b
  then ret (offset0, false)
  else
    set_offset (int_add (offset b) size) ;;;
    letM b := get in
    (if offset b >? length b then set_length (offset b) else ret tt) ;;;
    ret (offset0, true).

Definition applyRead (size : Z) : M (Z * bool) :=
  letM b := get in
  let offset0 := offset b in
  if int_add (offset b) size >? length b
  then ret (offset0, false)
  else
    set_offset (int_add (offset b) size) ;;;
    ret (offset0, true).

(** ** Writing at the cursor *)

Definition WriteInt8 (value : Z) : M error :=
  letM (off, ok) := applyWrite SIZEOF_1_BYTE in
  if negb ok then ret (Some ErrorWriteOverflow)
  else store off value ;;; ret None.

Definition WriteBoolean (value : bool) : M error :=
  if value then WriteInt8 TRUE else WriteInt8 FALSE.

Definition WriteBytes (value : list Z) : M (Z * error) :=
  letM (off, ok) := applyWrite (len value) in
  if negb ok then ret (0, Some ErrorWriteOverflow)
  else letM n := copy_in off value in ret (n, None).

Definition WriteString (value : string) : M (Z * error) :=
  WriteBytes (bytes_of_string value).

Definition WriteInt16 (value : Z) : M error :=
  letM (off, ok) := applyWrite SIZEOF_2_BYTE in
  if negb ok then ret (Some ErrorWriteOverflow)
  else letM b := get in
       order_PutUint16 (order b) off (to_unsigned 16 value) ;;; ret None.

Definition WriteUInt16 (value : Z) : M error :=
  letM (off, ok) := applyWrite SIZEOF_2_BYTE in
  if negb ok then ret (Some ErrorWriteOverflow)
  else letM b := get in
       order_PutUint16 (order b) off value ;;; ret None.

Definition WriteInt32 (value : Z) : M error :=
  letM (off, ok) := applyWrite SIZEOF_4_BYTE in
  if negb ok then ret (Some ErrorWriteOverflow)
  else letM b := get in
       order_PutUint32 (order b) off (to_unsigned 32 value) ;;; ret None.

Definition WriteUInt32 (value : Z) : M error :=
  letM (off, ok) := applyWrite SIZEOF_4_BYTE in
  if negb ok then ret (Some ErrorWriteOverflow)
  else letM b := get in
       order_PutUint32 (order b) off value ;;; ret None.

Definition WriteInt64 (value : Z) : M error :=
  letM (off, ok) := applyWrite SIZEOF_8_BYTE in
  if negb ok then ret (Some ErrorWriteOverflow)
  else letM b := get in
       order_PutUint64 (order b) off (to_unsigned 64 value) ;;; ret None.

Definition WriteUInt64 (value : Z) : M error :=
  letM (off, ok) := applyWrite SIZEOF_8_BYTE in
  if negb ok then ret (Some ErrorWriteOverflow)
  else letM b := get in
       order_PutUint64 (order b) off value ;;; ret None.

Definition WriteFloat32 (value : float32) : M error :=
  letM (off, ok) := applyWrite SIZEOF_4_BYTE in
  if negb ok then ret (Some ErrorWriteOverflow)
  else letM b := get in
       order_PutUint32 (order b) off (Float32bits value) ;;; ret None.

Definition WriteFloat64 (value : float64) : M error :=
  letM (off, ok) := applyWrite SIZEOF_8_BYTE in
  if negb ok then ret (Some ErrorWriteOverflow)
  else letM b := get in
       order_PutUint64 (order b) off (Float64bits value) ;;; ret None.

(** ** Reading at the cursor *)

Definition ReadInt8 : M (Z * error) :=
  letM (off, ok) := applyRead SIZEOF_1_BYTE in
  if negb ok then ret (0, Some ErrorReadOverflow)
  else letM value := load off in ret (value, None).

Definition ReadBoolean : M (bool * error) :=
  letM (value, ok) := ReadInt8 in
  ret (value =? TRUE, ok).

(** The loop of [ReadString]:
    [for i := buf.offset; i < buf.length; i++ { if buf.buf[i] == 0 { endIndex = i; break } }].
    [n] is the number of values of [i] still below [buf.length], so
    [n = 0] is the loop condition failing; the result is [endIndex] at
    loop exit. *)
Fixpoint scan_zero (n : nat) (i endIndex : Z) : M Z :=
  match n with
  | O => ret endIndex
  | S n' =>
      letM x := load i in
      if x =? 0 then ret i else scan_zero n' (i + 1) endIndex
  end.

Definition ReadString (length0 : Z) : M (string * error) :=
  if length0 =? 0 then ret (EmptyString, None)
  else if length0 <=? 0 then
    letM b := get in
    let startIndex := offset b in
    letM endIndex := scan_zero (Z.to_nat (length b - offset b)) (offset b) (length b) in
    set_offset endIndex ;;;
    letM s := slice startIndex endIndex in
    ret (string_of_bytes s, None)
  else
    letM b := get in
    if int_add (offset b) length0 >? length b
    then ret (EmptyString, Some ErrorReadOverflow)
    else
      letM (off, ok) := applyRead length0 in
      if negb ok then ret (EmptyString, Some ErrorReadOverflow)
      else letM s := slice off (int_add off length0) in
           ret (string_of_bytes s, None).

(** [ReadBytes] also returns the destination slice [value] as the call
    leaves it. *)
Definition ReadBytes (value : list Z) (length0 : Z) : M (list Z * Z * error) :=
  if length0 =? 0 then ret (value, 0, None)
  else
    let early :=
      if length0 <? 0 then inl (len value)
      else if length0 >? len value then inr ErrorReadOverflow
      else inl length0 in
    match early with
    | inr e => ret (value, 0, Some e)
    | inl length1 =>
        letM (off, ok) := applyRead length1 in
        if negb ok then ret (value, 0, Some ErrorReadOverflow)
        else letM source := slice off (int_add off length1) in
             let (value', n) := copy_out value source in
             ret (value', n, None)
    end.

Definition ReadInt16 : M (Z * error) :=
  letM (off, ok) := applyRead SIZEOF_2_BYTE in
  if negb ok then ret (0, Some ErrorReadOverflow)
  else letM b := get in
       letM value := order_Uint16 (order b) off in
       ret (to_signed 16 value, None).

Definition ReadUInt16 : M (Z * error) :=
  letM (off, ok) := applyRead SIZEOF_2_BYTE in
  if negb ok then ret (0, Some ErrorReadOverflow)
  else letM b := get in
       letM value := order_Uint16 (order b) off in
       ret (value, None).

Definition ReadInt32 : M (Z * error) :=
  letM (off, ok) := applyRead SIZEOF_4_BYTE in
  if negb ok then ret (0, Some ErrorReadOverflow)
  else letM b := get in
       letM value := order_Uint32 (order b) off in
       ret (to_signed 32 value, None).

Definition ReadUInt32 : M (Z * error) :=
  letM (off, ok) := applyRead SIZEOF_4_BYTE in
  if negb ok then ret (0, Some ErrorReadOverflow)
  else letM b := get in
       letM value := order_Uint32 (order b) off in
       ret (value, None).

Definition ReadInt64 : M (Z * error) :=
  letM (off, ok) := applyRead SIZEOF_8_BYTE in
  if negb ok then ret (0, Some ErrorReadOverflow)
  else letM b := get in
       letM value := order_Uint64 (order b) off in
       ret (to_signed 64 value, None).

Definition ReadUInt64 : M (Z * error) :=
  letM (off, ok) := applyRead SIZEOF_8_BYTE in
  if negb ok then ret (0, Some ErrorReadOverflow)
  else letM b := get in
       letM value := order_Uint64 (order b) off in
       ret (value, None).

(** The zero value of the failing branch is the float whose bits are 0. *)
Definition ReadFloat32 : M (float32 * error) :=
  letM (off, ok) := applyRead SIZEOF_4_BYTE in
  if negb ok then ret (Float32frombits 0, Some ErrorReadOverflow)
  else letM b := get in
       letM value := order_Uint32 (order b) off in
       ret (Float32frombits value, None).

Definition ReadFloat64 : M (float64 * error) :=
  letM (off, ok) := applyRead SIZEOF_8_BYTE in
  if negb ok then ret (Float64frombits 0, Some ErrorReadOverflow)
  else letM b := get in
       letM value := order_Uint64 (order b) off in
       ret (Float64frombits value, None).

(** ** Writing and reading at a given position, cursor untouched *)

Definition PutUInt16 (off : Z) (value : Z) : M error :=
  letM b := get in
  if (off <? 0) || (int_add off SIZEOF_2_BYTE >? length b)
  then ret (Some ErrorPositionOverflow)
  else order_PutUint16 (order b) off value ;;; ret None.

Definition PutUInt32 (off : Z) (value : Z) : M error :=
  letM b := get in
  if (off <? 0) || (int_add off SIZEOF_4_BYTE >? length b)
  then ret (Some ErrorPositionOverflow)
  else order_PutUint32 (order b) off value ;;; ret None.

Definition PutUInt64 (off : Z) (value : Z) : M error :=
  letM b := get in
  if (off <? 0) || (int_add off SIZEOF_8_BYTE >? length b)
  then ret (Some ErrorPositionOverflow)
  else order_PutUint64 (order b) off value ;;; ret None.

Definition GetUInt16 (off : Z) : M (Z * error) :=
  letM b := get in
  if (off <? 0) || (int_add off SIZEOF_2_BYTE >? length b)
  then ret (0, Some ErrorPositionOverflow)
  else letM value := order_Uint16 (order b) off in ret (value, None).

Definition GetUInt32 (off : Z) : M (Z * error) :=
  letM b := get in
  if (off <? 0) || (int_add off SIZEOF_4_BYTE >? length b)
  then ret (0, Some ErrorPositionOverflow)
  else letM value := order_Uint32 (order b) off in ret (value, None).

Definition GetUInt64 (off : Z) : M (Z * error) :=
  letM b := get in
  if (off <? 0) || (int_add off SIZEOF_8_BYTE >? length b)
  then ret (0, Some ErrorPositionOverflow)
  else letM value := order_Uint64 (order b) off in ret (value, None).

(** ** The public API as data

    One constructor per exported method, with its arguments; [exec] runs
    the method and keeps the [error] it returns ([nil] for the methods
    that return none). *)

Inductive Op : Type :=
| OpLength | OpCap | OpPosition
| OpSetPosition (asbOffset : Z)
| OpReset
| OpSetOrder (o : ByteOrder)
| OpBuffer | OpData
| OpWriteInt8 (v : Z)
| OpWriteBoolean (v : bool)
| OpWriteString (s : string)
| OpWriteBytes (value : list Z)
| OpWriteInt16 (v : Z) | OpWriteUInt16 (v : Z)
| OpWriteInt32 (v : Z) | OpWriteUInt32 (v : Z)
| OpWriteInt64 (v : Z) | OpWriteUInt64 (v : Z)
| OpWriteFloat32 (f : float32) | OpWriteFloat64 (f : float64)
| OpReadInt8 | OpReadBoolean
| OpReadString (length0 : Z)
| OpReadBytes (value : list Z) (length0 : Z)
| OpReadInt16 | OpReadUInt16 | OpReadInt32 | OpReadUInt32
| OpReadInt64 | OpReadUInt64 | OpReadFloat32 | OpReadFloat64
| OpPutUInt16 (off v : Z) | OpPutUInt32 (off v : Z) | OpPutUInt64 (off v : Z)
| OpGetUInt16 (off : Z) | OpGetUInt32 (off : Z) | OpGetUInt64 (off : Z).

(** Keep only the [error] of a method that returns [(value, error)]. *)
Definition err_of {A} (m : M (A * error)) : M error :=
  letM r := m in ret (snd r).

(** A method that returns no [error]. *)
Definition no_err {A} (m : M A) : M error := m ;;; ret None.

Definition exec (op : Op) : M error :=
  match op with
  | OpLength => no_err Length
  | OpCap => no_err Cap
  | OpPosition => no_err Position
  | OpSetPosition p => SetPosition p
  | OpReset => no_err Reset
  | OpSetOrder o => no_err (SetOrder o)
  | OpBuffer => no_err Buffer
  | OpData => no_err Data
  | OpWriteInt8 v => WriteInt8 v
  | OpWriteBoolean v => WriteBoolean v
  | OpWriteString s => err_of (WriteString s)
  | OpWriteBytes l => err_of (WriteBytes l)
  | OpWriteInt16 v => WriteInt16 v
  | OpWriteUInt16 v => WriteUInt16 v
  | OpWriteInt32 v => WriteInt32 v
  | OpWriteUInt32 v => WriteUInt32 v
  | OpWriteInt64 v => WriteInt64 v
  | OpWriteUInt64 v => WriteUInt64 v
  | OpWriteFloat32 f => WriteFloat32 f
  | OpWriteFloat64 f => WriteFloat64 f
  | OpReadInt8 => err_of ReadInt8
  | OpReadBoolean => err_of ReadBoolean
  | OpReadString n => err_of (ReadString n)
  | OpReadBytes value n => err_of (ReadBytes value n)
  | OpReadInt16 => err_of ReadInt16
  | OpReadUInt16 => err_of ReadUInt16
  | OpReadInt32 => err_of ReadInt32
  | OpReadUInt32 => err_of ReadUInt32
  | OpReadInt64 => err_of ReadInt64
  | OpReadUInt64 => err_of ReadUInt64
  | OpReadFloat32 => err_of ReadFloat32
  | OpReadFloat64 => err_of ReadFloat64
  | OpPutUInt16 off v => PutUInt16 off v
  | OpPutUInt32 off v => PutUInt32 off v
  | OpPutUInt64 off v => PutUInt64 off v
  | OpGetUInt16 off => err_of (GetUInt16 off)
  | OpGetUInt32 off => err_of (GetUInt32 off)
  | OpGetUInt64 off => err_of (GetUInt64 off)
  end.

(** A sequence of calls, with the errors they return. *)
Fixpoint exec_all (ops : list Op) : M (list error) :=
  match ops with
  | [] => ret []
  | op :: ops' =>
      letM e := exec op in
      letM es := exec_all ops' in
      ret (e :: es)
  end.

(** The number of bytes a write method asks [applyWrite] for. *)
Definition write_size (op : Op) : option Z :=
  match op with
  | OpWriteInt8 _ | OpWriteBoolean _ => Some SIZEOF_1_BYTE
  | OpWriteString s => Some (len (bytes_of_string s))
  | OpWriteBytes l => Some (len l)
  | OpWriteInt16 _ | OpWriteUInt16 _ => Some SIZEOF_2_BYTE
  | OpWriteInt32 _ | OpWriteUInt32 _ | OpWriteFloat32 _ => Some SIZEOF_4_BYTE
  | OpWriteInt64 _ | OpWriteUInt64 _ | OpWriteFloat64 _ => Some SIZEOF_8_BYTE
  | _ => None
  end.

Definition total_size (ops : list Op) : Z :=
  fold_right
    (fun op acc => match write_size op with Some n => n | None => 0 end + acc)
    0 ops.

(** The write methods of the API. *)
Definition is_write (op : Op) : Prop := write_size op <> None.

(** The number of bytes a fixed-width read method asks [applyRead] for. *)
Definition read_size (op : Op) : option Z :=
  match op with
  | OpReadInt8 | OpReadBoolean => Some SIZEOF_1_BYTE
  | OpReadInt16 | OpReadUInt16 => Some SIZEOF_2_BYTE
  | OpReadInt32 | OpReadUInt32 | OpReadFloat32 => Some SIZEOF_4_BYTE
  | OpReadInt64 | OpReadUInt64 | OpReadFloat64 => Some SIZEOF_8_BYTE
  | _ => None
  end.

(** The position-indexed accessors, with their offset and width. *)
Definition accessor_of (op : Op) : option (Z * Z) :=
  match op with
  | OpPutUInt16 off _ | OpGetUInt16 off => Some (off, SIZEOF_2_BYTE)
  | OpPutUInt32 off _ | OpGetUInt32 off => Some (off, SIZEOF_4_BYTE)
  | OpPutUInt64 off _ | OpGetUInt64 off => Some (off, SIZEOF_8_BYTE)
  | _ => None
  end.

(** Arguments a Go caller can pass: an [int] is a 64-bit integer and a
    slice or string is no longer than the largest allocation. *)
Definition valid_op (op : Op) : Prop :=
  match op with
  | OpSetPosition p => is_int p
  | OpWriteString s => len (bytes_of_string s) <= maxAlloc
  | OpWriteBytes l => len l <= maxAlloc
  | OpReadString n => is_int n
  | OpReadBytes value n => len value <= maxAlloc /\ is_int n
  | OpPutUInt16 off _ | OpPutUInt32 off _ | OpPutUInt64 off _
  | OpGetUInt16 off | OpGetUInt32 off | OpGetUInt64 off => is_int off
  | _ => True
  end.

(** ** The primitive types of the typed read/write API *)

Inductive prim : Type :=
| Int8 | Boolean | Int16 | UInt16 | Int32 | UInt32 | Int64 | UInt64
| Float32 | Float64.

Inductive value : Type :=
| VInt8 (v : Z)
| VBoolean (v : bool)
| VInt16 (v : Z) | VUInt16 (v : Z)
| VInt32 (v : Z) | VUInt32 (v : Z)
| VInt64 (v : Z) | VUInt64 (v : Z)
| VFloat32 (f : float32) | VFloat64 (f : float64).

Definition typeof (v : value) : prim :=
  match v with
  | VInt8 _ => Int8 | VBoolean _ => Boolean
  | VInt16 _ => Int16 | VUInt16 _ => UInt16
  | VInt32 _ => Int32 | VUInt32 _ => UInt32
  | VInt64 _ => Int64 | VUInt64 _ => UInt64
  | VFloat32 _ => Float32 | VFloat64 _ => Float64
  end.

Definition sizeof (t : prim) : Z :=
  match t with
  | Int8 | Boolean => SIZEOF_1_BYTE
  | Int16 | UInt16 => SIZEOF_2_BYTE
  | Int32 | UInt32 | Float32 => SIZEOF_4_BYTE
  | Int64 | UInt64 | Float64 => SIZEOF_8_BYTE
  end.

(** The values of each Go type ([WriteInt8] takes a [byte]). *)
Definition in_type (v : value) : Prop :=
  match v with
  | VInt8 x => is_byte x
  | VBoolean _ => True
  | VInt16 x => is_sint 16 x | VUInt16 x => is_uint 16 x
  | VInt32 x => is_sint 32 x | VUInt32 x => is_uint 32 x
  | VInt64 x => is_sint 64 x | VUInt64 x => is_uint 64 x
  | VFloat32 f => is_uint 32 (Float32bits f)
  | VFloat64 f => is_uint 64 (Float64bits f)
  end.

(** The write method of the value's type. *)
Definition Write (v : value) : M error :=
  match v with
  | VInt8 x => WriteInt8 x
  | VBoolean x => WriteBoolean x
  | VInt16 x => WriteInt16 x | VUInt16 x => WriteUInt16 x
  | VInt32 x => WriteInt32 x | VUInt32 x => WriteUInt32 x
  | VInt64 x => WriteInt64 x | VUInt64 x => WriteUInt64 x
  | VFloat32 f => WriteFloat32 f
  | VFloat64 f => WriteFloat64 f
  end.

Definition tagged {A} (tag : A -> value) (m : M (A * error)) : M (value * error) :=
  letM r := m in ret (tag (fst r), snd r).

(** The read method of a type. *)
Definition Read (t : prim) : M (value * error) :=
  match t with
  | Int8 => tagged VInt8 ReadInt8
  | Boolean => tagged VBoolean ReadBoolean
  | Int16 => tagged VInt16 ReadInt16 | UInt16 => tagged VUInt16 ReadUInt16
  | Int32 => tagged VInt32 ReadInt32 | UInt32 => tagged VUInt32 ReadUInt32
  | Int64 => tagged VInt64 ReadInt64 | UInt64 => tagged VUInt64 ReadUInt64
  | Float32 => tagged VFloat32 ReadFloat32
  | Float64 => tagged VFloat64 ReadFloat64
  end.

(** ** Sample buffers *)

(** [NewByteBuffer(8, LittleEndian)], then [WriteBytes] of
    [0x41, 0x42, 0x00, 0x43], then [SetPosition(0)]. *)
Definition bufAB : ByteBuffer :=
  mkByteBuffer 8 [65; 66; 0; 67; 0; 0; 0; 0] 4 0 LittleEndian.

(** [NewByteBuffer(1, LittleEndian)], then [WriteInt8(7)]. *)
Definition buf7 : ByteBuffer := mkByteBuffer 1 [7] 1 1 LittleEndian.

(** [math.MaxInt64] *)
Definition MaxInt64 : Z := 9223372036854775807.

(** ** Byte sequences of the fixed-width encodings

    What the accessors of [encoding/binary] amount to, as functions on
    byte lists; the lemmas below relate them to the code above. *)

(** The bytes [PutUintN] stores, in index order. *)
Definition bytes_of_uint16 (o : ByteOrder) (v : Z) : list Z :=
  match o with
  | LittleEndian => [byte_of v; byte_of (Z.shiftr v 8)]
  | BigEndian => [byte_of (Z.shiftr v 8); byte_of v]
  end.

Definition bytes_of_uint32 (o : ByteOrder) (v : Z) : list Z :=
  match o with
  | LittleEndian =>
      [byte_of v; byte_of (Z.shiftr v 8); byte_of (Z.shiftr v 16);
       byte_of (Z.shiftr v 24)]
  | BigEndian =>
      [byte_of (Z.shiftr v 24); byte_of (Z.shiftr v 16);
       byte_of (Z.shiftr v 8); byte_of v]
  end.

Definition bytes_of_uint64 (o : ByteOrder) (v : Z) : list Z :=
  match o with
  | LittleEndian =>
      [byte_of v; byte_of (Z.shiftr v 8); byte_of (Z.shiftr v 16);
       byte_of (Z.shiftr v 24); byte_of (Z.shiftr v 32);
       byte_of (Z.shiftr v 40); byte_of (Z.shiftr v 48);
       byte_of (Z.shiftr v 56)]
  | BigEndian =>
      [byte_of (Z.shiftr v 56); byte_of (Z.shiftr v 48);
       byte_of (Z.shiftr v 40); byte_of (Z.shiftr v 32);
       byte_of (Z.shiftr v 24); byte_of (Z.shiftr v 16);
       byte_of (Z.shiftr v 8); byte_of v]
  end.

(** The integer [UintN] assembles from the bytes it loads. *)
Definition uint16_of_bytes (o : ByteOrder) (bs : list Z) : Z :=
  match bs with
  | [b0; b1] =>
      match o with
      | LittleEndian => Z.lor b0 (Z.shiftl b1 8)
      | BigEndian => Z.lor b1 (Z.shiftl b0 8)
      end
  | _ => 0
  end.

Definition uint32_of_bytes (o : ByteOrder) (bs : list Z) : Z :=
  match bs with
  | [b0; b1; b2; b3] =>
      match o with
      | LittleEndian =>
          Z.lor (Z.lor (Z.lor b0 (Z.shiftl b1 8)) (Z.shiftl b2 16)) (Z.shiftl b3 24)
      | BigEndian =>
          Z.lor (Z.lor (Z.lor b3 (Z.shiftl b2 8)) (Z.shiftl b1 16)) (Z.shiftl b0 24)
      end
  | _ => 0
  end.

Definition uint64_of_bytes (o : ByteOrder) (bs : list Z) : Z :=
  match bs with
  | [b0; b1; b2; b3; b4; b5; b6; b7] =>
      match o with
      | LittleEndian =>
          Z.lor (Z.lor (Z.lor (Z.lor (Z.lor (Z.lor (Z.lor
            b0 (Z.shiftl b1 8)) (Z.shiftl b2 16)) (Z.shiftl b3 24))
            (Z.shiftl b4 32)) (Z.shiftl b5 40)) (Z.shiftl b6 48)) (Z.shiftl b7 56)
      | BigEndian =>
          Z.lor (Z.lor (Z.lor (Z.lor (Z.lor (Z.lor (Z.lor
            b7 (Z.shiftl b6 8)) (Z.shiftl b5 16)) (Z.shiftl b4 24))
            (Z.shiftl b3 32)) (Z.shiftl b2 40)) (Z.shiftl b1 48)) (Z.shiftl b0 56)
      end
  | _ => 0
  end.

(** [s] with [bs] stored at indices [low], [low + 1], ... *)
Fixpoint put_bytes (s : list Z) (low : Z) (bs : list Z) : list Z :=
  match bs with
  | [] => s
  | x :: bs' => put_bytes (<[Z.to_nat low := x]> s) (low + 1) bs'
  end.

(** The [n] bytes of [s] from index [low]. *)
Definition window (s : list Z) (low : Z) (n : nat) : list Z :=
  take n (drop (Z.to_nat low) s).

(** The buffer with its backing bytes replaced. *)
Definition with_buf (s : list Z) (b : ByteBuffer) : ByteBuffer :=
  mkByteBuffer (cap b) s (length b) (offset b) (order b).

(** The buffer with its cursor replaced. *)
Definition with_offset (p : Z) (b : ByteBuffer) : ByteBuffer :=
  mkByteBuffer (cap b) (buf b) (length b) p (order b).

(** The buffer after a successful write of the [n] bytes [bs] at the
    cursor. *)
Definition written (b : ByteBuffer) (n : Z) (bs : list Z) : ByteBuffer :=
  mkByteBuffer (cap b) (put_bytes (buf b) (offset b) bs)
    (Z.max (length b) (offset b + n)) (offset b + n) (order b).

(** [ReadBytes] failing with an error of a kind other than
    [ErrorReadOverflow], cursor unchanged: what a separate length-mismatch
    error would look like. *)
Definition length_mismatch_is_distinct
    (b : ByteBuffer) (value : list Z) (length0 : Z) : Prop :=
  exists b' dst n e,
    ReadBytes value length0 b = (b', Ret (dst, n, Some e)) /\
    e <> ErrorReadOverflow /\ offset b' = offset b.

(** ** Well-formed buffers

    The representation invariant: the cursor lies in the valid data,
    the valid data lies in the capacity, and the backing slice is the
    one [make([]byte, cap)] allocated. *)
Record wf (b : ByteBuffer) : Prop := mk_wf {
  wf_offset : 0 <= offset b <= length b;
  wf_length : length b <= cap b;
  wf_buf : len (buf b) = cap b;
  wf_cap : cap b <= maxAlloc
}.

(** ** The wire format of the typed writes *)

(** The unsigned integer a typed write hands to the byte order (the byte
    itself for the one-byte types). *)
Definition unsigned_repr (v : value) : Z :=
  match v with
  | VInt8 x => x
  | VBoolean x => if x then TRUE else FALSE
  | VInt16 x => to_unsigned 16 x | VUInt16 x => x
  | VInt32 x => to_unsigned 32 x | VUInt32 x => x
  | VInt64 x => to_unsigned 64 x | VUInt64 x => x
  | VFloat32 f => Float32bits f
  | VFloat64 f => Float64bits f
  end.

(** The bytes a typed write stores, in index order. *)
Definition value_bytes (o : ByteOrder) (v : value) : list Z :=
  match v with
  | VInt8 _ | VBoolean _ => [unsigned_repr v]
  | VInt16 _ | VUInt16 _ => bytes_of_uint16 o (unsigned_repr v)
  | VInt32 _ | VUInt32 _ | VFloat32 _ => bytes_of_uint32 o (unsigned_repr v)
  | VInt64 _ | VUInt64 _ | VFloat64 _ => bytes_of_uint64 o (unsigned_repr v)
  end.

(** The [n] base-256 digits of [v], least significant first. *)
Fixpoint le_digits (n : nat) (v : Z) : list Z :=
  match n with
  | O => []
  | S n' => v mod 256 :: le_digits n' (v / 256)
  end.

(** ** Records of several fields

    What a caller serialises: typed values, strings and byte slices, one
    after the other; and what it then asks for when reading them back. *)

Inductive item : Type :=
| IValue (v : value)
| IString (s : string)
| IBytes (l : list Z).


Definition item_bytes (o : ByteOrder) (i : item) : list Z :=
  match i with
  | IValue v => value_bytes o v
  | IString s => bytes_of_string s
  | IBytes l => l
  end.

Definition write_item (i : item) : M error :=
  match i with
  | IValue v => Write v
  | IString s => err_of (WriteString s)
  | IBytes l => err_of (WriteBytes l)
  end.


Fixpoint write_all (items : list item) : M (list error) :=
  match items with
  | [] => ret []
  | i :: rest =>
      letM e := write_item i in
      letM es := write_all rest in
      ret (e :: es)
  end.




Definition items_size (o : ByteOrder) (items : list item) : Z :=
  fold_right (fun i acc => len (item_bytes o i) + acc) 0 items.

(** ** The superseded variant of the string and slice methods

    The first copy of the package in [bytebuffer.go]: its [WriteString],
    [WriteBytes], [ReadString] and [ReadBytes] differ from the current
    ones; every other method is the same code with the sizes written as
    literals. *)
Module Legacy.

Definition WriteString (value : string) : M (Z * error) :=
  let wlen := len (bytes_of_string value) in
  letM (off, ok) := applyWrite wlen in
  if negb ok then ret (0, Some ErrorWriteOverflow)
  else copy_in off (bytes_of_string value) ;;; ret (wlen, None).

Definition WriteBytes (value : list Z) : M error :=
  letM (off, ok) := applyWrite (len value) in
  if negb ok then ret (Some ErrorWriteOverflow)
  else copy_in off value ;;; ret None.

Definition ReadString (length0 : Z) : M (string * error) :=
  letM (off, ok) := applyRead length0 in
  if negb ok then ret (EmptyString, Some ErrorReadOverflow)
  else letM s := slice off (int_add off length0) in
       ret (string_of_bytes s, None).

(** Returns the destination slice [value] as the call leaves it, and the
    error. *)
Definition ReadBytes (value : list Z) (length0 : Z) : M (list Z * error) :=
  let early :=
    if length0 <? 0 then inl (len value)
    else if length0 >? len value then inr ErrorReadOverflow
    else inl length0 in
  match early with
  | inr e => ret (value, Some e)
  | inl length1 =>
      letM (off, ok) := applyRead length1 in
      if negb ok then ret (value, Some ErrorReadOverflow)
      else letM source := slice off (int_add off length1) in
           ret (fst (copy_out value source), None)
  end.

End Legacy.

(** ** Arguments away from the ends of [int] *)

(** The [int] arguments for which no range test of the package can wrap
    around: a positive [ReadString] length or an accessor offset at least
    [maxAlloc + 8] below [MaxInt64]. *)
Definition small_op (op : Op) : Prop :=
  match op with
  | OpReadString n => n <= int_max - maxAlloc
  | OpPutUInt16 off _ | OpPutUInt32 off _ | OpPutUInt64 off _
  | OpGetUInt16 off | OpGetUInt32 off | OpGetUInt64 off => off <= int_max - 8
  | _ => True
  end.


(** ** The unsigned accessors by width *)

Inductive width : Type := W16 | W32 | W64.

Definition width_bytes (w : width) : Z :=
  match w with
  | W16 => SIZEOF_2_BYTE | W32 => SIZEOF_4_BYTE | W64 => SIZEOF_8_BYTE
  end.

Definition width_bits (w : width) : Z :=
  match w with W16 => 16 | W32 => 32 | W64 => 64 end.

Definition PutUInt (w : width) (off value : Z) : M error :=
  match w with
  | W16 => PutUInt16 off value
  | W32 => PutUInt32 off value
  | W64 => PutUInt64 off value
  end.

Definition GetUInt (w : width) (off : Z) : M (Z * error) :=
  match w with
  | W16 => GetUInt16 off | W32 => GetUInt32 off | W64 => GetUInt64 off
  end.

Definition WriteUInt (w : width) (value : Z) : M error :=
  match w with
  | W16 => WriteUInt16 value
  | W32 => WriteUInt32 value
  | W64 => WriteUInt64 value
  end.

Definition ReadUInt (w : width) : M (Z * error) :=
  match w with
  | W16 => ReadUInt16 | W32 => ReadUInt32 | W64 => ReadUInt64
  end.

Definition bytes_of_uint (w : width) (o : ByteOrder) (v : Z) : list Z :=
  match w with
  | W16 => bytes_of_uint16 o v
  | W32 => bytes_of_uint32 o v
  | W64 => bytes_of_uint64 o v
  end.

Definition uint_of_bytes (w : width) (o : ByteOrder) (bs : list Z) : Z :=
  match w with
  | W16 => uint16_of_bytes o bs
  | W32 => uint32_of_bytes o bs
  | W64 => uint64_of_bytes o bs
  end.

(** ** What a typed read makes of the bytes under the cursor *)

Definition decode (o : ByteOrder) (t : prim) (bs : list Z) : value :=
  match t with
  | Int8 => VInt8 (match bs with [x] => x | _ => 0 end)
  | Boolean => VBoolean (match bs with [x] => x =? TRUE | _ => false end)
  | Int16 => VInt16 (to_signed 16 (uint16_of_bytes o bs))
  | UInt16 => VUInt16 (uint16_of_bytes o bs)
  | Int32 => VInt32 (to_signed 32 (uint32_of_bytes o bs))
  | UInt32 => VUInt32 (uint32_of_bytes o bs)
  | Int64 => VInt64 (to_signed 64 (uint64_of_bytes o bs))
  | UInt64 => VUInt64 (uint64_of_bytes o bs)
  | Float32 => VFloat32 (Float32frombits (uint32_of_bytes o bs))
  | Float64 => VFloat64 (Float64frombits (uint64_of_bytes o bs))
  end.

(** The value a typed read returns beside [ErrorReadOverflow]. *)
Definition zero_value (t : prim) : value :=
  match t with
  | Int8 => VInt8 0 | Boolean => VBoolean false
  | Int16 => VInt16 0 | UInt16 => VUInt16 0
  | Int32 => VInt32 0 | UInt32 => VUInt32 0
  | Int64 => VInt64 0 | UInt64 => VUInt64 0
  | Float32 => VFloat32 (Float32frombits 0)
  | Float64 => VFloat64 (Float64frombits 0)
  end.

(** The encodings of [items], one after the other. *)
Definition encoding (o : ByteOrder) (items : list item) : list Z :=
  concat (List.map (item_bytes o) items).

(** Two buffers that differ at most in the contents of the backing bytes. *)
Definition same_frame (b b' : ByteBuffer) : Prop :=
  cap b' = cap b /\ length b' = length b /\ offset b' = offset b /\
  order b' = order b /\ len (buf b') = len (buf b).

(** The signed writes by width. *)
Definition WriteInt (w : width) (value : Z) : M error :=
  match w with
  | W16 => WriteInt16 value
  | W32 => WriteInt32 value
  | W64 => WriteInt64 value
  end.

(** * Verification *)

(** ** Arithmetic of the embedding *)

Lemma int_add_small (x y : Z) : is_int (x + y) -> int_add x y = x + y.
Proof.
  unfold is_int, int_add, int_wrap, int_min, int_max. intros H.
  rewrite Z.mod_small; lia.
Qed.

Lemma int_add_overflow (x y : Z) :
  int_max < x + y <= int_max + 2 ^ 63 -> int_add x y = x + y - 2 ^ 64.
Proof.
  unfold int_add, int_wrap, int_max. intros H.
  replace (x + y + 2 ^ 63) with ((x + y - 2 ^ 63) + 1 * 2 ^ 64) by lia.
  rewrite Z.mod_add by lia. rewrite Z.mod_small; lia.
Qed.

Lemma len_nonneg (s : list Z) : 0 <= len s.
Proof. unfold len. lia. Qed.

Lemma len_insert (s : list Z) (i : nat) (v : Z) : len (<[i := v]> s) = len s.
Proof. unfold len. now rewrite length_insert. Qed.

Lemma index_Some_range (s : list Z) (i x : Z) :
  index s i = Some x -> 0 <= i < len s.
Proof.
  unfold index, len. destruct (Z.ltb_spec i 0); [discriminate|].
  intros Hx%lookup_lt_Some. lia.
Qed.

Lemma index_in_range (s : list Z) (i : Z) :
  0 <= i < len s -> exists x, index s i = Some x.
Proof.
  unfold index, len. intros Hi.
  destruct (Z.ltb_spec i 0); [lia|].
  destruct (lookup_lt_is_Some_2 s (Z.to_nat i)) as [x Hx]; [lia|].
  now exists x.
Qed.

(** Rebuilding a buffer from its own fields. *)
Lemma ByteBuffer_eta (b : ByteBuffer) :
  mkByteBuffer (cap b) (buf b) (length b) (offset b) (order b) = b.
Proof. now destruct b. Qed.

(** ** Construction *)

Lemma NewByteBuffer_wf (c : Z) (o : ByteOrder) (b : ByteBuffer) :
  NewByteBuffer c o = Ret b ->
  wf b /\ cap b = c /\ length b = 0 /\ offset b = 0 /\ order b = o.
Proof.
  unfold NewByteBuffer.
  destruct (Z.leb_spec 0 c), (Z.leb_spec c maxAlloc); simpl; try discriminate.
  intros Hb; injection Hb as <-. simpl. repeat split; simpl; try lia.
  unfold len. rewrite length_replicate. lia.
Qed.

Lemma NewByteBuffer_returns (c : Z) (o : ByteOrder) :
  0 <= c <= maxAlloc -> exists b, NewByteBuffer c o = Ret b.
Proof.
  intros Hc. unfold NewByteBuffer.
  destruct (Z.leb_spec 0 c), (Z.leb_spec c maxAlloc); try lia.
  simpl. eauto.
Qed.

Lemma wf_is_int_add (b : ByteBuffer) (n : Z) :
  wf b -> 0 <= n <= maxAlloc -> is_int (offset b + n).
Proof.
  intros [] Hn. unfold is_int, int_min, int_max, maxAlloc in *. lia.
Qed.

(** ** The two reservation primitives *)

Lemma applyWrite_eq (size : Z) (b : ByteBuffer) :
  applyWrite size b =
  if int_add (offset b) size >? cap b
  then (b, Ret (offset b, false))
  else (mkByteBuffer (cap b) (buf b)
          (Z.max (length b) (int_add (offset b) size))
          (int_add (offset b) size) (order b),
        Ret (offset b, true)).
Proof.
  unfold applyWrite, bind, get, ret, set_offset, set_length. simpl.
  destruct (int_add (offset b) size >? cap b); [reflexivity|]. simpl.
  destruct (Z.gtb_spec (int_add (offset b) size) (length b)); simpl;
    f_equal; f_equal; lia.
Qed.

Lemma applyRead_eq (size : Z) (b : ByteBuffer) :
  applyRead size b =
  if int_add (offset b) size >? length b
  then (b, Ret (offset b, false))
  else (mkByteBuffer (cap b) (buf b) (length b)
          (int_add (offset b) size) (order b),
        Ret (offset b, true)).
Proof.
  unfold applyRead, bind, get, ret, set_offset. simpl.
  now destruct (int_add (offset b) size >? length b).
Qed.

Lemma applyWrite_ok (size : Z) (b : ByteBuffer) :
  wf b -> 0 <= size -> offset b + size <= cap b ->
  applyWrite size b =
  (mkByteBuffer (cap b) (buf b) (Z.max (length b) (offset b + size))
     (offset b + size) (order b), Ret (offset b, true)).
Proof.
  intros Hwf Hs Hfit. rewrite applyWrite_eq.
  rewrite int_add_small by (apply wf_is_int_add; [assumption|destruct Hwf; lia]).
  destruct (Z.gtb_spec (offset b + size) (cap b)); [lia|reflexivity].
Qed.

Lemma applyWrite_overflow (size : Z) (b : ByteBuffer) :
  wf b -> 0 <= size <= maxAlloc -> offset b + size > cap b ->
  applyWrite size b = (b, Ret (offset b, false)).
Proof.
  intros Hwf Hs Hfit. rewrite applyWrite_eq.
  rewrite int_add_small by now apply wf_is_int_add.
  destruct (Z.gtb_spec (offset b + size) (cap b)); [reflexivity|lia].
Qed.

Lemma applyRead_ok (size : Z) (b : ByteBuffer) :
  wf b -> 0 <= size -> offset b + size <= length b ->
  applyRead size b =
  (mkByteBuffer (cap b) (buf b) (length b) (offset b + size) (order b),
   Ret (offset b, true)).
Proof.
  intros Hwf Hs Hfit. rewrite applyRead_eq.
  rewrite int_add_small by (apply wf_is_int_add; [assumption|destruct Hwf; lia]).
  destruct (Z.gtb_spec (offset b + size) (length b)); [lia|reflexivity].
Qed.

(** Inversion of a [bind] that returned. *)
Lemma bind_Ret {A B} (m : M A) (k : A -> M B) (b b' : ByteBuffer) (r : B) :
  bind m k b = (b', Ret r) ->
  exists b1 a, m b = (b1, Ret a) /\ k a b1 = (b', Ret r).
Proof.
  unfold bind. destruct (m b) as [b1 [a|]]; [eauto|discriminate].
Qed.

(** ** SetPosition *)

(** C6. [SetPosition p] returns [nil] and moves the cursor to [p] exactly
    when [0 <= p <= length]; for every other [p] it returns
    [ErrorPositionOverflow] and changes nothing. *)
Theorem SetPosition_spec (b : ByteBuffer) (p : Z) :
  (snd (SetPosition p b) = Ret None <-> 0 <= p <= length b) /\
  (0 <= p <= length b ->
   SetPosition p b =
   (mkByteBuffer (cap b) (buf b) (length b) p (order b), Ret None)) /\
  (~ (0 <= p <= length b) ->
   SetPosition p b = (b, Ret (Some ErrorPositionOverflow))).
Proof.
  unfold SetPosition, bind, get, ret, set_offset. simpl.
  destruct (Z.ltb_spec p 0), (Z.gtb_spec p (length b)); simpl;
    (split; [split; [discriminate || (intros; lia) | reflexivity || (intros; lia)]
            | split; intros; reflexivity || lia]).
Qed.

Lemma SetPosition_spec_witness :
  SetPosition 3 bufAB =
    (mkByteBuffer 8 [65; 66; 0; 67; 0; 0; 0; 0] 4 3 LittleEndian, Ret None) /\
  SetPosition 5 bufAB = (bufAB, Ret (Some ErrorPositionOverflow)) /\
  SetPosition (-1) bufAB = (bufAB, Ret (Some ErrorPositionOverflow)).
Proof.
  split; [|split].
  - apply (proj1 (proj2 (SetPosition_spec bufAB 3))). simpl. lia.
  - apply (proj2 (proj2 (SetPosition_spec bufAB 5))). simpl. lia.
  - apply (proj2 (proj2 (SetPosition_spec bufAB (-1)))). simpl. lia.
Defined.

(** The sample buffers are the states the API produces. *)
Lemma bufAB_built :
  exists b0 b1,
    NewByteBuffer 8 LittleEndian = Ret b0 /\
    WriteBytes [65; 66; 0; 67] b0 = (b1, Ret (4, None)) /\
    SetPosition 0 b1 = (bufAB, Ret None).
Proof.
  exists (mkByteBuffer 8 [0; 0; 0; 0; 0; 0; 0; 0] 0 0 LittleEndian),
         (mkByteBuffer 8 [65; 66; 0; 67; 0; 0; 0; 0] 4 4 LittleEndian).
  repeat split; vm_compute; reflexivity.
Qed.

Lemma buf7_built :
  exists b0,
    NewByteBuffer 1 LittleEndian = Ret b0 /\
    WriteInt8 7 b0 = (buf7, Ret None).
Proof.
  exists (mkByteBuffer 1 [0] 0 0 LittleEndian).
  split; vm_compute; reflexivity.
Qed.

Lemma bufAB_wf : wf bufAB.
Proof. split; vm_compute; intuition discriminate. Qed.

Lemma buf7_wf : wf buf7.
Proof. split; vm_compute; intuition discriminate. Qed.

(** ** ReadBytes with a length beyond the destination *)

(** C3, as stated, fails: [ReadBytes] of 3 bytes into a 2-byte destination
    returns [ErrorReadOverflow] itself, the error of a read past the valid
    data. *)
Lemma ReadBytes_mismatch_not_distinct :
  3 > len [0; 0] /\ ~ length_mismatch_is_distinct bufAB [0; 0] 3.
Proof.
  split; [vm_compute; reflexivity|].
  intros (b' & dst & n & e & Hrun & Hne & _).
  vm_compute in Hrun. congruence.
Qed.

(** C3, amended. When [length > len(value)], [ReadBytes] returns 0 and
    [ErrorReadOverflow] (the package has no separate length-mismatch
    error), and leaves the buffer, cursor included, and the destination
    as they were. *)
Theorem ReadBytes_length_beyond_destination
    (b : ByteBuffer) (value : list Z) (length0 : Z) :
  length0 > len value ->
  ReadBytes value length0 b = (b, Ret (value, 0, Some ErrorReadOverflow)).
Proof.
  intros H. pose proof (len_nonneg value). unfold ReadBytes.
  destruct (Z.eqb_spec length0 0); [lia|].
  destruct (Z.ltb_spec length0 0); [lia|].
  destruct (Z.gtb_spec length0 (len value)); [reflexivity|lia].
Qed.

Lemma ReadBytes_length_beyond_destination_witness :
  ReadBytes [0; 0] 3 bufAB = (bufAB, Ret ([0; 0], 0, Some ErrorReadOverflow)).
Proof.
  apply (ReadBytes_length_beyond_destination bufAB [0; 0] 3).
  vm_compute. reflexivity.
Defined.

(** A read past the valid data returns the very same error value. *)
Lemma ReadBytes_past_valid_data :
  ReadBytes [0; 0; 0; 0; 0] 5 bufAB =
  (bufAB, Ret ([0; 0; 0; 0; 0], 0, Some ErrorReadOverflow)).
Proof. vm_compute. reflexivity. Qed.

(** ** ReadBoolean *)

Lemma ReadInt8_ok (b : ByteBuffer) :
  wf b -> offset b + 1 <= length b ->
  exists x, index (buf b) (offset b) = Some x /\
    ReadInt8 b =
    (mkByteBuffer (cap b) (buf b) (length b) (offset b + 1) (order b),
     Ret (x, None)).
Proof.
  intros Hwf Hfit.
  destruct (index_in_range (buf b) (offset b)) as [x Hx];
    [destruct Hwf; lia|].
  exists x. split; [assumption|].
  unfold ReadInt8, bind. rewrite applyRead_ok by (assumption || (unfold SIZEOF_1_BYTE; lia)).
  unfold SIZEOF_1_BYTE. simpl. unfold load. simpl. rewrite Hx. reflexivity.
Qed.

(** C9. With a readable byte [x] at the cursor, [ReadBoolean] returns
    without error, advances the cursor by one, and its result is [true]
    exactly when [x = 1]: every other byte, 2 and 255 included, reads as
    [false]. *)
Theorem ReadBoolean_true_iff_one (b : ByteBuffer) :
  wf b -> offset b + 1 <= length b ->
  exists x v,
    index (buf b) (offset b) = Some x /\
    ReadBoolean b =
      (mkByteBuffer (cap b) (buf b) (length b) (offset b + 1) (order b),
       Ret (v, None)) /\
    (v = true <-> x = 1).
Proof.
  intros Hwf Hfit.
  destruct (ReadInt8_ok b Hwf Hfit) as (x & Hx & Hrun).
  exists x, (x =? TRUE). split; [assumption|]. split.
  - unfold ReadBoolean, bind. rewrite Hrun. reflexivity.
  - unfold TRUE. apply Z.eqb_eq.
Qed.

(** A full buffer holding the bytes 1, 2 and 255, cursor on the 2. *)
Lemma ReadBoolean_true_iff_one_witness :
  wf (mkByteBuffer 3 [1; 2; 255] 3 1 BigEndian) /\
  exists x v,
    index [1; 2; 255] 1 = Some x /\
    ReadBoolean (mkByteBuffer 3 [1; 2; 255] 3 1 BigEndian) =
      (mkByteBuffer 3 [1; 2; 255] 3 2 BigEndian, Ret (v, None)) /\
    (v = true <-> x = 1).
Proof.
  assert (Hwf : wf (mkByteBuffer 3 [1; 2; 255] 3 1 BigEndian)).
  { split; simpl; unfold maxAlloc, len; simpl; lia. }
  split; [exact Hwf|].
  apply (ReadBoolean_true_iff_one (mkByteBuffer 3 [1; 2; 255] 3 1 BigEndian) Hwf).
  simpl. lia.
Defined.

Example ReadBoolean_2_is_false :
  snd (ReadBoolean (mkByteBuffer 3 [1; 2; 255] 3 1 BigEndian)) = Ret (false, None).
Proof. reflexivity. Qed.

Example ReadBoolean_255_is_false :
  snd (ReadBoolean (mkByteBuffer 3 [1; 2; 255] 3 2 BigEndian)) = Ret (false, None).
Proof. reflexivity. Qed.

Example ReadBoolean_1_is_true :
  snd (ReadBoolean (mkByteBuffer 3 [1; 2; 255] 3 0 BigEndian)) = Ret (true, None).
Proof. reflexivity. Qed.

(** ** ReadString with a negative length *)

Lemma scan_zero_spec (b : ByteBuffer) (n : nat) :
  forall i : Z,
    0 <= i -> i + Z.of_nat n = length b -> length b <= len (buf b) ->
    exists e,
      scan_zero n i (length b) b = (b, Ret e) /\
      i <= e <= length b /\
      (forall j, i <= j < e -> exists x, index (buf b) j = Some x /\ x <> 0) /\
      (e < length b -> index (buf b) e = Some 0).
Proof.
  induction n as [|n IH]; intros i Hi Hn Hlen.
  - exists (length b). simpl. repeat split; intros; lia || reflexivity.
  - destruct (index_in_range (buf b) i) as [x Hx]; [lia|].
    simpl. unfold bind, load. rewrite Hx.
    destruct (Z.eqb_spec x 0) as [->|Hnz].
    + exists i. repeat split; intros; try lia; assumption.
    + destruct (IH (i + 1)) as (e & Hrun & Hrange & Hbefore & Hat); try lia.
      exists e. repeat split; try assumption; try lia.
      intros j Hj. destruct (Z.eq_dec j i) as [->|Hne]; [eauto|].
      apply Hbefore. lia.
Qed.

(** What [ReadString(-1)] does on the example of the specification. *)
Example ReadString_example_run :
  ReadString (-1) bufAB =
  (mkByteBuffer 8 [65; 66; 0; 67; 0; 0; 0; 0] 4 2 LittleEndian,
   Ret ("AB"%string, None)).
Proof. vm_compute. reflexivity. Qed.

(** C2, as stated, fails on its own example: after writing
    [0x41, 0x42, 0x00, 0x43] and [SetPosition(0)], [ReadString(-1)]
    returns "AB" but leaves the cursor at 2, on the terminator, not at 3. *)
Lemma ReadString_example_cursor_not_3 :
  ~ (forall b0 b1 b2 b3 r,
       NewByteBuffer 8 LittleEndian = Ret b0 ->
       WriteBytes [65; 66; 0; 67] b0 = (b1, Ret (4, None)) ->
       SetPosition 0 b1 = (b2, Ret None) ->
       ReadString (-1) b2 = (b3, r) ->
       r = Ret ("AB"%string, None) /\ offset b3 = 3).
Proof.
  intros Hall.
  destruct (Hall
              (mkByteBuffer 8 [0; 0; 0; 0; 0; 0; 0; 0] 0 0 LittleEndian)
              (mkByteBuffer 8 [65; 66; 0; 67; 0; 0; 0; 0] 4 4 LittleEndian)
              bufAB
              (mkByteBuffer 8 [65; 66; 0; 67; 0; 0; 0; 0] 4 2 LittleEndian)
              (Ret ("AB"%string, None)))
    as [_ Hcursor]; try (vm_compute; reflexivity).
  discriminate Hcursor.
Qed.

(** The run of [ReadString] on a negative length, given where the scan
    stops. *)
Lemma ReadString_scan (b : ByteBuffer) (n e : Z) :
  n < 0 -> 0 <= offset b <= e -> e <= len (buf b) ->
  scan_zero (Z.to_nat (length b - offset b)) (offset b) (length b) b = (b, Ret e) ->
  ReadString n b =
    (with_offset e b,
     Ret (string_of_bytes (window (buf b) (offset b) (Z.to_nat (e - offset b))),
          None)).
Proof.
  intros Hn Hoff He Hrun. unfold ReadString.
  destruct (Z.eqb_spec n 0); [lia|].
  destruct (Z.leb_spec n 0); [|lia].
  unfold bind at 1. unfold get at 1. unfold bind at 1. rewrite Hrun.
  unfold bind, set_offset, slice, ret. simpl.
  destruct (Z.leb_spec 0 (offset b)); [|lia].
  destruct (Z.leb_spec (offset b) e); [|lia].
  destruct (Z.leb_spec e (len (buf b))); [|lia].
  reflexivity.
Qed.

(** C2, amended. On a well-formed buffer, [ReadString] with a negative
    length returns without error the string of the bytes from the cursor
    up to [e], and leaves the cursor at [e], where [e] is the index of the
    first zero byte at or after the cursor inside the valid data (the
    terminator is not consumed), or [length] when there is none. *)
Theorem ReadString_negative (b : ByteBuffer) (n : Z) :
  wf b -> n < 0 ->
  exists e,
    offset b <= e <= length b /\
    (forall j, offset b <= j < e -> exists x, index (buf b) j = Some x /\ x <> 0) /\
    (e < length b -> index (buf b) e = Some 0) /\
    ReadString n b =
      (mkByteBuffer (cap b) (buf b) (length b) e (order b),
       Ret (string_of_bytes
              (take (Z.to_nat (e - offset b)) (drop (Z.to_nat (offset b)) (buf b))),
            None)).
Proof.
  intros Hwf Hn. destruct Hwf as [Hoff Hlen Hbuf Hcap].
  destruct (scan_zero_spec b (Z.to_nat (length b - offset b)) (offset b))
    as (e & Hrun & Hrange & Hbefore & Hat); try lia.
  exists e. split; [lia|]. split; [exact Hbefore|]. split; [exact Hat|].
  apply (ReadString_scan b n e); try assumption; lia.
Qed.

Lemma ReadString_negative_witness :
  exists e,
    0 <= e <= 4 /\
    (forall j, 0 <= j < e ->
       exists x, index [65; 66; 0; 67; 0; 0; 0; 0] j = Some x /\ x <> 0) /\
    (e < 4 -> index [65; 66; 0; 67; 0; 0; 0; 0] e = Some 0) /\
    ReadString (-1) bufAB =
      (mkByteBuffer 8 [65; 66; 0; 67; 0; 0; 0; 0] 4 e LittleEndian,
       Ret (string_of_bytes
              (take (Z.to_nat (e - 0)) (drop (Z.to_nat 0) [65; 66; 0; 67; 0; 0; 0; 0])),
            None)).
Proof.
  apply (ReadString_negative bufAB (-1)).
  - split; simpl; unfold maxAlloc, len; simpl; lia.
  - lia.
Defined.

(** C10. When the byte under the cursor is 0 and lies in the valid data,
    [ReadString] with a negative length returns the empty string and no
    error and leaves the whole buffer, cursor included, as it was; so any
    number of repeated calls leaves it there. *)
Theorem ReadString_at_terminator (b : ByteBuffer) (n : Z) (k : nat) :
  n < 0 -> offset b < length b -> index (buf b) (offset b) = Some 0 ->
  ReadString n b = (b, Ret (EmptyString, None)) /\
  Nat.iter k (fun s => fst (ReadString n s)) b = b.
Proof.
  intros Hn Hlt Hzero.
  assert (Hone : ReadString n b = (b, Ret (EmptyString, None))).
  { pose proof (index_Some_range _ _ _ Hzero) as Hr.
    unfold ReadString.
    destruct (Z.eqb_spec n 0); [lia|].
    destruct (Z.leb_spec n 0); [|lia].
    unfold bind at 1. unfold get at 1. unfold bind at 1.
    destruct (Z.to_nat (length b - offset b)) as [|m] eqn:Hm; [lia|].
    simpl. unfold bind at 1. unfold load. rewrite Hzero. simpl.
    unfold ret at 1. unfold bind, set_offset, slice, ret. simpl.
    destruct (Z.leb_spec 0 (offset b)); [|lia].
    destruct (Z.leb_spec (offset b) (offset b)); [|lia].
    destruct (Z.leb_spec (offset b) (len (buf b))); [|lia].
    simpl. rewrite Z.sub_diag. simpl. now rewrite ByteBuffer_eta. }
  split; [assumption|].
  induction k as [|k IH]; [reflexivity|].
  simpl. rewrite IH, Hone. reflexivity.
Qed.

(** The cursor sits on the terminator [ReadString(-1)] has just found. *)
Lemma ReadString_at_terminator_witness :
  ReadString (-1) (mkByteBuffer 8 [65; 66; 0; 67; 0; 0; 0; 0] 4 2 LittleEndian) =
    (mkByteBuffer 8 [65; 66; 0; 67; 0; 0; 0; 0] 4 2 LittleEndian,
     Ret (EmptyString, None)) /\
  Nat.iter 5 (fun s => fst (ReadString (-1) s))
    (mkByteBuffer 8 [65; 66; 0; 67; 0; 0; 0; 0] 4 2 LittleEndian) =
    mkByteBuffer 8 [65; 66; 0; 67; 0; 0; 0; 0] 4 2 LittleEndian.
Proof.
  apply (ReadString_at_terminator
           (mkByteBuffer 8 [65; 66; 0; 67; 0; 0; 0; 0] 4 2 LittleEndian) (-1) 5).
  - lia.
  - simpl. lia.
  - reflexivity.
Defined.

(** ** Stores and loads on the backing bytes *)

Lemma len_put_bytes (bs s : list Z) (low : Z) : len (put_bytes s low bs) = len s.
Proof.
  revert s low. induction bs as [|x bs IH]; intros s low; simpl; [reflexivity|].
  now rewrite IH, len_insert.
Qed.

Lemma index_insert_eq (s : list Z) (i v : Z) :
  0 <= i < len s -> index (<[Z.to_nat i := v]> s) i = Some v.
Proof.
  unfold index, len. intros Hi.
  destruct (Z.ltb_spec i 0); [lia|].
  apply list_lookup_insert_eq. lia.
Qed.

Lemma index_insert_ne (s : list Z) (i j v : Z) :
  0 <= i -> i <> j -> index (<[Z.to_nat i := v]> s) j = index s j.
Proof.
  unfold index. intros Hi Hne.
  destruct (Z.ltb_spec j 0); [reflexivity|].
  apply list_lookup_insert_ne. lia.
Qed.

Lemma index_put_bytes_before (bs s : list Z) (low j : Z) :
  0 <= low -> j < low -> index (put_bytes s low bs) j = index s j.
Proof.
  revert s low. induction bs as [|x bs IH]; intros s low Hlow Hj; simpl;
    [reflexivity|].
  rewrite IH by lia. apply index_insert_ne; lia.
Qed.

Lemma index_put_bytes (bs s : list Z) (low : Z) (k : nat) :
  0 <= low -> low + len bs <= len s ->
  (k < List.length bs)%nat ->
  index (put_bytes s low bs) (low + Z.of_nat k) = bs !! k.
Proof.
  revert s low k. induction bs as [|x bs IH]; intros s low k Hlow Hfit Hk;
    simpl in *; [lia|].
  unfold len in Hfit. simpl in Hfit.
  destruct k as [|k].
  - rewrite Z.add_0_r. rewrite index_put_bytes_before by lia.
    apply index_insert_eq. unfold len. lia.
  - replace (low + Z.of_nat (S k)) with (low + 1 + Z.of_nat k) by lia.
    simpl. apply IH; try lia.
    rewrite len_insert. unfold len. lia.
Qed.

Lemma index_window (s : list Z) (low : Z) (n k : nat) :
  0 <= low -> (k < n)%nat ->
  index s (low + Z.of_nat k) = window s low n !! k.
Proof.
  intros Hlow Hk. unfold index, window.
  destruct (Z.ltb_spec (low + Z.of_nat k) 0); [lia|].
  rewrite lookup_take_lt by assumption. rewrite lookup_drop.
  f_equal. lia.
Qed.

Lemma length_window (s : list Z) (low : Z) (n : nat) :
  0 <= low -> low + Z.of_nat n <= len s -> List.length (window s low n) = n.
Proof.
  unfold window, len. intros Hlow Hfit.
  rewrite length_take, length_drop. lia.
Qed.

(** Reading back the window just stored. *)
Lemma window_put_bytes (bs s : list Z) (low : Z) :
  0 <= low -> low + len bs <= len s ->
  window (put_bytes s low bs) low (List.length bs) = bs.
Proof.
  intros Hlow Hfit. apply list_eq. intros k.
  destruct (Nat.lt_ge_cases k (List.length bs)) as [Hk|Hk].
  - rewrite <- (index_window _ low _ k) by assumption.
    now apply index_put_bytes.
  - rewrite (lookup_ge_None_2 bs k) by lia.
    apply lookup_ge_None_2.
    rewrite length_window; [lia|assumption|].
    rewrite len_put_bytes. exact Hfit.
Qed.

(** ** The [encoding/binary] accessors on the backing bytes *)

(** Decide the next bounds test of a straight-line run, under hypotheses
    that settle it. *)
Ltac settle_test :=
  match goal with
  | |- context [Z.leb ?a ?b] => destruct (Z.leb_spec a b); try lia
  | |- context [Z.ltb ?a ?b] => destruct (Z.ltb_spec a b); try lia
  end.

Ltac run_straight :=
  unfold bind, ret, get, set_buf;
  repeat (cbv beta iota;
          cbn [fst snd andb orb negb buf cap length offset order];
          rewrite ?len_insert;
          try settle_test).

Ltac close_put :=
  unfold with_buf;
  cbn [put_bytes bytes_of_uint16 bytes_of_uint32 bytes_of_uint64
       buf cap length offset order];
  rewrite ?Z.add_0_r, <- ?Z.add_assoc; reflexivity.

Lemma order_PutUint16_ok (o : ByteOrder) (low v : Z) (b : ByteBuffer) :
  0 <= low -> low + 2 <= len (buf b) ->
  order_PutUint16 o low v b =
  (with_buf (put_bytes (buf b) low (bytes_of_uint16 o v)) b, Ret tt).
Proof.
  intros Hlow Hfit. destruct b as [c s l p d]. cbn [buf] in Hfit.
  unfold order_PutUint16, slice_from, bounds_hint, store.
  destruct o; run_straight; close_put.
Qed.

Lemma order_PutUint16_panic (o : ByteOrder) (low v : Z) (b : ByteBuffer) :
  ~ (0 <= low /\ low + 2 <= len (buf b)) ->
  order_PutUint16 o low v b = (b, Panic).
Proof.
  intros Hout. destruct b as [c s l p d]. cbn [buf] in Hout.
  unfold order_PutUint16, slice_from, bounds_hint, store.
  destruct o; run_straight; reflexivity.
Qed.

Lemma order_PutUint32_ok (o : ByteOrder) (low v : Z) (b : ByteBuffer) :
  0 <= low -> low + 4 <= len (buf b) ->
  order_PutUint32 o low v b =
  (with_buf (put_bytes (buf b) low (bytes_of_uint32 o v)) b, Ret tt).
Proof.
  intros Hlow Hfit. destruct b as [c s l p d]. cbn [buf] in Hfit.
  unfold order_PutUint32, slice_from, bounds_hint, store.
  destruct o; run_straight; close_put.
Qed.

Lemma order_PutUint32_panic (o : ByteOrder) (low v : Z) (b : ByteBuffer) :
  ~ (0 <= low /\ low + 4 <= len (buf b)) ->
  order_PutUint32 o low v b = (b, Panic).
Proof.
  intros Hout. destruct b as [c s l p d]. cbn [buf] in Hout.
  unfold order_PutUint32, slice_from, bounds_hint, store.
  destruct o; run_straight; reflexivity.
Qed.

Lemma order_PutUint64_ok (o : ByteOrder) (low v : Z) (b : ByteBuffer) :
  0 <= low -> low + 8 <= len (buf b) ->
  order_PutUint64 o low v b =
  (with_buf (put_bytes (buf b) low (bytes_of_uint64 o v)) b, Ret tt).
Proof.
  intros Hlow Hfit. destruct b as [c s l p d]. cbn [buf] in Hfit.
  unfold order_PutUint64, slice_from, bounds_hint, store.
  destruct o; run_straight; close_put.
Qed.

Lemma order_PutUint64_panic (o : ByteOrder) (low v : Z) (b : ByteBuffer) :
  ~ (0 <= low /\ low + 8 <= len (buf b)) ->
  order_PutUint64 o low v b = (b, Panic).
Proof.
  intros Hout. destruct b as [c s l p d]. cbn [buf] in Hout.
  unfold order_PutUint64, slice_from, bounds_hint, store.
  destruct o; run_straight; reflexivity.
Qed.

Lemma order_Uint16_ok (o : ByteOrder) (low : Z) (b : ByteBuffer) :
  0 <= low -> low + 2 <= len (buf b) ->
  order_Uint16 o low b = (b, Ret (uint16_of_bytes o (window (buf b) low 2))).
Proof.
  intros Hlow Hfit. destruct b as [c s l p d]. cbn [buf] in *.
  pose proof (length_window s low 2 Hlow ltac:(lia)) as Hlen.
  destruct (window s low 2) as [|x0 [|x1 [|? ?]]] eqn:Hw;
    try discriminate Hlen.
  pose proof (index_window s low 2 0 Hlow ltac:(lia)) as Hi0;
    rewrite Hw in Hi0; change (index s (low + 0) = Some x0) in Hi0.
  pose proof (index_window s low 2 1 Hlow ltac:(lia)) as Hi1;
    rewrite Hw in Hi1; change (index s (low + 1) = Some x1) in Hi1.
  unfold order_Uint16, slice_from, bounds_hint, load.
  run_straight.
  rewrite Hi0; cbv beta iota; cbn [buf]. rewrite Hi1; cbv beta iota; cbn [buf].
  destruct o; reflexivity.
Qed.

Lemma order_Uint16_panic (o : ByteOrder) (low : Z) (b : ByteBuffer) :
  ~ (0 <= low /\ low + 2 <= len (buf b)) ->
  order_Uint16 o low b = (b, Panic).
Proof.
  intros Hout. destruct b as [c s l p d]. cbn [buf] in Hout.
  unfold order_Uint16, slice_from, bounds_hint.
  run_straight; reflexivity.
Qed.

Lemma order_Uint32_ok (o : ByteOrder) (low : Z) (b : ByteBuffer) :
  0 <= low -> low + 4 <= len (buf b) ->
  order_Uint32 o low b = (b, Ret (uint32_of_bytes o (window (buf b) low 4))).
Proof.
  intros Hlow Hfit. destruct b as [c s l p d]. cbn [buf] in *.
  pose proof (length_window s low 4 Hlow ltac:(lia)) as Hlen.
  destruct (window s low 4) as [|x0 [|x1 [|x2 [|x3 [|? ?]]]]] eqn:Hw;
    try discriminate Hlen.
  pose proof (index_window s low 4 0 Hlow ltac:(lia)) as Hi0;
    rewrite Hw in Hi0; change (index s (low + 0) = Some x0) in Hi0.
  pose proof (index_window s low 4 1 Hlow ltac:(lia)) as Hi1;
    rewrite Hw in Hi1; change (index s (low + 1) = Some x1) in Hi1.
  pose proof (index_window s low 4 2 Hlow ltac:(lia)) as Hi2;
    rewrite Hw in Hi2; change (index s (low + 2) = Some x2) in Hi2.
  pose proof (index_window s low 4 3 Hlow ltac:(lia)) as Hi3;
    rewrite Hw in Hi3; change (index s (low + 3) = Some x3) in Hi3.
  unfold order_Uint32, slice_from, bounds_hint, load.
  run_straight.
  rewrite Hi0; cbv beta iota; cbn [buf]. rewrite Hi1; cbv beta iota; cbn [buf]. rewrite Hi2; cbv beta iota; cbn [buf]. rewrite Hi3; cbv beta iota; cbn [buf].
  destruct o; reflexivity.
Qed.

Lemma order_Uint32_panic (o : ByteOrder) (low : Z) (b : ByteBuffer) :
  ~ (0 <= low /\ low + 4 <= len (buf b)) ->
  order_Uint32 o low b = (b, Panic).
Proof.
  intros Hout. destruct b as [c s l p d]. cbn [buf] in Hout.
  unfold order_Uint32, slice_from, bounds_hint.
  run_straight; reflexivity.
Qed.

Lemma order_Uint64_ok (o : ByteOrder) (low : Z) (b : ByteBuffer) :
  0 <= low -> low + 8 <= len (buf b) ->
  order_Uint64 o low b = (b, Ret (uint64_of_bytes o (window (buf b) low 8))).
Proof.
  intros Hlow Hfit. destruct b as [c s l p d]. cbn [buf] in *.
  pose proof (length_window s low 8 Hlow ltac:(lia)) as Hlen.
  destruct (window s low 8) as [|x0 [|x1 [|x2 [|x3 [|x4 [|x5 [|x6 [|x7 [|? ?]]]]]]]]] eqn:Hw;
    try discriminate Hlen.
  pose proof (index_window s low 8 0 Hlow ltac:(lia)) as Hi0;
    rewrite Hw in Hi0; change (index s (low + 0) = Some x0) in Hi0.
  pose proof (index_window s low 8 1 Hlow ltac:(lia)) as Hi1;
    rewrite Hw in Hi1; change (index s (low + 1) = Some x1) in Hi1.
  pose proof (index_window s low 8 2 Hlow ltac:(lia)) as Hi2;
    rewrite Hw in Hi2; change (index s (low + 2) = Some x2) in Hi2.
  pose proof (index_window s low 8 3 Hlow ltac:(lia)) as Hi3;
    rewrite Hw in Hi3; change (index s (low + 3) = Some x3) in Hi3.
  pose proof (index_window s low 8 4 Hlow ltac:(lia)) as Hi4;
    rewrite Hw in Hi4; change (index s (low + 4) = Some x4) in Hi4.
  pose proof (index_window s low 8 5 Hlow ltac:(lia)) as Hi5;
    rewrite Hw in Hi5; change (index s (low + 5) = Some x5) in Hi5.
  pose proof (index_window s low 8 6 Hlow ltac:(lia)) as Hi6;
    rewrite Hw in Hi6; change (index s (low + 6) = Some x6) in Hi6.
  pose proof (index_window s low 8 7 Hlow ltac:(lia)) as Hi7;
    rewrite Hw in Hi7; change (index s (low + 7) = Some x7) in Hi7.
  unfold order_Uint64, slice_from, bounds_hint, load.
  run_straight.
  rewrite Hi0; cbv beta iota; cbn [buf]. rewrite Hi1; cbv beta iota; cbn [buf]. rewrite Hi2; cbv beta iota; cbn [buf]. rewrite Hi3; cbv beta iota; cbn [buf]. rewrite Hi4; cbv beta iota; cbn [buf]. rewrite Hi5; cbv beta iota; cbn [buf]. rewrite Hi6; cbv beta iota; cbn [buf]. rewrite Hi7; cbv beta iota; cbn [buf].
  destruct o; reflexivity.
Qed.

Lemma order_Uint64_panic (o : ByteOrder) (low : Z) (b : ByteBuffer) :
  ~ (0 <= low /\ low + 8 <= len (buf b)) ->
  order_Uint64 o low b = (b, Panic).
Proof.
  intros Hout. destruct b as [c s l p d]. cbn [buf] in Hout.
  unfold order_Uint64, slice_from, bounds_hint.
  run_straight; reflexivity.
Qed.

(** ** Encoding then decoding a fixed-width integer *)

Lemma byte_of_mod (x : Z) : byte_of x = x mod 256.
Proof.
  unfold byte_of. change 255 with (Z.ones 8).
  rewrite Z.land_ones by lia. reflexivity.
Qed.

Lemma byte_of_is_byte (x : Z) : is_byte (byte_of x).
Proof. rewrite byte_of_mod. unfold is_byte. apply Z.mod_pos_bound. lia. Qed.

(** Or-ing in a byte above the bits already set is an addition. *)
Lemma lor_shiftl_add (a x k : Z) :
  0 <= k -> 0 <= a < 2 ^ k -> 0 <= x ->
  Z.lor a (Z.shiftl x k) = a + x * 2 ^ k.
Proof.
  intros Hk Ha Hx.
  assert (Hdisj : Z.land a (Z.shiftl x k) = 0).
  { apply Z.bits_inj'. intros n Hn.
    rewrite Z.land_spec, Z.bits_0.
    destruct (Z.lt_ge_cases n k) as [Hlt|Hge].
    - rewrite (Z.shiftl_spec_low x k n Hlt). apply andb_false_r.
    - replace (Z.testbit a n) with false; [reflexivity|].
      symmetry. destruct (Z.eq_dec a 0) as [->|Hnz]; [apply Z.bits_0|].
      apply Z.bits_above_log2; [lia|].
      assert (Z.log2 a < k) by (apply Z.log2_lt_pow2; lia). lia. }
  rewrite <- Z.lxor_lor by assumption.
  rewrite <- Z.add_nocarry_lxor by assumption.
  now rewrite Z.shiftl_mul_pow2.
Qed.

(** Rewrite the innermost [Z.lor _ (Z.shiftl _ _)] of the goal as a sum. *)
Ltac lor_to_add :=
  repeat match goal with
  | |- context [Z.lor ?a (Z.shiftl ?x ?k)] =>
      lazymatch a with
      | context [Z.lor] => fail
      | _ => rewrite (lor_shiftl_add a x k) by (unfold is_byte in *; lia)
      end
  end.

Lemma lor_bytes16 (b0 b1 : Z) :
  is_byte b0 -> is_byte b1 ->
  Z.lor b0 (Z.shiftl b1 8) = b0 + b1 * 2 ^ 8.
Proof. intros. lor_to_add. reflexivity. Qed.

Lemma lor_bytes32 (b0 b1 b2 b3 : Z) :
  is_byte b0 -> is_byte b1 -> is_byte b2 -> is_byte b3 ->
  Z.lor (Z.lor (Z.lor b0 (Z.shiftl b1 8)) (Z.shiftl b2 16)) (Z.shiftl b3 24) =
  b0 + b1 * 2 ^ 8 + b2 * 2 ^ 16 + b3 * 2 ^ 24.
Proof. intros. lor_to_add. reflexivity. Qed.

Lemma lor_bytes64 (b0 b1 b2 b3 b4 b5 b6 b7 : Z) :
  is_byte b0 -> is_byte b1 -> is_byte b2 -> is_byte b3 ->
  is_byte b4 -> is_byte b5 -> is_byte b6 -> is_byte b7 ->
  Z.lor (Z.lor (Z.lor (Z.lor (Z.lor (Z.lor (Z.lor
    b0 (Z.shiftl b1 8)) (Z.shiftl b2 16)) (Z.shiftl b3 24))
    (Z.shiftl b4 32)) (Z.shiftl b5 40)) (Z.shiftl b6 48)) (Z.shiftl b7 56) =
  b0 + b1 * 2 ^ 8 + b2 * 2 ^ 16 + b3 * 2 ^ 24 + b4 * 2 ^ 32 + b5 * 2 ^ 40
  + b6 * 2 ^ 48 + b7 * 2 ^ 56.
Proof. intros. lor_to_add. reflexivity. Qed.

(** The byte of [v] at bit [8 * k], as an iterated quotient. *)
Lemma byte_at (v : Z) (k : nat) :
  byte_of (Z.shiftr v (8 * Z.of_nat k)) = Nat.iter k (fun x => x / 256) v mod 256.
Proof.
  rewrite byte_of_mod. f_equal.
  induction k as [|k IH].
  - reflexivity.
  - replace (8 * Z.of_nat (S k)) with (8 * Z.of_nat k + 8) by lia.
    rewrite <- Z.shiftr_shiftr by lia. rewrite IH.
    simpl. now rewrite Z.shiftr_div_pow2 by lia.
Qed.

Ltac bytes_as_quotients v :=
  change (byte_of v) with (byte_of (Z.shiftr v (8 * Z.of_nat 0)));
  change (Z.shiftr v 8) with (Z.shiftr v (8 * Z.of_nat 1));
  change (Z.shiftr v 16) with (Z.shiftr v (8 * Z.of_nat 2));
  change (Z.shiftr v 24) with (Z.shiftr v (8 * Z.of_nat 3));
  change (Z.shiftr v 32) with (Z.shiftr v (8 * Z.of_nat 4));
  change (Z.shiftr v 40) with (Z.shiftr v (8 * Z.of_nat 5));
  change (Z.shiftr v 48) with (Z.shiftr v (8 * Z.of_nat 6));
  change (Z.shiftr v 56) with (Z.shiftr v (8 * Z.of_nat 7));
  rewrite !byte_at; cbn [Nat.iter nat_rect].

Lemma uint16_roundtrip (o : ByteOrder) (v : Z) :
  is_uint 16 v -> uint16_of_bytes o (bytes_of_uint16 o v) = v.
Proof.
  unfold is_uint. intros Hv.
  destruct o; cbn [uint16_of_bytes bytes_of_uint16];
    rewrite lor_bytes16 by apply byte_of_is_byte;
    bytes_as_quotients v; Z.div_mod_to_equations; lia.
Qed.

Lemma uint32_roundtrip (o : ByteOrder) (v : Z) :
  is_uint 32 v -> uint32_of_bytes o (bytes_of_uint32 o v) = v.
Proof.
  unfold is_uint. intros Hv.
  destruct o; cbn [uint32_of_bytes bytes_of_uint32];
    rewrite lor_bytes32 by apply byte_of_is_byte;
    bytes_as_quotients v; Z.div_mod_to_equations; lia.
Qed.

Lemma uint64_roundtrip (o : ByteOrder) (v : Z) :
  is_uint 64 v -> uint64_of_bytes o (bytes_of_uint64 o v) = v.
Proof.
  unfold is_uint. intros Hv.
  destruct o; cbn [uint64_of_bytes bytes_of_uint64];
    rewrite lor_bytes64 by apply byte_of_is_byte;
    bytes_as_quotients v; Z.div_mod_to_equations; lia.
Qed.

Lemma to_signed_to_unsigned (w v : Z) :
  0 < w -> is_sint w v ->
  is_uint w (to_unsigned w v) /\ to_signed w (to_unsigned w v) = v.
Proof.
  unfold is_sint, is_uint, to_signed, to_unsigned. intros Hw Hv.
  assert (Hpow : 2 ^ w = 2 * 2 ^ (w - 1)).
  { replace w with (Z.succ (w - 1)) at 1 by lia. apply Z.pow_succ_r. lia. }
  assert (Hpos : 0 < 2 ^ (w - 1)) by (apply Z.pow_pos_nonneg; lia).
  destruct (Z.lt_ge_cases v 0) as [Hneg|Hnonneg].
  - assert (Hmod : v mod 2 ^ w = v + 2 ^ w).
    { replace v with (v + 2 ^ w + (-1) * 2 ^ w) at 1 by lia.
      rewrite Z.mod_add by lia. apply Z.mod_small. lia. }
    rewrite Hmod. split; [lia|].
    destruct (Z.ltb_spec (v + 2 ^ w) (2 ^ (w - 1))); lia.
  - rewrite Z.mod_small by lia. split; [lia|].
    destruct (Z.ltb_spec v (2 ^ (w - 1))); lia.
Qed.

(** ** The typed writes and reads, when they fit *)

Lemma WriteInt8_ok (v : Z) (b : ByteBuffer) :
  wf b -> offset b + 1 <= cap b ->
  WriteInt8 v b = (written b 1 [v], Ret None).
Proof.
  intros Hwf Hfit. pose proof Hwf as [Hoff Hlen Hbuf Hcap].
  unfold WriteInt8, bind.
  rewrite applyWrite_ok by (assumption || (unfold SIZEOF_1_BYTE; lia)).
  cbv beta iota. cbn [negb]. unfold store, set_buf, ret.
  cbn [buf cap length offset order].
  destruct (Z.leb_spec 0 (offset b)); [|lia].
  destruct (Z.ltb_spec (offset b) (len (buf b))); [|lia].
  reflexivity.
Qed.

Lemma WriteBoolean_ok (v : bool) (b : ByteBuffer) :
  wf b -> offset b + 1 <= cap b ->
  WriteBoolean v b = (written b 1 [if v then TRUE else FALSE], Ret None).
Proof.
  intros Hwf Hfit. unfold WriteBoolean. destruct v; now apply WriteInt8_ok.
Qed.

Lemma WriteInt16_ok (v : Z) (b : ByteBuffer) :
  wf b -> offset b + 2 <= cap b ->
  WriteInt16 v b = (written b 2 (bytes_of_uint16 (order b) (to_unsigned 16 v)), Ret None).
Proof.
  intros Hwf Hfit. pose proof Hwf as [Hoff Hlen Hbuf Hcap].
  unfold WriteInt16, bind.
  rewrite applyWrite_ok by (assumption || (unfold SIZEOF_2_BYTE; lia)).
  cbv beta iota. cbn [negb get order].
  rewrite order_PutUint16_ok by (cbn [buf]; lia).
  reflexivity.
Qed.

Lemma WriteUInt16_ok (v : Z) (b : ByteBuffer) :
  wf b -> offset b + 2 <= cap b ->
  WriteUInt16 v b = (written b 2 (bytes_of_uint16 (order b) v), Ret None).
Proof.
  intros Hwf Hfit. pose proof Hwf as [Hoff Hlen Hbuf Hcap].
  unfold WriteUInt16, bind.
  rewrite applyWrite_ok by (assumption || (unfold SIZEOF_2_BYTE; lia)).
  cbv beta iota. cbn [negb get order].
  rewrite order_PutUint16_ok by (cbn [buf]; lia).
  reflexivity.
Qed.

Lemma WriteInt32_ok (v : Z) (b : ByteBuffer) :
  wf b -> offset b + 4 <= cap b ->
  WriteInt32 v b = (written b 4 (bytes_of_uint32 (order b) (to_unsigned 32 v)), Ret None).
Proof.
  intros Hwf Hfit. pose proof Hwf as [Hoff Hlen Hbuf Hcap].
  unfold WriteInt32, bind.
  rewrite applyWrite_ok by (assumption || (unfold SIZEOF_4_BYTE; lia)).
  cbv beta iota. cbn [negb get order].
  rewrite order_PutUint32_ok by (cbn [buf]; lia).
  reflexivity.
Qed.

Lemma WriteUInt32_ok (v : Z) (b : ByteBuffer) :
  wf b -> offset b + 4 <= cap b ->
  WriteUInt32 v b = (written b 4 (bytes_of_uint32 (order b) v), Ret None).
Proof.
  intros Hwf Hfit. pose proof Hwf as [Hoff Hlen Hbuf Hcap].
  unfold WriteUInt32, bind.
  rewrite applyWrite_ok by (assumption || (unfold SIZEOF_4_BYTE; lia)).
  cbv beta iota. cbn [negb get order].
  rewrite order_PutUint32_ok by (cbn [buf]; lia).
  reflexivity.
Qed.

Lemma WriteInt64_ok (v : Z) (b : ByteBuffer) :
  wf b -> offset b + 8 <= cap b ->
  WriteInt64 v b = (written b 8 (bytes_of_uint64 (order b) (to_unsigned 64 v)), Ret None).
Proof.
  intros Hwf Hfit. pose proof Hwf as [Hoff Hlen Hbuf Hcap].
  unfold WriteInt64, bind.
  rewrite applyWrite_ok by (assumption || (unfold SIZEOF_8_BYTE; lia)).
  cbv beta iota. cbn [negb get order].
  rewrite order_PutUint64_ok by (cbn [buf]; lia).
  reflexivity.
Qed.

Lemma WriteUInt64_ok (v : Z) (b : ByteBuffer) :
  wf b -> offset b + 8 <= cap b ->
  WriteUInt64 v b = (written b 8 (bytes_of_uint64 (order b) v), Ret None).
Proof.
  intros Hwf Hfit. pose proof Hwf as [Hoff Hlen Hbuf Hcap].
  unfold WriteUInt64, bind.
  rewrite applyWrite_ok by (assumption || (unfold SIZEOF_8_BYTE; lia)).
  cbv beta iota. cbn [negb get order].
  rewrite order_PutUint64_ok by (cbn [buf]; lia).
  reflexivity.
Qed.

Lemma WriteFloat32_ok (f : float32) (b : ByteBuffer) :
  wf b -> offset b + 4 <= cap b ->
  WriteFloat32 f b = (written b 4 (bytes_of_uint32 (order b) (Float32bits f)), Ret None).
Proof.
  intros Hwf Hfit. pose proof Hwf as [Hoff Hlen Hbuf Hcap].
  unfold WriteFloat32, bind.
  rewrite applyWrite_ok by (assumption || (unfold SIZEOF_4_BYTE; lia)).
  cbv beta iota. cbn [negb get order].
  rewrite order_PutUint32_ok by (cbn [buf]; lia).
  reflexivity.
Qed.

Lemma WriteFloat64_ok (f : float64) (b : ByteBuffer) :
  wf b -> offset b + 8 <= cap b ->
  WriteFloat64 f b = (written b 8 (bytes_of_uint64 (order b) (Float64bits f)), Ret None).
Proof.
  intros Hwf Hfit. pose proof Hwf as [Hoff Hlen Hbuf Hcap].
  unfold WriteFloat64, bind.
  rewrite applyWrite_ok by (assumption || (unfold SIZEOF_8_BYTE; lia)).
  cbv beta iota. cbn [negb get order].
  rewrite order_PutUint64_ok by (cbn [buf]; lia).
  reflexivity.
Qed.

Lemma ReadInt16_ok (b : ByteBuffer) :
  wf b -> offset b + 2 <= length b ->
  ReadInt16 b =
  (with_offset (offset b + 2) b,
   Ret (to_signed 16 (uint16_of_bytes (order b) (window (buf b) (offset b) 2)), None)).
Proof.
  intros Hwf Hfit. pose proof Hwf as [Hoff Hlen Hbuf Hcap].
  unfold ReadInt16, bind.
  rewrite applyRead_ok by (assumption || (unfold SIZEOF_2_BYTE; lia)).
  cbv beta iota. cbn [negb get order].
  rewrite order_Uint16_ok by (cbn [buf]; lia).
  reflexivity.
Qed.

Lemma ReadUInt16_ok (b : ByteBuffer) :
  wf b -> offset b + 2 <= length b ->
  ReadUInt16 b =
  (with_offset (offset b + 2) b,
   Ret ((uint16_of_bytes (order b) (window (buf b) (offset b) 2)), None)).
Proof.
  intros Hwf Hfit. pose proof Hwf as [Hoff Hlen Hbuf Hcap].
  unfold ReadUInt16, bind.
  rewrite applyRead_ok by (assumption || (unfold SIZEOF_2_BYTE; lia)).
  cbv beta iota. cbn [negb get order].
  rewrite order_Uint16_ok by (cbn [buf]; lia).
  reflexivity.
Qed.

Lemma ReadInt32_ok (b : ByteBuffer) :
  wf b -> offset b + 4 <= length b ->
  ReadInt32 b =
  (with_offset (offset b + 4) b,
   Ret (to_signed 32 (uint32_of_bytes (order b) (window (buf b) (offset b) 4)), None)).
Proof.
  intros Hwf Hfit. pose proof Hwf as [Hoff Hlen Hbuf Hcap].
  unfold ReadInt32, bind.
  rewrite applyRead_ok by (assumption || (unfold SIZEOF_4_BYTE; lia)).
  cbv beta iota. cbn [negb get order].
  rewrite order_Uint32_ok by (cbn [buf]; lia).
  reflexivity.
Qed.

Lemma ReadUInt32_ok (b : ByteBuffer) :
  wf b -> offset b + 4 <= length b ->
  ReadUInt32 b =
  (with_offset (offset b + 4) b,
   Ret ((uint32_of_bytes (order b) (window (buf b) (offset b) 4)), None)).
Proof.
  intros Hwf Hfit. pose proof Hwf as [Hoff Hlen Hbuf Hcap].
  unfold ReadUInt32, bind.
  rewrite applyRead_ok by (assumption || (unfold SIZEOF_4_BYTE; lia)).
  cbv beta iota. cbn [negb get order].
  rewrite order_Uint32_ok by (cbn [buf]; lia).
  reflexivity.
Qed.

Lemma ReadInt64_ok (b : ByteBuffer) :
  wf b -> offset b + 8 <= length b ->
  ReadInt64 b =
  (with_offset (offset b + 8) b,
   Ret (to_signed 64 (uint64_of_bytes (order b) (window (buf b) (offset b) 8)), None)).
Proof.
  intros Hwf Hfit. pose proof Hwf as [Hoff Hlen Hbuf Hcap].
  unfold ReadInt64, bind.
  rewrite applyRead_ok by (assumption || (unfold SIZEOF_8_BYTE; lia)).
  cbv beta iota. cbn [negb get order].
  rewrite order_Uint64_ok by (cbn [buf]; lia).
  reflexivity.
Qed.

Lemma ReadUInt64_ok (b : ByteBuffer) :
  wf b -> offset b + 8 <= length b ->
  ReadUInt64 b =
  (with_offset (offset b + 8) b,
   Ret ((uint64_of_bytes (order b) (window (buf b) (offset b) 8)), None)).
Proof.
  intros Hwf Hfit. pose proof Hwf as [Hoff Hlen Hbuf Hcap].
  unfold ReadUInt64, bind.
  rewrite applyRead_ok by (assumption || (unfold SIZEOF_8_BYTE; lia)).
  cbv beta iota. cbn [negb get order].
  rewrite order_Uint64_ok by (cbn [buf]; lia).
  reflexivity.
Qed.

Lemma ReadFloat32_ok (b : ByteBuffer) :
  wf b -> offset b + 4 <= length b ->
  ReadFloat32 b =
  (with_offset (offset b + 4) b,
   Ret (Float32frombits (uint32_of_bytes (order b) (window (buf b) (offset b) 4)), None)).
Proof.
  intros Hwf Hfit. pose proof Hwf as [Hoff Hlen Hbuf Hcap].
  unfold ReadFloat32, bind.
  rewrite applyRead_ok by (assumption || (unfold SIZEOF_4_BYTE; lia)).
  cbv beta iota. cbn [negb get order].
  rewrite order_Uint32_ok by (cbn [buf]; lia).
  reflexivity.
Qed.

Lemma ReadFloat64_ok (b : ByteBuffer) :
  wf b -> offset b + 8 <= length b ->
  ReadFloat64 b =
  (with_offset (offset b + 8) b,
   Ret (Float64frombits (uint64_of_bytes (order b) (window (buf b) (offset b) 8)), None)).
Proof.
  intros Hwf Hfit. pose proof Hwf as [Hoff Hlen Hbuf Hcap].
  unfold ReadFloat64, bind.
  rewrite applyRead_ok by (assumption || (unfold SIZEOF_8_BYTE; lia)).
  cbv beta iota. cbn [negb get order].
  rewrite order_Uint64_ok by (cbn [buf]; lia).
  reflexivity.
Qed.

Lemma ReadInt8_at (b : ByteBuffer) (x : Z) :
  wf b -> offset b + 1 <= length b -> index (buf b) (offset b) = Some x ->
  ReadInt8 b = (with_offset (offset b + 1) b, Ret (x, None)).
Proof.
  intros Hwf Hfit Hx.
  destruct (ReadInt8_ok b Hwf Hfit) as (y & Hy & Hrun).
  rewrite Hrun. unfold with_offset. congruence.
Qed.

Lemma SetPosition_ok (p : Z) (b : ByteBuffer) :
  0 <= p <= length b -> SetPosition p b = (with_offset p b, Ret None).
Proof.
  intros Hp. unfold SetPosition, bind, get, ret, set_offset.
  destruct (Z.ltb_spec p 0); [lia|].
  destruct (Z.gtb_spec p (length b)); [lia|reflexivity].
Qed.

Lemma wf_written (b : ByteBuffer) (n : Z) (bs : list Z) :
  wf b -> 0 <= n -> offset b + n <= cap b -> wf (written b n bs).
Proof.
  intros [Hoff Hlen Hbuf Hcap] Hn Hfit.
  split; cbn [written cap buf length offset]; try lia.
  now rewrite len_put_bytes.
Qed.

Lemma wf_with_offset (b : ByteBuffer) (p : Z) :
  wf b -> 0 <= p <= length b -> wf (with_offset p b).
Proof. intros [Hoff Hlen Hbuf Hcap] Hp. split; cbn; lia. Qed.

(** Seeking back to where a write started and taking the window of the
    same width gives the bytes written. *)
Lemma window_written (b : ByteBuffer) (n : Z) (bs : list Z) (k : nat) :
  wf b -> k = List.length bs -> offset b + Z.of_nat k <= cap b ->
  window (buf (with_offset (offset b) (written b n bs))) (offset b) k = bs.
Proof.
  intros [Hoff Hlen Hbuf Hcap] -> Hfit.
  cbn [with_offset written buf].
  apply window_put_bytes; unfold len in *; lia.
Qed.

Lemma length_bytes_of_uint16 (o : ByteOrder) (v : Z) :
  List.length (bytes_of_uint16 o v) = 2%nat.
Proof. now destruct o. Qed.

Lemma length_bytes_of_uint32 (o : ByteOrder) (v : Z) :
  List.length (bytes_of_uint32 o v) = 4%nat.
Proof. now destruct o. Qed.

Lemma length_bytes_of_uint64 (o : ByteOrder) (v : Z) :
  List.length (bytes_of_uint64 o v) = 8%nat.
Proof. now destruct o. Qed.

(** The three steps of a round trip over [k] bytes [bs]: the state after
    the write, the seek back, and what the read then sees. *)
Lemma roundtrip_steps (b : ByteBuffer) (k : nat) (bs : list Z) :
  wf b -> k = List.length bs -> offset b + Z.of_nat k <= cap b ->
  let b1 := written b (Z.of_nat k) bs in
  let b2 := with_offset (offset b) b1 in
  SetPosition (offset b) b1 = (b2, Ret None) /\
  wf b2 /\
  offset b2 = offset b /\
  offset b2 + Z.of_nat k <= length b2 /\
  order b2 = order b /\
  window (buf b2) (offset b2) k = bs.
Proof.
  intros Hwf Hk Hfit b1 b2.
  assert (Hwf1 : wf b1) by (apply wf_written; [assumption|lia|assumption]).
  assert (Hp : 0 <= offset b <= length b1).
  { destruct Hwf. subst b1. cbn [written length]. lia. }
  refine (conj _ (conj _ (conj _ (conj _ (conj _ _))))).
  - now apply SetPosition_ok.
  - unfold b2. apply wf_with_offset; assumption.
  - reflexivity.
  - subst b2 b1. cbn [with_offset written length offset]. lia.
  - reflexivity.
  - exact (window_written b (Z.of_nat k) bs k Hwf Hk Hfit).
Qed.

Lemma index_of_window1 (s : list Z) (low x : Z) :
  0 <= low -> window s low 1 = [x] -> index s low = Some x.
Proof.
  intros Hlow Hw.
  pose proof (index_window s low 1 0 Hlow ltac:(lia)) as Hi.
  rewrite Hw in Hi. now rewrite Z.add_0_r in Hi.
Qed.

(** ** Round trip of the typed API *)

Ltac roundtrip_with b k bs Hwf Hfit write_ok :=
  let Hk := fresh "Hk" in
  assert (Hk : k = List.length bs)
    by (symmetry;
        first [ reflexivity | apply length_bytes_of_uint16
              | apply length_bytes_of_uint32 | apply length_bytes_of_uint64 ]);
  let Hset := fresh "Hset" in
  let Hwf2 := fresh "Hwf2" in
  let Hoff2 := fresh "Hoff2" in
  let Hfit2 := fresh "Hfit2" in
  let Hord2 := fresh "Hord2" in
  let Hwin := fresh "Hwin" in
  destruct (roundtrip_steps b k bs Hwf Hk Hfit)
    as (Hset & Hwf2 & Hoff2 & Hfit2 & Hord2 & Hwin);
  exists (written b (Z.of_nat k) bs),
         (with_offset (offset b) (written b (Z.of_nat k) bs)),
         (with_offset (offset b + Z.of_nat k) (with_offset (offset b) (written b (Z.of_nat k) bs)));
  split; [apply write_ok; assumption|];
  split; [exact Hset|];
  unfold Read, tagged, bind.

(** C1. On a well-formed buffer with room for a value [v] of any of the
    ten primitive types, and under either byte order, the write method of
    the type returns no error, [SetPosition] back to the cursor held
    before the write returns no error, and the read method of the type
    then returns [v] itself and no error (a float being its bit
    pattern). *)
Theorem write_setposition_read_roundtrip (b : ByteBuffer) (v : value) :
  wf b -> in_type v -> offset b + sizeof (typeof v) <= cap b ->
  exists b1 b2 b3,
    Write v b = (b1, Ret None) /\
    SetPosition (offset b) b1 = (b2, Ret None) /\
    Read (typeof v) b2 = (b3, Ret (v, None)).
Proof.
  intros Hwf Hty Hfit.
  destruct v as [x|x|x|x|x|x|x|x|f|f]; cbn [typeof sizeof in_type Write] in *.
  - (* int8 *)
    roundtrip_with b 1%nat [x] Hwf Hfit WriteInt8_ok.
    rewrite (ReadInt8_at _ x) by
      (assumption || (apply index_of_window1; [destruct Hwf2; lia|exact Hwin])).
    reflexivity.
  - (* bool *)
    roundtrip_with b 1%nat [if x then TRUE else FALSE] Hwf Hfit WriteBoolean_ok.
    unfold ReadBoolean, bind.
    rewrite (ReadInt8_at _ (if x then TRUE else FALSE)) by
      (assumption || (apply index_of_window1; [destruct Hwf2; lia|exact Hwin])).
    destruct x; reflexivity.
  - (* int16 *)
    destruct (to_signed_to_unsigned 16 x) as [Hu Hs]; [lia|assumption|].
    roundtrip_with b 2%nat (bytes_of_uint16 (order b) (to_unsigned 16 x)) Hwf Hfit WriteInt16_ok.
    rewrite ReadInt16_ok by assumption. cbv beta iota. cbn [fst snd].
    rewrite Hwin, Hord2, uint16_roundtrip, Hs by assumption. reflexivity.
  - (* uint16 *)
    roundtrip_with b 2%nat (bytes_of_uint16 (order b) x) Hwf Hfit WriteUInt16_ok.
    rewrite ReadUInt16_ok by assumption. cbv beta iota. cbn [fst snd].
    rewrite Hwin, Hord2, uint16_roundtrip by assumption. reflexivity.
  - (* int32 *)
    destruct (to_signed_to_unsigned 32 x) as [Hu Hs]; [lia|assumption|].
    roundtrip_with b 4%nat (bytes_of_uint32 (order b) (to_unsigned 32 x)) Hwf Hfit WriteInt32_ok.
    rewrite ReadInt32_ok by assumption. cbv beta iota. cbn [fst snd].
    rewrite Hwin, Hord2, uint32_roundtrip, Hs by assumption. reflexivity.
  - (* uint32 *)
    roundtrip_with b 4%nat (bytes_of_uint32 (order b) x) Hwf Hfit WriteUInt32_ok.
    rewrite ReadUInt32_ok by assumption. cbv beta iota. cbn [fst snd].
    rewrite Hwin, Hord2, uint32_roundtrip by assumption. reflexivity.
  - (* int64 *)
    destruct (to_signed_to_unsigned 64 x) as [Hu Hs]; [lia|assumption|].
    roundtrip_with b 8%nat (bytes_of_uint64 (order b) (to_unsigned 64 x)) Hwf Hfit WriteInt64_ok.
    rewrite ReadInt64_ok by assumption. cbv beta iota. cbn [fst snd].
    rewrite Hwin, Hord2, uint64_roundtrip, Hs by assumption. reflexivity.
  - (* uint64 *)
    roundtrip_with b 8%nat (bytes_of_uint64 (order b) x) Hwf Hfit WriteUInt64_ok.
    rewrite ReadUInt64_ok by assumption. cbv beta iota. cbn [fst snd].
    rewrite Hwin, Hord2, uint64_roundtrip by assumption. reflexivity.
  - (* float32 *)
    roundtrip_with b 4%nat (bytes_of_uint32 (order b) (Float32bits f)) Hwf Hfit WriteFloat32_ok.
    rewrite ReadFloat32_ok by assumption. cbv beta iota. cbn [fst snd].
    rewrite Hwin, Hord2, uint32_roundtrip by assumption.
    destruct f; reflexivity.
  - (* float64 *)
    roundtrip_with b 8%nat (bytes_of_uint64 (order b) (Float64bits f)) Hwf Hfit WriteFloat64_ok.
    rewrite ReadFloat64_ok by assumption. cbv beta iota. cbn [fst snd].
    rewrite Hwin, Hord2, uint64_roundtrip by assumption.
    destruct f; reflexivity.
Qed.

Lemma write_setposition_read_roundtrip_witness :
  (exists b1 b2 b3,
     Write (VInt32 (-5)) (mkByteBuffer 8 [65; 66; 0; 67; 0; 0; 0; 0] 4 4 BigEndian)
       = (b1, Ret None) /\
     SetPosition 4 b1 = (b2, Ret None) /\
     Read Int32 b2 = (b3, Ret (VInt32 (-5), None))) /\
  (exists b1 b2 b3,
     Write (VFloat64 (Float64frombits 4614256656552045848)) bufAB = (b1, Ret None) /\
     SetPosition 0 b1 = (b2, Ret None) /\
     Read Float64 b2 =
       (b3, Ret (VFloat64 (Float64frombits 4614256656552045848), None))).
Proof.
  split.
  - apply (write_setposition_read_roundtrip
             (mkByteBuffer 8 [65; 66; 0; 67; 0; 0; 0; 0] 4 4 BigEndian)
             (VInt32 (-5))).
    + split; simpl; unfold maxAlloc, len; simpl; lia.
    + simpl. unfold is_sint. simpl. lia.
    + simpl. unfold SIZEOF_4_BYTE. lia.
  - apply (write_setposition_read_roundtrip bufAB
             (VFloat64 (Float64frombits 4614256656552045848))).
    + split; simpl; unfold maxAlloc, len; simpl; lia.
    + simpl. unfold is_uint. simpl. lia.
    + simpl. unfold SIZEOF_8_BYTE. lia.
Defined.

(** ** The position-indexed accessors *)

(** The three ways the range test of an accessor can go: in range; out of
    range and reported; or [off + size] wrapping around, which passes the
    test with an offset beyond the backing slice. *)
Lemma accessor_check (b : ByteBuffer) (off size : Z) :
  wf b -> is_int off -> 0 < size <= 8 ->
  (0 <= off /\ off + size <= length b /\
   (off <? 0) || (int_add off size >? length b) = false) \/
  (~ (0 <= off /\ off + size <= length b) /\ off + size <= int_max /\
   (off <? 0) || (int_add off size >? length b) = true) \/
  (off + size > int_max /\ len (buf b) < off /\
   (off <? 0) || (int_add off size >? length b) = false).
Proof.
  intros [Hoff Hlen Hbuf Hcap] Hint Hsize.
  unfold is_int, int_min, int_max, maxAlloc in *.
  destruct (Z.ltb_spec off 0) as [Hneg|Hnonneg]; cbn [orb].
  - right. left. repeat split; lia.
  - destruct (Z.le_gt_cases (off + size) (2 ^ 63 - 1)) as [Hsmall|Hbig].
    + rewrite int_add_small by (unfold is_int, int_min, int_max; lia).
      destruct (Z.gtb_spec (off + size) (length b)).
      * right. left. repeat split; lia.
      * left. repeat split; lia.
    + right. right.
      rewrite int_add_overflow by (unfold int_max; lia).
      destruct (Z.gtb_spec (off + size - 2 ^ 64) (length b)); [lia|].
      repeat split; lia.
Qed.

Lemma with_buf_same (b : ByteBuffer) : with_buf (buf b) b = b.
Proof. now destruct b. Qed.

Ltac accessor_case b off size Hwf Hint :=
  destruct (accessor_check b off size Hwf Hint ltac:(lia))
    as [(Hlo & Hhi & Htest)|[(Hout & Hsmall & Htest)|(Hbig & Hfar & Htest)]];
  unfold PutUInt16, PutUInt32, PutUInt64, GetUInt16, GetUInt32, GetUInt64,
         err_of, bind, get;
  unfold SIZEOF_2_BYTE, SIZEOF_4_BYTE, SIZEOF_8_BYTE in *;
  cbv beta iota; rewrite Htest.

(** What each of the six accessors does, by the case of its range test. *)
Lemma exec_accessor_cases (b : ByteBuffer) (op : Op) (off size : Z) :
  wf b -> is_int off -> accessor_of op = Some (off, size) ->
  (0 <= off /\ off + size <= length b /\
   exists s, len s = len (buf b) /\ exec op b = (with_buf s b, Ret None)) \/
  (~ (0 <= off /\ off + size <= length b) /\ off + size <= int_max /\
   exec op b = (b, Ret (Some ErrorPositionOverflow))) \/
  (off + size > int_max /\ exec op b = (b, Panic)).
Proof.
  intros Hwf Hint Hacc. pose proof Hwf as [Hoff Hlen Hbuf Hcap].
  destruct op; try discriminate Hacc; cbn [accessor_of] in Hacc;
    injection Hacc as -> <-; cbn [exec];
    unfold SIZEOF_2_BYTE, SIZEOF_4_BYTE, SIZEOF_8_BYTE.
  - accessor_case b off 2 Hwf Hint.
    + left. repeat split; try lia. eexists. split; [|rewrite order_PutUint16_ok by lia; reflexivity].
      apply len_put_bytes.
    + right. left. repeat split; try lia.
    + right. right. split; [lia|]. rewrite order_PutUint16_panic by lia. reflexivity.
  - accessor_case b off 4 Hwf Hint.
    + left. repeat split; try lia. eexists. split; [|rewrite order_PutUint32_ok by lia; reflexivity].
      apply len_put_bytes.
    + right. left. repeat split; try lia.
    + right. right. split; [lia|]. rewrite order_PutUint32_panic by lia. reflexivity.
  - accessor_case b off 8 Hwf Hint.
    + left. repeat split; try lia. eexists. split; [|rewrite order_PutUint64_ok by lia; reflexivity].
      apply len_put_bytes.
    + right. left. repeat split; try lia.
    + right. right. split; [lia|]. rewrite order_PutUint64_panic by lia. reflexivity.
  - accessor_case b off 2 Hwf Hint.
    + left. repeat split; try lia. exists (buf b). split; [reflexivity|].
      rewrite order_Uint16_ok by lia. now rewrite with_buf_same.
    + right. left. repeat split; try lia.
    + right. right. split; [lia|]. rewrite order_Uint16_panic by lia. reflexivity.
  - accessor_case b off 4 Hwf Hint.
    + left. repeat split; try lia. exists (buf b). split; [reflexivity|].
      rewrite order_Uint32_ok by lia. now rewrite with_buf_same.
    + right. left. repeat split; try lia.
    + right. right. split; [lia|]. rewrite order_Uint32_panic by lia. reflexivity.
  - accessor_case b off 8 Hwf Hint.
    + left. repeat split; try lia. exists (buf b). split; [reflexivity|].
      rewrite order_Uint64_ok by lia. now rewrite with_buf_same.
    + right. left. repeat split; try lia.
    + right. right. split; [lia|]. rewrite order_Uint64_panic by lia. reflexivity.
Qed.

(** C7. Each of [PutUInt16/32/64] and [GetUInt16/32/64], at any [int]
    offset and on any well-formed buffer, leaves the cursor where it was
    whatever the outcome; returns no error exactly when
    [0 <= off] and [off + size <= length]; returns no error other than
    [ErrorPositionOverflow], and then leaves the whole buffer as it was;
    and does return that error whenever the offset is out of range and
    [off + size] does not exceed [MaxInt64]. *)
Theorem accessors_keep_cursor (b : ByteBuffer) (op : Op) (off size : Z) :
  wf b -> is_int off -> accessor_of op = Some (off, size) ->
  offset (fst (exec op b)) = offset b /\
  (snd (exec op b) = Ret None <-> 0 <= off /\ off + size <= length b) /\
  (forall e, snd (exec op b) = Ret (Some e) ->
             e = ErrorPositionOverflow /\ fst (exec op b) = b) /\
  (~ (0 <= off /\ off + size <= length b) -> off + size <= int_max ->
   exec op b = (b, Ret (Some ErrorPositionOverflow))).
Proof.
  intros Hwf Hint Hacc.
  destruct (exec_accessor_cases b op off size Hwf Hint Hacc)
    as [(Hlo & Hhi & s & Hs & Hrun)|[(Hout & Hsmall & Hrun)|(Hbig & Hrun)]];
    rewrite Hrun; cbn [fst snd with_buf offset].
  - split; [reflexivity|]. split; [split; [intros _; lia|reflexivity]|].
    split; [intros e [=]|]. intros Hout. destruct Hout. lia.
  - split; [reflexivity|]. split.
    + split; [intros [=]|intros Hin; destruct (Hout Hin)].
    + split; [intros e [= <-]; split; reflexivity|reflexivity].
  - split; [reflexivity|]. split.
    + split; [intros [=]|].
      intros [Hlo Hhi]. destruct Hwf. unfold int_max, maxAlloc in *. lia.
    + split; [intros e [=]|]. intros _ Hsmall. lia.
Qed.

Lemma accessors_keep_cursor_witness :
  offset (fst (exec (OpPutUInt32 0 16909060) bufAB)) = offset bufAB /\
  (snd (exec (OpPutUInt32 0 16909060) bufAB) = Ret None <->
   0 <= 0 /\ 0 + 4 <= length bufAB) /\
  (forall e, snd (exec (OpPutUInt32 0 16909060) bufAB) = Ret (Some e) ->
             e = ErrorPositionOverflow /\
             fst (exec (OpPutUInt32 0 16909060) bufAB) = bufAB) /\
  (~ (0 <= 0 /\ 0 + 4 <= length bufAB) -> 0 + 4 <= int_max ->
   exec (OpPutUInt32 0 16909060) bufAB =
   (bufAB, Ret (Some ErrorPositionOverflow))).
Proof.
  apply (accessors_keep_cursor bufAB (OpPutUInt32 0 16909060) 0 4).
  - split; simpl; unfold maxAlloc, len; simpl; lia.
  - unfold is_int, int_min, int_max. lia.
  - reflexivity.
Defined.

Example GetUInt16_past_valid_data :
  exec (OpGetUInt16 3) bufAB = (bufAB, Ret (Some ErrorPositionOverflow)).
Proof. vm_compute. reflexivity. Qed.

Example PutUInt32_patches_in_place :
  PutUInt32 0 16909060 bufAB =
  (mkByteBuffer 8 [4; 3; 2; 1; 0; 0; 0; 0] 4 0 LittleEndian, Ret None).
Proof. vm_compute. reflexivity. Qed.

(** ** Returned errors leave the buffer untouched *)

(** Case analysis on every test and every intermediate outcome of a run
    described by [H]. *)
Ltac crunch H :=
  repeat (cbv beta iota in *; cbn [fst snd negb] in *;
          rewrite ?applyWrite_eq, ?applyRead_eq in *;
          match goal with
          | Hq : context [match ?x with _ => _ end] |- _ => destruct x eqn:?
          end);
  cbv beta iota in *; cbn [fst snd negb] in *;
  simplify_eq; try discriminate; try reflexivity.

Ltac unfold_api H :=
  unfold exec, no_err, err_of, WriteBoolean, WriteString, ReadBoolean in H;
  unfold Length, Cap, Position, SetPosition, Reset,
    SetOrder, Buffer, Data, WriteInt8, WriteBytes,
    WriteInt16, WriteUInt16, WriteInt32, WriteUInt32, WriteInt64, WriteUInt64,
    WriteFloat32, WriteFloat64, ReadInt8, ReadString, ReadBytes,
    ReadInt16, ReadUInt16, ReadInt32, ReadUInt32, ReadInt64, ReadUInt64,
    ReadFloat32, ReadFloat64, PutUInt16, PutUInt32, PutUInt64, GetUInt16,
    GetUInt32, GetUInt64 in H;
  unfold bind in H;
  rewrite ?applyWrite_eq, ?applyRead_eq in H;
  unfold ret, get, set_offset, set_length, set_order in H.

(** C4. Whenever a method of the API returns an error, the buffer it
    leaves is the buffer it was given: backing bytes, valid length, cursor
    (and capacity and byte order) are all unchanged. *)
Theorem error_leaves_buffer_unchanged (op : Op) (b b' : ByteBuffer) (e : Error) :
  exec op b = (b', Ret (Some e)) -> b' = b.
Proof.
  intros H. destruct op; unfold_api H; crunch H.
Qed.

Lemma error_leaves_buffer_unchanged_witness :
  fst (exec (OpWriteInt64 1) buf7) = buf7 /\
  fst (exec (OpReadString 5) bufAB) = bufAB /\
  fst (exec (OpSetPosition 9) bufAB) = bufAB.
Proof.
  split; [|split].
  - apply (error_leaves_buffer_unchanged (OpWriteInt64 1) buf7 _ ErrorWriteOverflow).
    vm_compute. reflexivity.
  - apply (error_leaves_buffer_unchanged (OpReadString 5) bufAB _ ErrorReadOverflow).
    vm_compute. reflexivity.
  - apply (error_leaves_buffer_unchanged (OpSetPosition 9) bufAB _ ErrorPositionOverflow).
    vm_compute. reflexivity.
Defined.

(** ** Writes up to the capacity, and beyond *)

Lemma WriteBytes_ok (value : list Z) (b : ByteBuffer) :
  wf b -> offset b + len value <= cap b ->
  exists s, len s = len (buf b) /\
    WriteBytes value b =
    (mkByteBuffer (cap b) s (Z.max (length b) (offset b + len value))
       (offset b + len value) (order b),
     Ret (len value, None)).
Proof.
  intros Hwf Hfit. pose proof Hwf as [Hoff Hlen Hbuf Hcap].
  pose proof (len_nonneg value) as Hv.
  exists (take (Z.to_nat (offset b)) (buf b) ++ value
          ++ drop (Z.to_nat (offset b + len value)) (buf b)).
  split.
  - unfold len in *. rewrite !length_app, length_take, length_drop.
    clear Hwf Hcap. lia.
  - unfold WriteBytes, bind. rewrite applyWrite_ok by assumption.
    cbv beta iota. cbn [negb]. unfold copy_in, bind, slice_from, get, set_buf, ret.
    cbn [buf cap length offset order].
    destruct (Z.leb_spec 0 (offset b)); [|lia].
    destruct (Z.leb_spec (offset b) (len (buf b))); [|lia].
    cbn [andb buf cap length offset order]. rewrite Z.min_r by lia.
    unfold len at 1. rewrite Nat2Z.id, firstn_all. reflexivity.
Qed.

(** A write that fits returns no error, advances the cursor by its size
    and raises the valid length to the cursor if it was below. *)
Lemma exec_write_fits (b : ByteBuffer) (op : Op) (n : Z) :
  wf b -> write_size op = Some n -> offset b + n <= cap b ->
  0 <= n /\
  exists b1, exec op b = (b1, Ret None) /\ wf b1 /\ cap b1 = cap b /\
    offset b1 = offset b + n /\ length b1 = Z.max (length b) (offset b + n).
Proof.
  intros Hwf Hsize Hfit.
  destruct op; try discriminate Hsize; cbn [write_size] in Hsize;
    injection Hsize as <-; cbn [exec];
    unfold SIZEOF_1_BYTE, SIZEOF_2_BYTE, SIZEOF_4_BYTE, SIZEOF_8_BYTE in *;
    (split; [first [lia | apply len_nonneg]|]);
    try (eexists; split;
         [ first [ apply WriteInt8_ok | apply WriteBoolean_ok
                 | apply WriteInt16_ok | apply WriteUInt16_ok
                 | apply WriteInt32_ok | apply WriteUInt32_ok
                 | apply WriteInt64_ok | apply WriteUInt64_ok
                 | apply WriteFloat32_ok | apply WriteFloat64_ok ]; assumption
         | split; [apply wf_written; [assumption|lia|assumption]
                  | repeat split; reflexivity] ]).
  - (* WriteString *)
    match goal with |- context [WriteString ?x] =>
      destruct (WriteBytes_ok (bytes_of_string x) b Hwf Hfit) as (s' & Hs' & Hrun);
      pose proof (len_nonneg (bytes_of_string x))
    end.
    eexists. unfold err_of, WriteString, bind. rewrite Hrun. cbv beta iota.
    split; [reflexivity|]. destruct Hwf.
    repeat split; cbn; lia.
  - (* WriteBytes *)
    match goal with |- context [WriteBytes ?x] =>
      destruct (WriteBytes_ok x b Hwf Hfit) as (s' & Hs' & Hrun);
      pose proof (len_nonneg x)
    end.
    eexists. unfold err_of, bind. rewrite Hrun. cbv beta iota.
    split; [reflexivity|]. destruct Hwf.
    repeat split; cbn; lia.
Qed.

Lemma write_size_nonneg (op : Op) (n : Z) : write_size op = Some n -> 0 <= n.
Proof.
  destruct op; try discriminate; cbn [write_size]; intros [= <-];
    unfold SIZEOF_1_BYTE, SIZEOF_2_BYTE, SIZEOF_4_BYTE, SIZEOF_8_BYTE;
    first [lia | apply len_nonneg].
Qed.

Lemma total_size_nonneg (ops : list Op) : 0 <= total_size ops.
Proof.
  induction ops as [|op ops IH]; cbn [total_size fold_right]; [lia|].
  fold (total_size ops).
  destruct (write_size op) as [n|] eqn:Hn.
  - pose proof (write_size_nonneg op n Hn). lia.
  - lia.
Qed.

(** A write that does not fit returns [ErrorWriteOverflow] and changes
    nothing. *)
Lemma exec_write_overflow (b : ByteBuffer) (op : Op) (n : Z) :
  wf b -> write_size op = Some n -> valid_op op -> offset b + n > cap b ->
  exec op b = (b, Ret (Some ErrorWriteOverflow)).
Proof.
  intros Hwf Hsize Hvalid Hover.
  pose proof (write_size_nonneg op n Hsize) as Hn.
  destruct op; try discriminate Hsize; cbn [write_size valid_op] in *;
    injection Hsize as <-; cbn [exec];
    unfold err_of, WriteBoolean, WriteString, WriteInt8, WriteBytes, WriteInt16,
      WriteUInt16, WriteInt32, WriteUInt32, WriteInt64, WriteUInt64,
      WriteFloat32, WriteFloat64, bind;
    try match goal with |- context [if ?v then _ else _] => destruct v end;
    rewrite applyWrite_overflow by
      (first [assumption
             | unfold SIZEOF_1_BYTE, SIZEOF_2_BYTE, SIZEOF_4_BYTE, SIZEOF_8_BYTE,
                 maxAlloc in *; lia]);
    reflexivity.
Qed.

Lemma exec_all_writes (ops : list Op) :
  forall b : ByteBuffer,
    wf b -> Forall is_write ops -> offset b + total_size ops <= cap b ->
    exists b', exec_all ops b = (b', Ret (List.map (fun _ => None) ops)) /\
      wf b' /\ cap b' = cap b /\
      offset b' = offset b + total_size ops /\
      length b' = Z.max (length b) (offset b + total_size ops).
Proof.
  induction ops as [|op ops IH]; intros b Hwf Hall Hfit.
  - exists b. cbn. destruct Hwf. repeat split; try lia.
  - inversion Hall as [|? ? Hop Hrest]; subst.
    cbn [total_size fold_right] in *. fold (total_size ops) in *.
    destruct (write_size op) as [n|] eqn:Hn; [|now destruct Hop].
    pose proof (total_size_nonneg ops) as Htail.
    destruct (exec_write_fits b op n Hwf Hn) as (Hn0 & b1 & Hrun & Hwf1 & Hcap1 & Hoff1 & Hlen1);
      [lia|].
    destruct (IH b1 Hwf1 Hrest) as (b' & Hrun' & Hwf' & Hcap' & Hoff' & Hlen');
      [lia|].
    exists b'. cbn [exec_all List.map]. unfold bind at 1. rewrite Hrun.
    unfold bind at 1. rewrite Hrun'. unfold ret.
    repeat split; try lia; try apply Hwf'.
Qed.

(** C5. On a buffer just created with capacity [c], any sequence of
    writes whose sizes total at most [c] (in particular exactly [c]) all
    return no error and leave cursor and valid length at that total; and
    from the state they leave, every write that would take the cursor
    past [c] returns [ErrorWriteOverflow] and leaves the buffer (cursor,
    valid length and backing bytes) exactly as it was. *)
Theorem capacity_boundary
    (c : Z) (o : ByteOrder) (b0 : ByteBuffer) (ops : list Op) :
  NewByteBuffer c o = Ret b0 ->
  Forall is_write ops ->
  total_size ops <= c ->
  exists b,
    exec_all ops b0 = (b, Ret (List.map (fun _ => None) ops)) /\
    offset b = total_size ops /\ length b = total_size ops /\ cap b = c /\
    forall op n,
      write_size op = Some n -> valid_op op -> offset b + n > c ->
      exec op b = (b, Ret (Some ErrorWriteOverflow)).
Proof.
  intros Hnew Hall Htotal.
  destruct (NewByteBuffer_wf c o b0 Hnew) as (Hwf0 & Hcap0 & Hlen0 & Hoff0 & _).
  pose proof (total_size_nonneg ops) as Hnn.
  destruct (exec_all_writes ops b0 Hwf0 Hall) as (b & Hrun & Hwf & Hcap & Hoff & Hlen);
    [lia|].
  exists b. repeat split; try lia; try assumption.
  intros op n Hn Hvalid Hover. apply (exec_write_overflow b op n); try assumption. lia.
Qed.

Lemma capacity_boundary_witness :
  exists b,
    exec_all [OpWriteInt32 1; OpWriteBytes [1; 2]; OpWriteUInt16 7]
      (mkByteBuffer 8 [0; 0; 0; 0; 0; 0; 0; 0] 0 0 LittleEndian) =
      (b, Ret [None; None; None]) /\
    offset b = 8 /\ length b = 8 /\ cap b = 8 /\
    forall op n,
      write_size op = Some n -> valid_op op -> offset b + n > 8 ->
      exec op b = (b, Ret (Some ErrorWriteOverflow)).
Proof.
  apply (capacity_boundary 8 LittleEndian
           (mkByteBuffer 8 [0; 0; 0; 0; 0; 0; 0; 0] 0 0 LittleEndian)
           [OpWriteInt32 1; OpWriteBytes [1; 2]; OpWriteUInt16 7]).
  - reflexivity.
  - repeat constructor; discriminate.
  - vm_compute. discriminate.
Defined.

Example write_one_byte_too_many :
  exec (OpWriteBytes [1; 2; 3; 4; 5; 6; 7; 8; 9])
    (mkByteBuffer 8 [0; 0; 0; 0; 0; 0; 0; 0] 0 0 LittleEndian) =
  (mkByteBuffer 8 [0; 0; 0; 0; 0; 0; 0; 0] 0 0 LittleEndian,
   Ret (Some ErrorWriteOverflow)).
Proof. vm_compute. reflexivity. Qed.

(** ** The fixed-width reads *)

Lemma applyRead_overflow (size : Z) (b : ByteBuffer) :
  wf b -> 0 <= size <= maxAlloc -> offset b + size > length b ->
  applyRead size b = (b, Ret (offset b, false)).
Proof.
  intros Hwf Hs Hfit. rewrite applyRead_eq.
  rewrite int_add_small by now apply wf_is_int_add.
  destruct (Z.gtb_spec (offset b + size) (length b)); [reflexivity|lia].
Qed.

Lemma exec_read_cases (b : ByteBuffer) (op : Op) (n : Z) :
  wf b -> read_size op = Some n ->
  (offset b + n <= length b /\
   exec op b = (with_offset (offset b + n) b, Ret None)) \/
  (offset b + n > length b /\
   exec op b = (b, Ret (Some ErrorReadOverflow))).
Proof.
  intros Hwf Hsize.
  destruct (Z.le_gt_cases (offset b + n) (length b)) as [Hfit|Hover]; [left|right];
    (split; [lia|]);
    destruct op; try discriminate Hsize; cbn [read_size] in Hsize;
    injection Hsize as <-; cbn [exec]; unfold err_of, bind at 1;
    unfold SIZEOF_1_BYTE, SIZEOF_2_BYTE, SIZEOF_4_BYTE, SIZEOF_8_BYTE in *.
  all: try (first [ rewrite ReadInt16_ok by assumption
                  | rewrite ReadUInt16_ok by assumption
                  | rewrite ReadInt32_ok by assumption
                  | rewrite ReadUInt32_ok by assumption
                  | rewrite ReadInt64_ok by assumption
                  | rewrite ReadUInt64_ok by assumption
                  | rewrite ReadFloat32_ok by assumption
                  | rewrite ReadFloat64_ok by assumption ]; reflexivity).
  all: try (unfold ReadBoolean, ReadInt8, ReadInt16, ReadUInt16, ReadInt32,
              ReadUInt32, ReadInt64, ReadUInt64, ReadFloat32, ReadFloat64, bind;
            unfold SIZEOF_1_BYTE, SIZEOF_2_BYTE, SIZEOF_4_BYTE, SIZEOF_8_BYTE;
            rewrite applyRead_overflow by (assumption || (unfold maxAlloc; lia));
            reflexivity).
  - destruct (ReadInt8_ok b Hwf Hfit) as (x & Hx & Hrun). rewrite Hrun. reflexivity.
  - destruct (ReadInt8_ok b Hwf Hfit) as (x & Hx & Hrun).
    unfold ReadBoolean, bind. rewrite Hrun. reflexivity.
Qed.

(** ** ReadString with a positive length, ReadBytes *)

(** The three runs of [ReadString] on a positive length: the bytes are
    there; they are not, and the call says so; or [offset + length] wraps
    around, both range tests pass, the cursor takes the wrapped value and
    the slice expression panics. *)
Lemma ReadString_positive (b : ByteBuffer) (n : Z) :
  wf b -> 0 < n -> is_int n ->
  (offset b + n <= length b /\
   ReadString n b =
   (with_offset (offset b + n) b,
    Ret (string_of_bytes (window (buf b) (offset b) (Z.to_nat n)), None))) \/
  (length b < offset b + n <= int_max /\
   ReadString n b = (b, Ret (EmptyString, Some ErrorReadOverflow))) \/
  (int_max < offset b + n /\
   ReadString n b = (with_offset (offset b + n - 2 ^ 64) b, Panic)).
Proof.
  intros Hwf Hn Hint. pose proof Hwf as [Hoff Hlen Hbuf Hcap].
  assert (Hstart : ReadString n b =
    (if int_add (offset b) n >? length b
     then ret (EmptyString, Some ErrorReadOverflow)
     else
       letM (off, ok) := applyRead n in
       if negb ok then ret (EmptyString, Some ErrorReadOverflow)
       else letM s := slice off (int_add off n) in
            ret (string_of_bytes s, None)) b).
  { unfold ReadString.
    destruct (Z.eqb_spec n 0); [lia|].
    destruct (Z.leb_spec n 0); [lia|]. reflexivity. }
  rewrite Hstart. clear Hstart.
  unfold is_int, int_min, int_max, maxAlloc in *.
  destruct (Z.le_gt_cases (offset b + n) (2 ^ 63 - 1)) as [Hsmall|Hbig].
  - assert (Hadd : int_add (offset b) n = offset b + n)
      by (apply int_add_small; unfold is_int, int_min, int_max; lia).
    rewrite Hadd.
    destruct (Z.gtb_spec (offset b + n) (length b)).
    + right. left. split; [lia|reflexivity].
    + left. split; [lia|]. unfold bind at 1.
      rewrite applyRead_ok by (assumption || lia).
      cbv beta iota. cbn [negb].
      unfold bind, slice, ret. cbn [buf cap length offset order].
      rewrite Hadd.
      destruct (Z.leb_spec 0 (offset b)); [|lia].
      destruct (Z.leb_spec (offset b) (offset b + n)); [|lia].
      destruct (Z.leb_spec (offset b + n) (len (buf b))); [|lia].
      cbn [andb]. unfold window, with_offset.
      replace (offset b + n - offset b) with n by lia. reflexivity.
  - right. right. split; [lia|].
    assert (Hadd : int_add (offset b) n = offset b + n - 2 ^ 64)
      by (apply int_add_overflow; unfold int_max; lia).
    rewrite Hadd.
    destruct (Z.gtb_spec (offset b + n - 2 ^ 64) (length b)); [lia|].
    unfold bind at 1. rewrite applyRead_eq, Hadd.
    destruct (Z.gtb_spec (offset b + n - 2 ^ 64) (length b)); [lia|].
    cbv beta iota. cbn [negb].
    unfold bind, slice, ret. cbn [buf cap length offset order].
    rewrite Hadd.
    destruct (Z.leb_spec 0 (offset b)); [|lia].
    destruct (Z.leb_spec (offset b) (offset b + n - 2 ^ 64)); [lia|].
    reflexivity.
Qed.

Lemma ReadBytes_cases (b : ByteBuffer) (value : list Z) (n : Z) :
  wf b -> len value <= maxAlloc ->
  (exists p dst k, offset b <= p <= length b /\
     ReadBytes value n b = (with_offset p b, Ret (dst, k, None))) \/
  ReadBytes value n b = (b, Ret (value, 0, Some ErrorReadOverflow)).
Proof.
  intros Hwf Hvalid. pose proof Hwf as [Hoff Hlen Hbuf Hcap].
  pose proof (len_nonneg value) as Hnn.
  assert (Hread : forall m, 0 <= m <= len value ->
    (exists p dst k, offset b <= p <= length b /\
       (letM (off, ok) := applyRead m in
        if negb ok then ret (value, 0, Some ErrorReadOverflow)
        else letM source := slice off (int_add off m) in
             let (value', k) := copy_out value source in
             ret (value', k, None)) b = (with_offset p b, Ret (dst, k, None))) \/
    (letM (off, ok) := applyRead m in
     if negb ok then ret (value, 0, Some ErrorReadOverflow)
     else letM source := slice off (int_add off m) in
          let (value', k) := copy_out value source in
          ret (value', k, None)) b = (b, Ret (value, 0, Some ErrorReadOverflow))).
  { intros m Hm.
    destruct (Z.le_gt_cases (offset b + m) (length b)) as [Hfit|Hover].
    - left. exists (offset b + m). eexists _, _. split; [lia|].
      unfold bind at 1. rewrite applyRead_ok by (assumption || lia).
      cbv beta iota. cbn [negb]. unfold bind, slice, ret.
      cbn [buf cap length offset order].
      rewrite int_add_small by (apply wf_is_int_add; [assumption|lia]).
      destruct (Z.leb_spec 0 (offset b)); [|lia].
      destruct (Z.leb_spec (offset b) (offset b + m)); [|lia].
      destruct (Z.leb_spec (offset b + m) (len (buf b))); [|lia].
      cbn [andb].
      match goal with |- context [copy_out ?v ?src] =>
        rewrite (surjective_pairing (copy_out v src))
      end.
      reflexivity.
    - right. unfold bind at 1.
      rewrite applyRead_overflow by (assumption || lia). reflexivity. }
  unfold ReadBytes.
  destruct (Z.eqb_spec n 0).
  { left. exists (offset b), value, 0. split; [lia|].
    unfold ret, with_offset. now rewrite ByteBuffer_eta. }
  destruct (Z.ltb_spec n 0).
  { apply Hread. lia. }
  destruct (Z.gtb_spec n (len value)).
  { right. reflexivity. }
  apply Hread. lia.
Qed.

(** ** Every method, on a well-formed buffer *)

Lemma wf_with_buf (b : ByteBuffer) (s : list Z) :
  wf b -> len s = len (buf b) -> wf (with_buf s b).
Proof. intros [Hoff Hlen Hbuf Hcap] Hs. split; cbn; lia. Qed.

(** On a well-formed buffer and with arguments a Go caller can pass,
    every method either returns, leaving a well-formed buffer of the same
    capacity, or panics in one of two ways, both an [int] addition
    wrapping around in a range test: [ReadString] with
    [offset + length > MaxInt64], which leaves a negative cursor behind,
    and a position-indexed accessor with [off + size > MaxInt64], which
    leaves the buffer as it was. *)
Lemma exec_cases (b : ByteBuffer) (op : Op) :
  wf b -> valid_op op ->
  (exists b' r, exec op b = (b', Ret r) /\ wf b' /\ cap b' = cap b) \/
  (exists b' n, exec op b = (b', Panic) /\
     ((op = OpReadString n /\ int_max < offset b + n /\ offset b' < 0) \/
      (exists size, accessor_of op = Some (n, size) /\ int_max < n + size /\ b' = b))).
Proof.
  intros Hwf Hvalid. pose proof Hwf as [Hoff Hlen Hbuf Hcap].
  destruct (write_size op) as [n|] eqn:Hw.
  { left. destruct (Z.le_gt_cases (offset b + n) (cap b)) as [Hfit|Hover].
    - destruct (exec_write_fits b op n Hwf Hw Hfit) as (_ & b1 & Hrun & Hwf1 & Hcap1 & _).
      eauto.
    - rewrite (exec_write_overflow b op n) by (assumption || lia). eauto. }
  destruct (read_size op) as [n|] eqn:Hr.
  { left. destruct (exec_read_cases b op n Hwf Hr) as [[Hfit Hrun]|[Hover Hrun]];
      rewrite Hrun; [|eauto].
    assert (0 <= n).
    { destruct op; try discriminate Hr; cbn [read_size] in Hr; injection Hr as <-;
        unfold SIZEOF_1_BYTE, SIZEOF_2_BYTE, SIZEOF_4_BYTE, SIZEOF_8_BYTE; lia. }
    do 2 eexists. split; [reflexivity|]. split; [apply wf_with_offset; [assumption|lia]|reflexivity]. }
  destruct (accessor_of op) as [[off size]|] eqn:Ha.
  { assert (Hint : is_int off).
    { destruct op; try discriminate Ha; cbn [accessor_of valid_op] in *;
        injection Ha as -> _; assumption. }
    destruct (exec_accessor_cases b op off size Hwf Hint Ha)
      as [(Hlo & Hhi & s & Hs & Hrun)|[(Hout & Hsmall & Hrun)|(Hbig & Hrun)]];
      rewrite Hrun.
    - left. do 2 eexists. split; [reflexivity|].
      split; [now apply wf_with_buf|reflexivity].
    - left. eauto.
    - right. exists b, off. split; [reflexivity|]. right. exists size.
      repeat split; lia. }
  destruct op; try discriminate Hw; try discriminate Hr; try discriminate Ha;
    cbn [exec valid_op] in *.
  - (* Length *) left. exists b, None. auto.
  - (* Cap *) left. exists b, None. auto.
  - (* Position *) left. exists b, None. auto.
  - (* SetPosition *)
    left. destruct (Z.le_gt_cases 0 asbOffset) as [Hlo|Hneg];
      [destruct (Z.le_gt_cases asbOffset (length b)) as [Hhi|Hbig]|].
    + rewrite SetPosition_ok by lia. do 2 eexists.
      split; [reflexivity|]. split; [apply wf_with_offset; [assumption|lia]|reflexivity].
    + exists b, (Some ErrorPositionOverflow). split; [|auto].
      unfold SetPosition, bind, get, ret.
      destruct (Z.ltb_spec asbOffset 0); [reflexivity|].
      destruct (Z.gtb_spec asbOffset (length b)); [reflexivity|lia].
    + exists b, (Some ErrorPositionOverflow). split; [|auto].
      unfold SetPosition, bind, get, ret.
      destruct (Z.ltb_spec asbOffset 0); [reflexivity|lia].
  - (* Reset *)
    left. do 2 eexists. split; [reflexivity|]. split; [|reflexivity].
    split; cbn; lia.
  - (* SetOrder *)
    left. do 2 eexists. split; [reflexivity|]. split; [|reflexivity].
    split; cbn; lia.
  - (* Buffer *) left. exists b, None. auto.
  - (* Data *)
    left. exists b, None. split; [|auto].
    unfold no_err, Data, bind, get, slice, ret.
    destruct (Z.leb_spec 0 0); [|lia].
    destruct (Z.leb_spec 0 (length b)); [|lia].
    destruct (Z.leb_spec (length b) (len (buf b))); [|lia].
    reflexivity.
  - (* ReadString *)
    destruct (Z.lt_trichotomy length0 0) as [Hneg|[->|Hpos]].
    + left.
      destruct (scan_zero_spec b (Z.to_nat (length b - offset b)) (offset b))
        as (e & Hscan & He & _ & _); try lia.
      unfold err_of, bind.
      rewrite (ReadString_scan b length0 e) by (assumption || lia).
      do 2 eexists.
      split; [reflexivity|]. split; [|reflexivity].
      apply (wf_with_offset b e Hwf). lia.
    + left. exists b, None. auto.
    + destruct (ReadString_positive b length0 Hwf Hpos Hvalid)
        as [[Hfit Hrun]|[[Hover Hrun]|[Hbig Hrun]]];
        unfold err_of, bind; rewrite Hrun.
      * left. do 2 eexists. split; [reflexivity|]. split; [|reflexivity].
        apply wf_with_offset; [assumption|lia].
      * left. eauto.
      * right. do 2 eexists. split; [reflexivity|]. left.
        split; [reflexivity|]. split; [assumption|].
        cbn. unfold is_int, int_max, maxAlloc in *. lia.
  - (* ReadBytes *)
    left. destruct Hvalid as [Hvalue Hint].
    destruct (ReadBytes_cases b value0 length0 Hwf Hvalue)
      as [(p & dst & k & Hp & Hrun)|Hrun];
      unfold err_of, bind; rewrite Hrun.
    + do 2 eexists. split; [reflexivity|]. split; [|reflexivity].
      apply wf_with_offset; [assumption|lia].
    + eauto.
Qed.

(** Methods that return keep the buffer well formed and its capacity
    fixed. *)
Lemma exec_returns_wf (b b' : ByteBuffer) (op : Op) (r : error) :
  wf b -> valid_op op -> exec op b = (b', Ret r) -> wf b' /\ cap b' = cap b.
Proof.
  intros Hwf Hvalid Hrun.
  destruct (exec_cases b op Hwf Hvalid)
    as [(b1 & r1 & Hrun1 & Hwf1 & Hcap1)|(b1 & n & Hrun1 & _)];
    rewrite Hrun in Hrun1; [|discriminate].
  injection Hrun1 as <- _. auto.
Qed.

(** ** The overflow in ReadString's range test *)

(** C8. The invariant [0 <= offset <= length <= cap] does not survive
    every call: on the one-byte buffer left by [NewByteBuffer(1, _)] and
    [WriteInt8(7)], [ReadString(math.MaxInt64)] computes
    [offset + length = 1 + MaxInt64], which wraps to [MinInt64]; both range
    tests pass, [applyRead] stores [MinInt64] in the cursor, and the slice
    expression panics, leaving a negative cursor behind. *)
Theorem ReadString_MaxInt64_corrupts_cursor :
  exists b0,
    NewByteBuffer 1 LittleEndian = Ret b0 /\
    WriteInt8 7 b0 = (buf7, Ret None) /\
    wf buf7 /\ valid_op (OpReadString MaxInt64) /\
    ReadString MaxInt64 buf7 =
      (mkByteBuffer 1 [7] 1 (-9223372036854775808) LittleEndian, Panic) /\
    offset (fst (ReadString MaxInt64 buf7)) < 0 /\
    ~ wf (fst (ReadString MaxInt64 buf7)).
Proof.
  exists (mkByteBuffer 1 [0] 0 0 LittleEndian).
  split; [vm_compute; reflexivity|].
  split; [vm_compute; reflexivity|].
  split; [exact buf7_wf|].
  split; [vm_compute; split; discriminate|].
  split; [vm_compute; reflexivity|].
  split; [vm_compute; reflexivity|].
  intros [Hoff _ _ _]. vm_compute in Hoff. destruct Hoff as [Hoff _]. now apply Hoff.
Qed.

(** ** The end-to-end scenario of the specification *)

Example end_to_end_scenario :
  exists b0,
    NewByteBuffer 32 LittleEndian = Ret b0 /\
    (letM e1 := WriteInt8 100 in
     letM e2 := WriteInt16 32767 in
     letM e3 := WriteInt32 25 in
     letM e4 := SetPosition 0 in
     letM r1 := ReadInt8 in
     letM r2 := ReadInt16 in
     letM r3 := ReadInt32 in
     letM p := Position in
     ret ([e1; e2; e3; e4], [r1; r2; r3], p)) b0 =
    (mkByteBuffer 32
       ([100; 255; 127; 25; 0; 0; 0] ++ replicate 25 0) 7 7 LittleEndian,
     Ret ([None; None; None; None], [(100, None); (32767, None); (25, None)], 7)).
Proof.
  exists (mkByteBuffer 32 (replicate 32 0) 0 0 LittleEndian).
  split; vm_compute; reflexivity.
Qed.

(** * Further properties of the package *)

(** ** Stores as splices *)

Lemma index_put_bytes_after (bs s : list Z) (low j : Z) :
  0 <= low -> low + len bs <= j -> index (put_bytes s low bs) j = index s j.
Proof.
  revert s low. induction bs as [|x bs IH]; intros s low Hlow Hj; simpl;
    [reflexivity|].
  unfold len in Hj. simpl in Hj.
  rewrite IH by (unfold len; lia). apply index_insert_ne; lia.
Qed.

Lemma index_of_nat (s : list Z) (k : nat) : index s (Z.of_nat k) = s !! k.
Proof.
  unfold index. destruct (Z.ltb_spec (Z.of_nat k) 0); [lia|].
  now rewrite Nat2Z.id.
Qed.

(** Storing [bs] byte by byte from [low] is splicing [bs] into the slice. *)
Lemma put_bytes_splice (bs s : list Z) (low : Z) :
  0 <= low -> low + len bs <= len s ->
  put_bytes s low bs =
  take (Z.to_nat low) s ++ bs ++ drop (Z.to_nat (low + len bs)) s.
Proof.
  intros Hlow Hfit. unfold len in Hfit. apply list_eq. intros k.
  rewrite <- index_of_nat.
  destruct (Nat.lt_ge_cases k (Z.to_nat low)) as [Hbefore|Hge].
  - rewrite index_put_bytes_before by lia. rewrite index_of_nat.
    rewrite lookup_app_l by (rewrite length_take; lia).
    now rewrite lookup_take_lt.
  - rewrite lookup_app_r by (rewrite length_take; lia).
    rewrite length_take, Nat.min_l by lia.
    destruct (Nat.lt_ge_cases (k - Z.to_nat low) (List.length bs)) as [Hin|Hafter].
    + rewrite lookup_app_l by assumption.
      replace (Z.of_nat k) with (low + Z.of_nat (k - Z.to_nat low)) by lia.
      apply index_put_bytes; unfold len; lia.
    + rewrite lookup_app_r by assumption.
      rewrite index_put_bytes_after by (unfold len; lia).
      rewrite index_of_nat, lookup_drop. f_equal. unfold len. lia.
Qed.

Lemma WriteBytes_written (value : list Z) (b : ByteBuffer) :
  wf b -> offset b + len value <= cap b ->
  WriteBytes value b = (written b (len value) value, Ret (len value, None)).
Proof.
  intros Hwf Hfit. pose proof Hwf as [Hoff Hlen Hbuf Hcap].
  pose proof (len_nonneg value) as Hv.
  unfold WriteBytes, bind. rewrite applyWrite_ok by assumption.
  cbv beta iota. cbn [negb]. unfold copy_in, bind, slice_from, get, set_buf, ret.
  cbn [buf cap length offset order].
  destruct (Z.leb_spec 0 (offset b)); [|lia].
  destruct (Z.leb_spec (offset b) (len (buf b))); [|lia].
  cbn [andb buf cap length offset order]. rewrite Z.min_r by lia.
  unfold len at 1. rewrite Nat2Z.id, firstn_all.
  unfold written. rewrite put_bytes_splice by lia. reflexivity.
Qed.

(** Windows that do not meet the bytes stored are left as they were. *)
Lemma window_put_bytes_disjoint (bs s : list Z) (low p : Z) (n : nat) :
  0 <= low -> 0 <= p ->
  p + Z.of_nat n <= low \/ low + len bs <= p ->
  window (put_bytes s low bs) p n = window s p n.
Proof.
  intros Hlow Hp Hdisj. apply list_eq. intros k.
  destruct (Nat.lt_ge_cases k n) as [Hk|Hk].
  - rewrite <- !(index_window _ p n k) by assumption.
    destruct Hdisj as [Hbefore|Hafter].
    + apply index_put_bytes_before; lia.
    + apply index_put_bytes_after; lia.
  - unfold window. rewrite !lookup_take_ge by assumption. reflexivity.
Qed.

(** ** The wire format of a typed write *)

Lemma Write_written (v : value) (b : ByteBuffer) :
  wf b -> offset b + sizeof (typeof v) <= cap b ->
  Write v b =
  (written b (sizeof (typeof v)) (value_bytes (order b) v), Ret None).
Proof.
  intros Hwf Hfit.
  destruct v; cbn [typeof sizeof Write value_bytes unsigned_repr] in *;
    unfold SIZEOF_1_BYTE, SIZEOF_2_BYTE, SIZEOF_4_BYTE, SIZEOF_8_BYTE in *;
    first [ now apply WriteInt8_ok | now apply WriteBoolean_ok
          | now apply WriteInt16_ok | now apply WriteUInt16_ok
          | now apply WriteInt32_ok | now apply WriteUInt32_ok
          | now apply WriteInt64_ok | now apply WriteUInt64_ok
          | now apply WriteFloat32_ok | now apply WriteFloat64_ok ].
Qed.

Lemma length_value_bytes (o : ByteOrder) (v : value) :
  len (value_bytes o v) = sizeof (typeof v).
Proof. destruct v, o; reflexivity. Qed.

Lemma bytes_of_uint16_digits (o : ByteOrder) (v : Z) :
  bytes_of_uint16 o v =
  match o with
  | LittleEndian => le_digits 2 v
  | BigEndian => List.rev (le_digits 2 v)
  end.
Proof.
  destruct o; cbn [bytes_of_uint16 le_digits List.rev app];
    bytes_as_quotients v; reflexivity.
Qed.

Lemma bytes_of_uint32_digits (o : ByteOrder) (v : Z) :
  bytes_of_uint32 o v =
  match o with
  | LittleEndian => le_digits 4 v
  | BigEndian => List.rev (le_digits 4 v)
  end.
Proof.
  destruct o; cbn [bytes_of_uint32 le_digits List.rev app];
    bytes_as_quotients v; reflexivity.
Qed.

Lemma bytes_of_uint64_digits (o : ByteOrder) (v : Z) :
  bytes_of_uint64 o v =
  match o with
  | LittleEndian => le_digits 8 v
  | BigEndian => List.rev (le_digits 8 v)
  end.
Proof.
  destruct o; cbn [bytes_of_uint64 le_digits List.rev app];
    bytes_as_quotients v; reflexivity.
Qed.

(** X1. A typed write that fits returns no error and leaves, in the
    backing bytes from the old cursor on, the base-256 digits of the
    value's unsigned representation: least significant first under
    [LittleEndian], most significant first under [BigEndian]. *)
Theorem typed_write_wire_format (b : ByteBuffer) (v : value) :
  wf b -> in_type v -> offset b + sizeof (typeof v) <= cap b ->
  exists b',
    Write v b = (b', Ret None) /\
    window (buf b') (offset b) (Z.to_nat (sizeof (typeof v))) =
    match order b with
    | LittleEndian => le_digits (Z.to_nat (sizeof (typeof v))) (unsigned_repr v)
    | BigEndian => List.rev (le_digits (Z.to_nat (sizeof (typeof v))) (unsigned_repr v))
    end.
Proof.
  intros Hwf Hty Hfit. eexists. split; [now apply Write_written|].
  pose proof (length_value_bytes (order b) v) as Hlen.
  pose proof Hwf as [Hoff Hl Hbuf Hcap].
  assert (Hwin : window (buf (written b (sizeof (typeof v)) (value_bytes (order b) v)))
                   (offset b) (Z.to_nat (sizeof (typeof v))) = value_bytes (order b) v).
  { cbn [written buf].
    replace (Z.to_nat (sizeof (typeof v))) with (List.length (value_bytes (order b) v))
      by (unfold len in Hlen; lia).
    apply window_put_bytes; lia. }
  rewrite Hwin.
  destruct v; cbn [value_bytes typeof sizeof unsigned_repr in_type] in *;
    unfold SIZEOF_1_BYTE, SIZEOF_2_BYTE, SIZEOF_4_BYTE, SIZEOF_8_BYTE;
    first [ apply bytes_of_uint16_digits | apply bytes_of_uint32_digits
          | apply bytes_of_uint64_digits | idtac ].
  - unfold is_byte in Hty. change (Z.to_nat 1) with 1%nat. cbn [le_digits].
    rewrite Z.mod_small by lia. now destruct (order b).
  - destruct v, (order b); reflexivity.
Qed.

Lemma typed_write_wire_format_witness :
  exists b',
    Write (VUInt32 305419896) bufAB = (b', Ret None) /\
    window (buf b') 0 4 = [120; 86; 52; 18].
Proof.
  apply (typed_write_wire_format bufAB (VUInt32 305419896)).
  - split; simpl; unfold maxAlloc, len; simpl; lia.
  - simpl. unfold is_uint. simpl. lia.
  - simpl. unfold SIZEOF_4_BYTE. lia.
Defined.

Example big_endian_layout :
  fst (WriteUInt32 305419896 (mkByteBuffer 4 [0; 0; 0; 0] 0 0 BigEndian)) =
  mkByteBuffer 4 [18; 52; 86; 120] 4 4 BigEndian.
Proof. vm_compute. reflexivity. Qed.

(** ** What the helpers leave alone, whatever their outcome *)

Lemma same_frame_refl (b : ByteBuffer) : same_frame b b.
Proof. unfold same_frame. auto. Qed.

Lemma order_PutUint16_frame (o : ByteOrder) (low v : Z) (b b' : ByteBuffer) (r : result unit) :
  order_PutUint16 o low v b = (b', r) -> same_frame b b'.
Proof.
  destruct (Z_le_dec 0 low) as [Hlo|Hlo];
    [destruct (Z_le_dec (low + 2) (len (buf b))) as [Hhi|Hhi]|].
  - rewrite order_PutUint16_ok by assumption. intros [= <- _].
    unfold same_frame. cbn. now rewrite len_put_bytes.
  - rewrite order_PutUint16_panic by lia. intros [= <- _]. apply same_frame_refl.
  - rewrite order_PutUint16_panic by lia. intros [= <- _]. apply same_frame_refl.
Qed.

Lemma order_PutUint32_frame (o : ByteOrder) (low v : Z) (b b' : ByteBuffer) (r : result unit) :
  order_PutUint32 o low v b = (b', r) -> same_frame b b'.
Proof.
  destruct (Z_le_dec 0 low) as [Hlo|Hlo];
    [destruct (Z_le_dec (low + 4) (len (buf b))) as [Hhi|Hhi]|].
  - rewrite order_PutUint32_ok by assumption. intros [= <- _].
    unfold same_frame. cbn. now rewrite len_put_bytes.
  - rewrite order_PutUint32_panic by lia. intros [= <- _]. apply same_frame_refl.
  - rewrite order_PutUint32_panic by lia. intros [= <- _]. apply same_frame_refl.
Qed.

Lemma order_PutUint64_frame (o : ByteOrder) (low v : Z) (b b' : ByteBuffer) (r : result unit) :
  order_PutUint64 o low v b = (b', r) -> same_frame b b'.
Proof.
  destruct (Z_le_dec 0 low) as [Hlo|Hlo];
    [destruct (Z_le_dec (low + 8) (len (buf b))) as [Hhi|Hhi]|].
  - rewrite order_PutUint64_ok by assumption. intros [= <- _].
    unfold same_frame. cbn. now rewrite len_put_bytes.
  - rewrite order_PutUint64_panic by lia. intros [= <- _]. apply same_frame_refl.
  - rewrite order_PutUint64_panic by lia. intros [= <- _]. apply same_frame_refl.
Qed.

Lemma order_Uint16_state (o : ByteOrder) (low : Z) (b b' : ByteBuffer) (r : result Z) :
  order_Uint16 o low b = (b', r) -> b' = b.
Proof.
  destruct (Z_le_dec 0 low) as [Hlo|Hlo];
    [destruct (Z_le_dec (low + 2) (len (buf b))) as [Hhi|Hhi]|].
  - rewrite order_Uint16_ok by assumption. now intros [= <- _].
  - rewrite order_Uint16_panic by lia. now intros [= <- _].
  - rewrite order_Uint16_panic by lia. now intros [= <- _].
Qed.

Lemma order_Uint32_state (o : ByteOrder) (low : Z) (b b' : ByteBuffer) (r : result Z) :
  order_Uint32 o low b = (b', r) -> b' = b.
Proof.
  destruct (Z_le_dec 0 low) as [Hlo|Hlo];
    [destruct (Z_le_dec (low + 4) (len (buf b))) as [Hhi|Hhi]|].
  - rewrite order_Uint32_ok by assumption. now intros [= <- _].
  - rewrite order_Uint32_panic by lia. now intros [= <- _].
  - rewrite order_Uint32_panic by lia. now intros [= <- _].
Qed.

Lemma order_Uint64_state (o : ByteOrder) (low : Z) (b b' : ByteBuffer) (r : result Z) :
  order_Uint64 o low b = (b', r) -> b' = b.
Proof.
  destruct (Z_le_dec 0 low) as [Hlo|Hlo];
    [destruct (Z_le_dec (low + 8) (len (buf b))) as [Hhi|Hhi]|].
  - rewrite order_Uint64_ok by assumption. now intros [= <- _].
  - rewrite order_Uint64_panic by lia. now intros [= <- _].
  - rewrite order_Uint64_panic by lia. now intros [= <- _].
Qed.

Lemma load_state (i : Z) (b b' : ByteBuffer) (r : result Z) :
  load i b = (b', r) -> b' = b.
Proof. unfold load. destruct (index (buf b) i); now intros [= <- _]. Qed.

Lemma slice_state (low high : Z) (b b' : ByteBuffer) (r : result (list Z)) :
  slice low high b = (b', r) -> b' = b.
Proof.
  unfold slice.
  destruct ((0 <=? low) && (low <=? high) && (high <=? len (buf b)));
    now intros [= <- _].
Qed.

Lemma store_frame (i v : Z) (b b' : ByteBuffer) (r : result unit) :
  store i v b = (b', r) -> same_frame b b'.
Proof.
  unfold store, set_buf.
  destruct ((0 <=? i) && (i <? len (buf b))); intros [= <- _].
  - unfold same_frame. cbn. now rewrite len_insert.
  - apply same_frame_refl.
Qed.

Lemma scan_zero_state (n : nat) :
  forall (i e : Z) (b b' : ByteBuffer) (r : result Z),
    scan_zero n i e b = (b', r) -> b' = b.
Proof.
  induction n as [|n IH]; intros i e b b' r; simpl.
  - now intros [= <- _].
  - unfold bind. destruct (load i b) as [b1 [x|]] eqn:Hload;
      apply load_state in Hload; subst b1.
    + destruct (x =? 0); [now intros [= <- _]|]. apply IH.
    + now intros [= <- _].
Qed.

Lemma copy_in_frame (low : Z) (src : list Z) (b b' : ByteBuffer) (r : result Z) :
  copy_in low src b = (b', r) -> same_frame b b'.
Proof.
  unfold copy_in, bind, slice_from, get, set_buf, ret.
  destruct (Z.leb_spec 0 low); cbn [andb];
    [destruct (Z.leb_spec low (len (buf b)))|]; intros [= <- _];
    try apply same_frame_refl.
  unfold same_frame. cbn [cap buf length offset order].
  repeat split. pose proof (len_nonneg src).
  unfold len in *. rewrite !length_app, !length_take, length_drop. lia.
Qed.

(** Turn the recorded runs of the helpers into what they leave alone. *)
Ltac frames :=
  repeat match goal with
  | H : order_PutUint16 _ _ _ _ = _ |- _ => apply order_PutUint16_frame in H
  | H : order_PutUint32 _ _ _ _ = _ |- _ => apply order_PutUint32_frame in H
  | H : order_PutUint64 _ _ _ _ = _ |- _ => apply order_PutUint64_frame in H
  | H : order_Uint16 _ _ _ = _ |- _ => apply order_Uint16_state in H
  | H : order_Uint32 _ _ _ = _ |- _ => apply order_Uint32_state in H
  | H : order_Uint64 _ _ _ = _ |- _ => apply order_Uint64_state in H
  | H : load _ _ = _ |- _ => apply load_state in H
  | H : slice _ _ _ = _ |- _ => apply slice_state in H
  | H : store _ _ _ = _ |- _ => apply store_frame in H
  | H : scan_zero _ _ _ _ = _ |- _ => apply scan_zero_state in H
  | H : copy_in _ _ _ = _ |- _ => apply copy_in_frame in H
  end;
  unfold same_frame in *; cbn [cap buf length offset order] in *.

Ltac cases_of_run H :=
  unfold_api H;
  repeat (cbv beta iota in *; cbn [fst snd negb] in *;
          rewrite ?applyWrite_eq, ?applyRead_eq in *;
          match goal with
          | Hq : context [match ?x with _ => _ end] |- _ => destruct x eqn:?
          end);
  cbv beta iota in *; cbn [fst snd negb] in *;
  simplify_eq; frames; simplify_eq; cbn [cap buf length offset order] in *.

(** X2. Whatever the method, the arguments, the state and the outcome
    (return, returned error or panic): the capacity and the length of the
    backing slice are what they were, and the valid length has not
    decreased unless the method is [Reset]. *)
Theorem capacity_fixed_length_monotone
    (op : Op) (b b' : ByteBuffer) (r : result error) :
  exec op b = (b', r) ->
  cap b' = cap b /\ len (buf b') = len (buf b) /\
  (op <> OpReset -> length b <= length b').
Proof.
  intros H. destruct op; cases_of_run H;
    repeat split; try congruence; try lia; intuition (try congruence; try lia).
Qed.

Lemma capacity_fixed_length_monotone_witness :
  cap (fst (exec (OpWriteInt16 7) bufAB)) = cap bufAB /\
  len (buf (fst (exec (OpWriteInt16 7) bufAB))) = len (buf bufAB) /\
  (OpWriteInt16 7 <> OpReset ->
   length bufAB <= length (fst (exec (OpWriteInt16 7) bufAB))).
Proof.
  apply (capacity_fixed_length_monotone (OpWriteInt16 7) bufAB _
           (snd (exec (OpWriteInt16 7) bufAB))).
  vm_compute. reflexivity.
Defined.



(** ** A write touches only its own bytes *)

Lemma exec_write_written (b : ByteBuffer) (op : Op) (n : Z) :
  wf b -> write_size op = Some n -> offset b + n <= cap b ->
  exists bs, len bs = n /\ exec op b = (written b n bs, Ret None).
Proof.
  intros Hwf Hsize Hfit.
  destruct op; try discriminate Hsize; cbn [write_size] in Hsize;
    injection Hsize as <-; cbn [exec];
    unfold SIZEOF_1_BYTE, SIZEOF_2_BYTE, SIZEOF_4_BYTE, SIZEOF_8_BYTE in *.
  - eexists. split; [|now apply WriteInt8_ok]. reflexivity.
  - eexists. split; [|now apply WriteBoolean_ok]. reflexivity.
  - eexists. split; [reflexivity|].
    unfold err_of, WriteString, bind. now rewrite WriteBytes_written.
  - eexists. split; [reflexivity|].
    unfold err_of, bind. now rewrite WriteBytes_written.
  - eexists. split; [|now apply WriteInt16_ok]. apply length_value_bytes with (v := VInt16 v).
  - eexists. split; [|now apply WriteUInt16_ok]. apply length_value_bytes with (v := VUInt16 v).
  - eexists. split; [|now apply WriteInt32_ok]. apply length_value_bytes with (v := VInt32 v).
  - eexists. split; [|now apply WriteUInt32_ok]. apply length_value_bytes with (v := VUInt32 v).
  - eexists. split; [|now apply WriteInt64_ok]. apply length_value_bytes with (v := VInt64 v).
  - eexists. split; [|now apply WriteUInt64_ok]. apply length_value_bytes with (v := VUInt64 v).
  - eexists. split; [|now apply WriteFloat32_ok]. apply length_value_bytes with (v := VFloat32 f).
  - eexists. split; [|now apply WriteFloat64_ok]. apply length_value_bytes with (v := VFloat64 f).
Qed.

(** X4. A write that fits, of any of the twelve write methods, changes no
    byte of the backing slice outside the [n] bytes from the old cursor,
    moves the cursor to just past them, raises the valid length to the new
    cursor if it was below (and never lowers it), and keeps the byte
    order. *)
Theorem write_touches_only_its_window (b : ByteBuffer) (op : Op) (n : Z) :
  wf b -> write_size op = Some n -> offset b + n <= cap b ->
  exists b',
    exec op b = (b', Ret None) /\
    (forall j, j < offset b \/ offset b + n <= j ->
               index (buf b') j = index (buf b) j) /\
    offset b' = offset b + n /\
    length b' = Z.max (length b) (offset b + n) /\
    order b' = order b.
Proof.
  intros Hwf Hsize Hfit.
  destruct (exec_write_written b op n Hwf Hsize Hfit) as (bs & Hbs & Hrun).
  exists (written b n bs). split; [exact Hrun|].
  split; [|repeat split].
  intros j [Hbefore|Hafter]; cbn [written buf].
  - apply index_put_bytes_before; [destruct Hwf|]; lia.
  - apply index_put_bytes_after; [destruct Hwf|]; lia.
Qed.

Lemma write_touches_only_its_window_witness :
  exists b',
    exec (OpWriteInt16 (-2)) (mkByteBuffer 8 [65; 66; 0; 67; 0; 0; 0; 0] 4 1 BigEndian)
      = (b', Ret None) /\
    (forall j, j < 1 \/ 1 + 2 <= j ->
               index (buf b') j = index [65; 66; 0; 67; 0; 0; 0; 0] j) /\
    offset b' = 1 + 2 /\
    length b' = Z.max 4 (1 + 2) /\
    order b' = BigEndian.
Proof.
  apply (write_touches_only_its_window
           (mkByteBuffer 8 [65; 66; 0; 67; 0; 0; 0; 0] 4 1 BigEndian)
           (OpWriteInt16 (-2)) 2).
  - split; simpl; unfold maxAlloc, len; simpl; lia.
  - reflexivity.
  - simpl. lia.
Defined.

(** ** The position-indexed accessors, by width *)

Lemma length_bytes_of_uint (w : width) (o : ByteOrder) (v : Z) :
  len (bytes_of_uint w o v) = width_bytes w.
Proof. destruct w, o; reflexivity. Qed.

Lemma uint_roundtrip (w : width) (o : ByteOrder) (v : Z) :
  is_uint (width_bits w) v -> uint_of_bytes w o (bytes_of_uint w o v) = v.
Proof.
  destruct w; cbn [width_bits uint_of_bytes bytes_of_uint].
  - apply uint16_roundtrip.
  - apply uint32_roundtrip.
  - apply uint64_roundtrip.
Qed.

Lemma accessor_test_passes (b : ByteBuffer) (off size : Z) :
  wf b -> 0 <= off -> 0 <= size -> off + size <= length b ->
  (off <? 0) || (int_add off size >? length b) = false.
Proof.
  intros [Hoff Hlen Hbuf Hcap] Hlo Hsize Hhi.
  rewrite int_add_small
    by (unfold is_int, int_min, int_max, maxAlloc in *; lia).
  destruct (Z.ltb_spec off 0); [lia|].
  destruct (Z.gtb_spec (off + size) (length b)); [lia|reflexivity].
Qed.

Lemma PutUInt_in_range (w : width) (off v : Z) (b : ByteBuffer) :
  wf b -> 0 <= off -> off + width_bytes w <= length b ->
  PutUInt w off v b =
  (with_buf (put_bytes (buf b) off (bytes_of_uint w (order b) v)) b, Ret None).
Proof.
  intros Hwf Hlo Hhi. pose proof Hwf as [Hoff Hlen Hbuf Hcap].
  destruct w; cbn [PutUInt width_bytes bytes_of_uint] in *;
    unfold PutUInt16, PutUInt32, PutUInt64, bind, get; cbv beta iota;
    rewrite accessor_test_passes
      by (assumption || (unfold SIZEOF_2_BYTE, SIZEOF_4_BYTE, SIZEOF_8_BYTE in *; lia));
    unfold SIZEOF_2_BYTE, SIZEOF_4_BYTE, SIZEOF_8_BYTE in *.
  - rewrite order_PutUint16_ok by lia. reflexivity.
  - rewrite order_PutUint32_ok by lia. reflexivity.
  - rewrite order_PutUint64_ok by lia. reflexivity.
Qed.

Lemma GetUInt_in_range (w : width) (off : Z) (b : ByteBuffer) :
  wf b -> 0 <= off -> off + width_bytes w <= length b ->
  GetUInt w off b =
  (b, Ret (uint_of_bytes w (order b)
             (window (buf b) off (Z.to_nat (width_bytes w))), None)).
Proof.
  intros Hwf Hlo Hhi. pose proof Hwf as [Hoff Hlen Hbuf Hcap].
  destruct w; cbn [GetUInt width_bytes uint_of_bytes] in *;
    unfold GetUInt16, GetUInt32, GetUInt64, bind, get; cbv beta iota;
    rewrite accessor_test_passes
      by (assumption || (unfold SIZEOF_2_BYTE, SIZEOF_4_BYTE, SIZEOF_8_BYTE in *; lia));
    unfold SIZEOF_2_BYTE, SIZEOF_4_BYTE, SIZEOF_8_BYTE in *.
  - rewrite order_Uint16_ok by lia. reflexivity.
  - rewrite order_Uint32_ok by lia. reflexivity.
  - rewrite order_Uint64_ok by lia. reflexivity.
Qed.

Lemma wf_put (b : ByteBuffer) (off : Z) (bs : list Z) :
  wf b -> wf (with_buf (put_bytes (buf b) off bs) b).
Proof. intros Hwf. apply wf_with_buf; [assumption|apply len_put_bytes]. Qed.

(** X5. On a well-formed buffer, [PutUIntN] at an offset whose [N/8] bytes
    lie in the valid data returns no error, and [GetUIntN] at the same
    offset then returns the value put, under either byte order; the
    cursor, the valid length and every byte outside those [N/8] are as
    before the put. *)
Theorem put_get_roundtrip (w : width) (b : ByteBuffer) (off v : Z) :
  wf b -> is_uint (width_bits w) v ->
  0 <= off -> off + width_bytes w <= length b ->
  exists b',
    PutUInt w off v b = (b', Ret None) /\
    GetUInt w off b' = (b', Ret (v, None)) /\
    offset b' = offset b /\ length b' = length b /\
    (forall j, j < off \/ off + width_bytes w <= j ->
               index (buf b') j = index (buf b) j).
Proof.
  intros Hwf Hv Hlo Hhi. pose proof Hwf as [Hoff Hlen Hbuf Hcap].
  pose proof (length_bytes_of_uint w (order b) v) as Hbs.
  exists (with_buf (put_bytes (buf b) off (bytes_of_uint w (order b) v)) b).
  split; [now apply PutUInt_in_range|].
  split; [|split; [reflexivity|split; [reflexivity|]]].
  - rewrite GetUInt_in_range by (try apply wf_put; assumption).
    cbn [with_buf buf order].
    replace (Z.to_nat (width_bytes w))
      with (List.length (bytes_of_uint w (order b) v)) by (unfold len in Hbs; lia).
    rewrite window_put_bytes by lia.
    now rewrite uint_roundtrip.
  - intros j [Hbefore|Hafter]; cbn [with_buf buf].
    + apply index_put_bytes_before; lia.
    + apply index_put_bytes_after; lia.
Qed.

Lemma put_get_roundtrip_witness :
  exists b',
    PutUInt W16 1 513 bufAB = (b', Ret None) /\
    GetUInt W16 1 b' = (b', Ret (513, None)) /\
    offset b' = offset bufAB /\ length b' = length bufAB /\
    (forall j, j < 1 \/ 1 + width_bytes W16 <= j ->
               index (buf b') j = index (buf bufAB) j).
Proof.
  apply (put_get_roundtrip W16 bufAB 1 513).
  - split; simpl; unfold maxAlloc, len; simpl; lia.
  - unfold is_uint. simpl. lia.
  - lia.
  - simpl. unfold SIZEOF_2_BYTE. lia.
Defined.

Lemma ReadUInt_fits (w : width) (b : ByteBuffer) :
  wf b -> offset b + width_bytes w <= length b ->
  ReadUInt w b =
  (with_offset (offset b + width_bytes w) b,
   Ret (uint_of_bytes w (order b)
          (window (buf b) (offset b) (Z.to_nat (width_bytes w))), None)).
Proof.
  intros Hwf Hfit.
  destruct w; cbn [ReadUInt width_bytes uint_of_bytes] in *;
    unfold SIZEOF_2_BYTE, SIZEOF_4_BYTE, SIZEOF_8_BYTE in *.
  - now apply ReadUInt16_ok.
  - now apply ReadUInt32_ok.
  - now apply ReadUInt64_ok.
Qed.

Lemma WriteUInt_fits (w : width) (v : Z) (b : ByteBuffer) :
  wf b -> offset b + width_bytes w <= cap b ->
  WriteUInt w v b =
  (written b (width_bytes w) (bytes_of_uint w (order b) v), Ret None).
Proof.
  intros Hwf Hfit.
  destruct w; cbn [WriteUInt width_bytes bytes_of_uint] in *;
    unfold SIZEOF_2_BYTE, SIZEOF_4_BYTE, SIZEOF_8_BYTE in *.
  - now apply WriteUInt16_ok.
  - now apply WriteUInt32_ok.
  - now apply WriteUInt64_ok.
Qed.

(** X6. [GetUIntN] at the cursor is a peek: when [N/8] bytes of valid data
    remain, it returns the value [ReadUIntN] returns, and leaves the
    buffer as it was, where the read advances the cursor by [N/8]. *)
Theorem get_at_cursor_is_peek (w : width) (b : ByteBuffer) :
  wf b -> offset b + width_bytes w <= length b ->
  exists v,
    ReadUInt w b = (with_offset (offset b + width_bytes w) b, Ret (v, None)) /\
    GetUInt w (offset b) b = (b, Ret (v, None)).
Proof.
  intros Hwf Hfit. eexists. split.
  - now apply ReadUInt_fits.
  - apply GetUInt_in_range; [assumption|destruct Hwf; lia|assumption].
Qed.

Lemma get_at_cursor_is_peek_witness :
  exists v,
    ReadUInt W32 bufAB = (with_offset (0 + width_bytes W32) bufAB, Ret (v, None)) /\
    GetUInt W32 0 bufAB = (bufAB, Ret (v, None)).
Proof.
  apply (get_at_cursor_is_peek W32 bufAB).
  - split; simpl; unfold maxAlloc, len; simpl; lia.
  - simpl. unfold SIZEOF_4_BYTE. lia.
Defined.

(** X7. [PutUIntN] inside the valid data is a poke: it returns the error
    and leaves the buffer that seeking to the offset, writing the value
    with [WriteUIntN] and seeking back to the old cursor do. *)
Theorem put_is_seek_write_seek_back (w : width) (b : ByteBuffer) (off v : Z) :
  wf b -> 0 <= off -> off + width_bytes w <= length b ->
  (SetPosition off ;;; WriteUInt w v ;;; SetPosition (offset b)) b =
  PutUInt w off v b.
Proof.
  intros Hwf Hlo Hhi. pose proof Hwf as [Hoff Hlen Hbuf Hcap].
  assert (Hn : 0 <= width_bytes w) by (destruct w; cbv; discriminate).
  rewrite PutUInt_in_range by assumption.
  unfold bind at 1. rewrite SetPosition_ok by lia.
  assert (Hwf1 : wf (with_offset off b)) by (apply wf_with_offset; [assumption|lia]).
  unfold bind at 1. rewrite WriteUInt_fits by (cbn; (assumption || lia)).
  rewrite SetPosition_ok by (cbn; lia).
  unfold with_offset, written, with_buf. cbn [cap buf length offset order].
  rewrite Z.max_l by lia. reflexivity.
Qed.

Lemma put_is_seek_write_seek_back_witness :
  (SetPosition 2 ;;; WriteUInt W16 258 ;;; SetPosition (offset bufAB)) bufAB =
  PutUInt W16 2 258 bufAB.
Proof.
  apply (put_is_seek_write_seek_back W16 bufAB 2 258).
  - split; simpl; unfold maxAlloc, len; simpl; lia.
  - lia.
  - simpl. unfold SIZEOF_2_BYTE. lia.
Defined.

(** ** The typed reads *)

Lemma Read_fits (t : prim) (b : ByteBuffer) :
  wf b -> offset b + sizeof t <= length b ->
  Read t b =
  (with_offset (offset b + sizeof t) b,
   Ret (decode (order b) t (window (buf b) (offset b) (Z.to_nat (sizeof t))), None)).
Proof.
  intros Hwf Hfit. pose proof Hwf as [Hoff Hlen Hbuf Hcap].
  destruct t; cbn [sizeof Read decode] in *;
    unfold SIZEOF_1_BYTE, SIZEOF_2_BYTE, SIZEOF_4_BYTE, SIZEOF_8_BYTE in *;
    unfold tagged, bind;
    try (first [ rewrite ReadInt16_ok by assumption
               | rewrite ReadUInt16_ok by assumption
               | rewrite ReadInt32_ok by assumption
               | rewrite ReadUInt32_ok by assumption
               | rewrite ReadInt64_ok by assumption
               | rewrite ReadUInt64_ok by assumption
               | rewrite ReadFloat32_ok by assumption
               | rewrite ReadFloat64_ok by assumption ]; reflexivity).
  - pose proof (length_window (buf b) (offset b) 1 ltac:(lia) ltac:(lia)) as Hl.
    change (Z.to_nat 1) with 1%nat.
    destruct (window (buf b) (offset b) 1) as [|x [|? ?]] eqn:Hw; try discriminate Hl.
    rewrite (ReadInt8_at b x) by (try apply index_of_window1; (assumption || lia)).
    reflexivity.
  - pose proof (length_window (buf b) (offset b) 1 ltac:(lia) ltac:(lia)) as Hl.
    change (Z.to_nat 1) with 1%nat.
    destruct (window (buf b) (offset b) 1) as [|x [|? ?]] eqn:Hw; try discriminate Hl.
    unfold ReadBoolean, bind.
    rewrite (ReadInt8_at b x) by (try apply index_of_window1; (assumption || lia)).
    reflexivity.
Qed.

Lemma Read_short (t : prim) (b : ByteBuffer) :
  wf b -> offset b + sizeof t > length b ->
  Read t b = (b, Ret (zero_value t, Some ErrorReadOverflow)).
Proof.
  intros Hwf Hover.
  destruct t; cbn [sizeof Read zero_value] in *;
    unfold tagged, ReadBoolean, ReadInt8, ReadInt16, ReadUInt16, ReadInt32,
      ReadUInt32, ReadInt64, ReadUInt64, ReadFloat32, ReadFloat64, bind;
    rewrite applyRead_overflow
      by (first [assumption
                | unfold SIZEOF_1_BYTE, SIZEOF_2_BYTE, SIZEOF_4_BYTE,
                    SIZEOF_8_BYTE, maxAlloc in *; lia]);
    reflexivity.
Qed.

(** X8. A typed read on a well-formed buffer: when the bytes of the type
    are there it returns no error, the value decoded (in the configured
    byte order) from the bytes under the cursor, and advances the cursor
    by the size of the type; when fewer bytes of valid data remain it
    returns [ErrorReadOverflow] with the zero value of the type and
    leaves the buffer as it was. *)
Theorem typed_read_decodes_or_overflows (t : prim) (b : ByteBuffer) :
  wf b ->
  (offset b + sizeof t <= length b ->
   Read t b =
   (with_offset (offset b + sizeof t) b,
    Ret (decode (order b) t (window (buf b) (offset b) (Z.to_nat (sizeof t))),
         None))) /\
  (offset b + sizeof t > length b ->
   Read t b = (b, Ret (zero_value t, Some ErrorReadOverflow))).
Proof.
  intros Hwf. split; intros H; [now apply Read_fits|now apply Read_short].
Qed.

Lemma typed_read_decodes_or_overflows_witness :
  Read Int16 bufAB = (with_offset 2 bufAB, Ret (VInt16 16961, None)) /\
  Read Int64 bufAB = (bufAB, Ret (VInt64 0, Some ErrorReadOverflow)).
Proof.
  assert (Hwf : wf bufAB) by (split; simpl; unfold maxAlloc, len; simpl; lia).
  split.
  - apply (proj1 (typed_read_decodes_or_overflows Int16 bufAB Hwf)).
    simpl. unfold SIZEOF_2_BYTE. lia.
  - apply (proj2 (typed_read_decodes_or_overflows Int64 bufAB Hwf)).
    simpl. unfold SIZEOF_8_BYTE. lia.
Defined.

(** ** ReadBytes and ReadString by count *)

Lemma copy_out_within (dst src : list Z) :
  len src <= len dst ->
  copy_out dst src = (src ++ drop (List.length src) dst, len src).
Proof.
  intros Hle. unfold copy_out. rewrite Z.min_r by lia.
  unfold len. rewrite Nat2Z.id, firstn_all. reflexivity.
Qed.






(** ** Records of several fields: writing *)

Lemma put_bytes_app (bs1 bs2 s : list Z) (low : Z) :
  put_bytes s low (bs1 ++ bs2) =
  put_bytes (put_bytes s low bs1) (low + len bs1) bs2.
Proof.
  revert s low. induction bs1 as [|x bs1 IH]; intros s low; simpl.
  - unfold len. simpl. now rewrite Z.add_0_r.
  - rewrite IH. f_equal. unfold len. simpl. lia.
Qed.

Lemma len_app (l k : list Z) : len (l ++ k) = len l + len k.
Proof. unfold len. rewrite length_app. lia. Qed.

Lemma written_nothing (b : ByteBuffer) : wf b -> written b 0 [] = b.
Proof.
  intros [Hoff _ _ _]. unfold written. simpl.
  rewrite Z.add_0_r, Z.max_l by lia. apply ByteBuffer_eta.
Qed.

Lemma written_written (b : ByteBuffer) (bs1 bs2 : list Z) :
  written (written b (len bs1) bs1) (len bs2) bs2 =
  written b (len (bs1 ++ bs2)) (bs1 ++ bs2).
Proof.
  pose proof (len_nonneg bs1). pose proof (len_nonneg bs2).
  unfold written. cbn [cap buf length offset order].
  rewrite put_bytes_app, len_app. f_equal; lia.
Qed.

Lemma write_item_written (i : item) (b : ByteBuffer) :
  wf b -> offset b + len (item_bytes (order b) i) <= cap b ->
  write_item i b =
  (written b (len (item_bytes (order b) i)) (item_bytes (order b) i), Ret None).
Proof.
  intros Hwf Hfit. destruct i as [v|s|l]; cbn [write_item item_bytes] in *.
  - rewrite length_value_bytes in *. now apply Write_written.
  - unfold err_of, WriteString, bind. now rewrite WriteBytes_written.
  - unfold err_of, bind. now rewrite WriteBytes_written.
Qed.

Lemma write_all_written (items : list item) :
  forall b : ByteBuffer,
    wf b -> offset b + len (encoding (order b) items) <= cap b ->
    write_all items b =
    (written b (len (encoding (order b) items)) (encoding (order b) items),
     Ret (List.map (fun _ => None) items)).
Proof.
  induction items as [|i items IH]; intros b Hwf Hfit.
  - cbn. now rewrite written_nothing.
  - unfold encoding in *. cbn [List.map concat] in *. rewrite len_app in Hfit.
    pose proof (len_nonneg (item_bytes (order b) i)) as H1.
    pose proof (len_nonneg (concat (List.map (item_bytes (order b)) items))) as H2.
    cbn [write_all]. unfold bind at 1.
    rewrite write_item_written by (assumption || lia).
    assert (Hwf1 : wf (written b (len (item_bytes (order b) i)) (item_bytes (order b) i)))
      by (apply wf_written; (assumption || lia)).
    unfold bind at 1. rewrite IH by (assumption || (cbn; lia)).
    cbn [order written]. fold (written b (len (item_bytes (order b) i)) (item_bytes (order b) i)).
    rewrite written_written. reflexivity.
Qed.

(** ** Records of several fields: reading *)

Lemma string_bytes_roundtrip (s : string) :
  string_of_bytes (bytes_of_string s) = s.
Proof.
  unfold string_of_bytes, bytes_of_string.
  induction s as [|a s IH]; [reflexivity|].
  cbn [list_ascii_of_string List.map string_of_list_ascii].
  rewrite N2Z.id, ascii_N_embedding. f_equal. exact IH.
Qed.


Lemma window_split (s : list Z) (p : Z) (n1 n2 : nat) :
  0 <= p ->
  window s p (n1 + n2) = window s p n1 ++ window s (p + Z.of_nat n1) n2.
Proof.
  intros Hp. unfold window.
  rewrite <- take_take_drop, drop_drop. do 3 f_equal. lia.
Qed.

Lemma to_nat_len (l : list Z) : Z.to_nat (len l) = List.length l.
Proof. unfold len. apply Nat2Z.id. Qed.

Lemma with_offset_with_offset (p q : Z) (b : ByteBuffer) :
  with_offset q (with_offset p b) = with_offset q b.
Proof. reflexivity. Qed.





(** ** What Data shows after appending *)

Lemma Data_is_prefix (b : ByteBuffer) :
  wf b -> Data b = (b, Ret (take (Z.to_nat (length b)) (buf b))).
Proof.
  intros [Hoff Hlen Hbuf Hcap]. unfold Data, bind, get, slice.
  destruct (Z.leb_spec 0 0); [|lia].
  destruct (Z.leb_spec 0 (length b)); [|lia].
  destruct (Z.leb_spec (length b) (len (buf b))); [|lia].
  cbn [andb]. rewrite Z.sub_0_r. reflexivity.
Qed.

(** X11. Appending grows [Data] by the encoding: on a well-formed buffer
    whose cursor is at the end of the valid data, writing a list of items
    that fits returns no error, and [Data()] afterwards is [Data()] before
    followed by the bytes of the items in the order written, and
    [Length()] has grown by their number. *)
Theorem appending_extends_Data (b : ByteBuffer) (items : list item) :
  wf b -> offset b = length b ->
  offset b + len (encoding (order b) items) <= cap b ->
  exists b' d,
    Data b = (b, Ret d) /\
    write_all items b = (b', Ret (List.map (fun _ => None) items)) /\
    Data b' = (b', Ret (d ++ encoding (order b) items)) /\
    Length b' = (b', Ret (length b + len (encoding (order b) items))).
Proof.
  intros Hwf Hend Hfit. pose proof Hwf as [Hoff Hlen Hbuf Hcap].
  set (enc := encoding (order b) items) in *.
  pose proof (len_nonneg enc) as Hnn.
  exists (written b (len enc) enc), (take (Z.to_nat (length b)) (buf b)).
  split; [now apply Data_is_prefix|].
  split; [now apply write_all_written|].
  assert (Hwf' : wf (written b (len enc) enc)) by (apply wf_written; (assumption || lia)).
  split.
  - rewrite Data_is_prefix by assumption. do 2 f_equal.
    cbn [written buf length]. rewrite Hend, Z.max_r by lia.
    rewrite put_bytes_splice by lia.
    rewrite app_assoc. apply take_app_length'.
    unfold len in *. rewrite length_app, length_take. lia.
  - unfold Length, bind, get, ret. do 2 f_equal.
    cbn [written length]. lia.
Qed.

Lemma appending_extends_Data_witness :
  exists b' d,
    Data (mkByteBuffer 8 [7; 8; 0; 0; 0; 0; 0; 0] 2 2 BigEndian) =
      (mkByteBuffer 8 [7; 8; 0; 0; 0; 0; 0; 0] 2 2 BigEndian, Ret d) /\
    write_all [IValue (VUInt16 258); IString "A"]
      (mkByteBuffer 8 [7; 8; 0; 0; 0; 0; 0; 0] 2 2 BigEndian) =
      (b', Ret [None; None]) /\
    Data b' = (b', Ret (d ++ [1; 2; 65])) /\
    Length b' = (b', Ret (2 + 3)).
Proof.
  apply (appending_extends_Data
           (mkByteBuffer 8 [7; 8; 0; 0; 0; 0; 0; 0] 2 2 BigEndian)
           [IValue (VUInt16 258); IString "A"]).
  - split; simpl; unfold maxAlloc, len; simpl; lia.
  - reflexivity.
  - vm_compute. discriminate.
Defined.

(** ** Zero-terminated strings *)

(** X12. A string without zero bytes, written with [WriteString] and
    followed by a zero byte written with [WriteInt8(0)], is read back whole
    by [ReadString] with a negative length after seeking to where it
    starts; the read returns no error and leaves the cursor on the zero
    byte. *)
Theorem cstring_roundtrip (b : ByteBuffer) (s : string) (n : Z) :
  wf b -> n < 0 ->
  Forall (fun x => x <> 0) (bytes_of_string s) ->
  offset b + len (bytes_of_string s) + 1 <= cap b ->
  exists b1 b2 b3 b4,
    WriteString s b = (b1, Ret (len (bytes_of_string s), None)) /\
    WriteInt8 0 b1 = (b2, Ret None) /\
    SetPosition (offset b) b2 = (b3, Ret None) /\
    ReadString n b3 = (b4, Ret (s, None)) /\
    offset b4 = offset b + len (bytes_of_string s).
Proof.
  intros Hwf Hn Hnz Hfit. pose proof Hwf as [Hoff Hlen Hbuf Hcap].
  set (bs := bytes_of_string s) in *.
  pose proof (len_nonneg bs) as Hnn.
  assert (Hwf1 : wf (written b (len bs) bs)) by (apply wf_written; (assumption || lia)).
  assert (Hall : written (written b (len bs) bs) 1 [0] =
                 written b (len (bs ++ [0])) (bs ++ [0])).
  { change 1 with (len [0]). apply written_written. }
  assert (Hfit' : offset b + Z.of_nat (List.length (bs ++ [0])) <= cap b).
  { rewrite length_app. unfold len in *. simpl. lia. }
  destruct (roundtrip_steps b (List.length (bs ++ [0])) (bs ++ [0]) Hwf eq_refl Hfit')
    as (Hset & Hwf3 & Hoff3 & Hfit3 & Hord3 & Hwin).
  fold (len (bs ++ [0])) in Hset, Hwf3, Hoff3, Hfit3, Hord3, Hwin.
  set (b3 := with_offset (offset b) (written b (len (bs ++ [0])) (bs ++ [0]))) in *.
  exists (written b (len bs) bs), (written (written b (len bs) bs) 1 [0]), b3,
         (with_offset (offset b + len bs) b3).
  split; [unfold WriteString; apply WriteBytes_written; [assumption|fold bs; lia]|].
  split; [apply WriteInt8_ok; [assumption|cbn; lia]|].
  split; [rewrite Hall; exact Hset|].
  split; [|reflexivity].
  assert (Hidx : forall k : nat, (k < List.length (bs ++ [0%Z]))%nat ->
                 index (buf b3) (offset b + Z.of_nat k) = (bs ++ [0]) !! k).
  { intros k Hk. rewrite <- Hwin, Hoff3.
    apply index_window; [lia|assumption]. }
  assert (Hlen3 : offset b + len bs + 1 <= length b3).
  { rewrite len_app, Hoff3 in Hfit3. change (len [0]) with 1 in Hfit3. lia. }
  pose proof Hwf3 as [Hoff3' Hlen3' Hbuf3' Hcap3'].
  destruct (scan_zero_spec b3 (Z.to_nat (length b3 - offset b3)) (offset b3))
    as (e & Hscan & He & Hbefore & Hat); try lia.
  rewrite Hoff3 in He, Hbefore.
  assert (Hzero : index (buf b3) (offset b + len bs) = Some 0).
  { unfold len. rewrite Hidx by (rewrite length_app; simpl; lia).
    rewrite lookup_app_r by lia. now rewrite Nat.sub_diag. }
  assert (He' : e = offset b + len bs).
  { destruct (Z.lt_trichotomy e (offset b + len bs)) as [Hlt|[Heq|Hgt]]; [|exact Heq|].
    - exfalso.
      assert (Hz : index (buf b3) e = Some 0) by (apply Hat; lia).
      replace e with (offset b + Z.of_nat (Z.to_nat (e - offset b))) in Hz by lia.
      rewrite Hidx in Hz by (rewrite length_app; unfold len in *; simpl; lia).
      rewrite lookup_app_l in Hz by (unfold len in *; lia).
      rewrite Forall_lookup in Hnz. apply (Hnz _ _ Hz). reflexivity.
    - exfalso. destruct (Hbefore (offset b + len bs)) as (x & Hx & Hxnz); [lia|].
      congruence. }
  subst e.
  rewrite (ReadString_scan b3 n (offset b3 + len bs));
    try assumption; try (rewrite ?Hoff3; lia).
  rewrite Hoff3. replace (offset b + len bs - offset b) with (len bs) by lia.
    rewrite to_nat_len.
    assert (Hpre : window (buf b3) (offset b) (List.length bs) = bs).
    { rewrite length_app in Hwin. rewrite Hoff3 in Hwin.
      rewrite window_split in Hwin by lia.
      apply app_inj_1 in Hwin as [Hw _]; [exact Hw|].
      apply length_window; unfold len in *; lia. }
    rewrite Hpre. unfold bs. rewrite string_bytes_roundtrip. reflexivity.
Qed.

Lemma cstring_roundtrip_witness :
  exists b1 b2 b3 b4,
    WriteString "hello" (mkByteBuffer 8 (replicate 8 9) 1 1 LittleEndian)
      = (b1, Ret (5, None)) /\
    WriteInt8 0 b1 = (b2, Ret None) /\
    SetPosition 1 b2 = (b3, Ret None) /\
    ReadString (-1) b3 = (b4, Ret ("hello"%string, None)) /\
    offset b4 = 1 + 5.
Proof.
  apply (cstring_roundtrip (mkByteBuffer 8 (replicate 8 9) 1 1 LittleEndian)
           "hello" (-1)).
  - split; simpl; unfold maxAlloc, len; simpl; lia.
  - lia.
  - repeat constructor; discriminate.
  - vm_compute. discriminate.
Defined.

(** ** Reset *)

(** X13. [Reset] makes a well-formed buffer reusable without touching its
    bytes: it leaves the backing slice as it is, [Data()] is then empty,
    every fixed-width read returns [ErrorReadOverflow], a second [Reset]
    changes nothing, and any sequence of writes totalling at most the
    capacity returns no error and leaves cursor and valid length at the
    total, as on a buffer just created. *)
Theorem reset_makes_buffer_reusable (b : ByteBuffer) (ops : list Op) :
  wf b -> Forall is_write ops -> total_size ops <= cap b ->
  exists b0 b',
    Reset b = (b0, Ret tt) /\
    buf b0 = buf b /\ cap b0 = cap b /\
    Reset b0 = (b0, Ret tt) /\
    Data b0 = (b0, Ret []) /\
    (forall op n, read_size op = Some n ->
                  exec op b0 = (b0, Ret (Some ErrorReadOverflow))) /\
    exec_all ops b0 = (b', Ret (List.map (fun _ => None) ops)) /\
    offset b' = total_size ops /\ length b' = total_size ops.
Proof.
  intros Hwf Hall Htotal. pose proof Hwf as [Hoff Hlen Hbuf Hcap].
  pose proof (total_size_nonneg ops) as Hnn.
  assert (Hwf0 : wf (mkByteBuffer (cap b) (buf b) 0 0 (order b)))
    by (split; cbn; lia).
  destruct (exec_all_writes ops _ Hwf0 Hall) as (b' & Hrun & _ & _ & Hoff' & Hlen');
    [cbn; lia|].
  exists (mkByteBuffer (cap b) (buf b) 0 0 (order b)), b'.
  split; [reflexivity|]. split; [reflexivity|]. split; [reflexivity|].
  split; [reflexivity|].
  split; [now rewrite Data_is_prefix|].
  split; [|split; [exact Hrun|cbn in *; lia]].
  intros op n Hn.
  destruct (exec_read_cases _ op n Hwf0 Hn) as [[Hfit _]|[_ Hrun0]]; [|exact Hrun0].
  exfalso. cbn in Hfit.
  destruct op; try discriminate Hn; cbn [read_size] in Hn; injection Hn as <-;
    unfold SIZEOF_1_BYTE, SIZEOF_2_BYTE, SIZEOF_4_BYTE, SIZEOF_8_BYTE in *; lia.
Qed.

Lemma reset_makes_buffer_reusable_witness :
  exists b0 b',
    Reset bufAB = (b0, Ret tt) /\
    buf b0 = buf bufAB /\ cap b0 = cap bufAB /\
    Reset b0 = (b0, Ret tt) /\
    Data b0 = (b0, Ret []) /\
    (forall op n, read_size op = Some n ->
                  exec op b0 = (b0, Ret (Some ErrorReadOverflow))) /\
    exec_all [OpWriteInt64 1] b0 = (b', Ret [None]) /\
    offset b' = 8 /\ length b' = 8.
Proof.
  apply (reset_makes_buffer_reusable bufAB [OpWriteInt64 1]).
  - split; simpl; unfold maxAlloc, len; simpl; lia.
  - repeat constructor; discriminate.
  - vm_compute. discriminate.
Defined.

(** ** No panic away from the ends of [int] *)

Lemma exec_small_returns (b : ByteBuffer) (op : Op) :
  wf b -> valid_op op -> small_op op ->
  exists b' r, exec op b = (b', Ret r) /\ wf b' /\ cap b' = cap b.
Proof.
  intros Hwf Hvalid Hsmall. pose proof Hwf as [Hoff Hlen Hbuf Hcap].
  destruct (exec_cases b op Hwf Hvalid)
    as [Hret|(b' & n & _ & [(-> & Hbig & _)|(size & Hacc & Hbig & _)])];
    [exact Hret| |]; exfalso.
  - cbn [small_op] in Hsmall. lia.
  - destruct op; try discriminate Hacc; cbn [accessor_of small_op] in *;
      injection Hacc as -> <-;
      unfold SIZEOF_2_BYTE, SIZEOF_4_BYTE, SIZEOF_8_BYTE in *; lia.
Qed.

(** X14. From a buffer just created, any sequence of calls whose [int]
    arguments stay away from [MaxInt64] ([ReadString] lengths by the
    largest allocation, accessor offsets by 8) never panics: every call
    returns, and the buffer it leaves satisfies
    [0 <= offset <= length <= cap] with the capacity it was created
    with. *)
Theorem calls_in_range_never_panic
    (c : Z) (o : ByteOrder) (b0 : ByteBuffer) (ops : list Op) :
  NewByteBuffer c o = Ret b0 ->
  Forall valid_op ops -> Forall small_op ops ->
  exists b es,
    exec_all ops b0 = (b, Ret es) /\
    List.length es = List.length ops /\
    0 <= offset b <= length b /\ length b <= cap b /\ cap b = c.
Proof.
  intros Hnew Hvalid Hsmall.
  destruct (NewByteBuffer_wf c o b0 Hnew) as (Hwf0 & Hcap0 & _).
  rewrite <- Hcap0. clear Hnew Hcap0. revert b0 Hwf0.
  induction ops as [|op ops IH]; intros b0 Hwf0.
  - exists b0, []. destruct Hwf0. repeat split; lia.
  - inversion Hvalid as [|? ? Hv Hvs]; inversion Hsmall as [|? ? Hs Hss]; subst.
    destruct (exec_small_returns b0 op Hwf0 Hv Hs) as (b1 & r & Hrun & Hwf1 & Hcap1).
    destruct (IH Hvs Hss b1 Hwf1) as (b & es & Hrun' & Hlen & Hinv).
    exists b, (r :: es). cbn [exec_all]. unfold bind at 1. rewrite Hrun.
    unfold bind at 1. rewrite Hrun'. unfold ret.
    split; [reflexivity|]. split; [cbn; lia|]. rewrite <- Hcap1. exact Hinv.
Qed.

Lemma calls_in_range_never_panic_witness :
  exists b es,
    exec_all [OpWriteInt32 7; OpReadString 100; OpGetUInt64 (-3); OpSetPosition 1;
              OpReadString (-1); OpReset]
      (mkByteBuffer 4 [0; 0; 0; 0] 0 0 BigEndian) = (b, Ret es) /\
    List.length es = 6%nat /\
    0 <= offset b <= length b /\ length b <= cap b /\ cap b = 4.
Proof.
  apply (calls_in_range_never_panic 4 BigEndian
           (mkByteBuffer 4 [0; 0; 0; 0] 0 0 BigEndian)
           [OpWriteInt32 7; OpReadString 100; OpGetUInt64 (-3); OpSetPosition 1;
            OpReadString (-1); OpReset]).
  - reflexivity.
  - repeat constructor; unfold is_int, int_min, int_max; lia.
  - repeat constructor; unfold small_op, int_max, maxAlloc; lia.
Defined.

(** ** The superseded variant against the current one *)

(** X15. [ReadString] of the superseded variant and of the current one
    are the same function on positive lengths, in every state; and on
    length 0 on well-formed buffers. *)
Theorem Legacy_ReadString_agrees (b : ByteBuffer) (n : Z) :
  (0 < n -> Legacy.ReadString n b = ReadString n b) /\
  (wf b -> n = 0 -> Legacy.ReadString n b = ReadString n b).
Proof.
  split.
  - intros Hn. unfold Legacy.ReadString, ReadString.
    destruct (Z.eqb_spec n 0); [lia|].
    destruct (Z.leb_spec n 0); [lia|].
    unfold bind at 3. unfold get. cbv beta iota.
    destruct (int_add (offset b) n >? length b) eqn:Htest; [|reflexivity].
    unfold bind. rewrite applyRead_eq, Htest. reflexivity.
  - intros Hwf ->. pose proof Hwf as [Hoff Hlen Hbuf Hcap].
    unfold Legacy.ReadString, ReadString. cbn [Z.eqb].
    unfold bind at 1. rewrite applyRead_ok by (assumption || lia).
    cbv beta iota. cbn [negb]. unfold bind, slice, ret.
    cbn [buf cap length offset order].
    rewrite int_add_small by (apply wf_is_int_add; [assumption|unfold maxAlloc; lia]).
    rewrite Z.add_0_r.
    destruct (Z.leb_spec 0 (offset b)); [|lia].
    destruct (Z.leb_spec (offset b) (offset b)); [|lia].
    destruct (Z.leb_spec (offset b) (len (buf b))); [|lia].
    cbn [andb]. rewrite Z.sub_diag, ByteBuffer_eta. reflexivity.
Qed.

Lemma Legacy_ReadString_agrees_witness :
  Legacy.ReadString 2 bufAB = ReadString 2 bufAB /\
  Legacy.ReadString 0 bufAB = ReadString 0 bufAB.
Proof.
  split.
  - apply (proj1 (Legacy_ReadString_agrees bufAB 2)). lia.
  - apply (proj2 (Legacy_ReadString_agrees bufAB 0)); [|reflexivity].
    split; simpl; unfold maxAlloc, len; simpl; lia.
Defined.

(** X16. [ReadString] of the superseded variant never returns on a
    negative length: on a well-formed buffer it moves the cursor back by
    the length and panics on the slice expression, where the current
    variant scans for a zero byte. *)
Theorem Legacy_ReadString_negative_panics (b : ByteBuffer) (n : Z) :
  wf b -> is_int n -> n < 0 ->
  Legacy.ReadString n b = (with_offset (offset b + n) b, Panic).
Proof.
  intros Hwf Hint Hn. pose proof Hwf as [Hoff Hlen Hbuf Hcap].
  assert (Hadd : int_add (offset b) n = offset b + n).
  { apply int_add_small. unfold is_int, int_min, int_max, maxAlloc in *. lia. }
  unfold Legacy.ReadString, bind. rewrite applyRead_eq, Hadd.
  destruct (Z.gtb_spec (offset b + n) (length b)); [lia|].
  cbv beta iota. cbn [negb]. unfold slice. cbn [buf]. rewrite Hadd.
  destruct (Z.leb_spec 0 (offset b)); [|lia].
  destruct (Z.leb_spec (offset b) (offset b + n)); [lia|].
  reflexivity.
Qed.

Lemma Legacy_ReadString_negative_panics_witness :
  Legacy.ReadString (-1) (mkByteBuffer 8 [65; 66; 0; 67; 0; 0; 0; 0] 4 2 LittleEndian) =
  (mkByteBuffer 8 [65; 66; 0; 67; 0; 0; 0; 0] 4 1 LittleEndian, Panic).
Proof.
  apply (Legacy_ReadString_negative_panics
           (mkByteBuffer 8 [65; 66; 0; 67; 0; 0; 0; 0] 4 2 LittleEndian) (-1)).
  - split; simpl; unfold maxAlloc, len; simpl; lia.
  - unfold is_int, int_min, int_max. lia.
  - lia.
Defined.

Lemma copy_in_splice (low : Z) (src : list Z) (b : ByteBuffer) :
  0 <= low -> low + len src <= len (buf b) ->
  copy_in low src b = (with_buf (put_bytes (buf b) low src) b, Ret (len src)).
Proof.
  intros Hlow Hfit. pose proof (len_nonneg src) as Hnn.
  unfold copy_in, bind, slice_from, get, set_buf, ret.
  destruct (Z.leb_spec 0 low); [|lia].
  destruct (Z.leb_spec low (len (buf b))); [|lia].
  cbn [andb]. rewrite Z.min_r by lia.
  rewrite to_nat_len, firstn_all, put_bytes_splice by lia. reflexivity.
Qed.

Lemma Legacy_WriteBytes_run (value : list Z) (b : ByteBuffer) :
  wf b -> len value <= maxAlloc ->
  Legacy.WriteBytes value b = err_of (WriteBytes value) b /\
  (letM (off, ok) := applyWrite (len value) in
   if negb ok then ret (0, Some ErrorWriteOverflow)
   else copy_in off value ;;; ret (len value, None)) b = WriteBytes value b.
Proof.
  intros Hwf Hv. pose proof Hwf as [Hoff Hlen Hbuf Hcap].
  pose proof (len_nonneg value) as Hnn.
  destruct (Z.le_gt_cases (offset b + len value) (cap b)) as [Hfit|Hover].
  - assert (Hcur : WriteBytes value b =
                   (written b (len value) value, Ret (len value, None)))
      by now apply WriteBytes_written.
    assert (Herr : err_of (WriteBytes value) b =
                   (written b (len value) value, Ret None))
      by (unfold err_of, bind; rewrite Hcur; reflexivity).
    rewrite Herr, Hcur. split.
    + unfold Legacy.WriteBytes, bind. rewrite applyWrite_ok by assumption.
      cbv beta iota. cbn [negb].
      rewrite copy_in_splice by (cbn [buf]; lia). reflexivity.
    + unfold bind. rewrite applyWrite_ok by assumption.
      cbv beta iota. cbn [negb].
      rewrite copy_in_splice by (cbn [buf]; lia). reflexivity.
  - assert (Hcur : WriteBytes value b = (b, Ret (0, Some ErrorWriteOverflow))).
    { unfold WriteBytes, bind. rewrite applyWrite_overflow by (assumption || lia).
      reflexivity. }
    assert (Herr : err_of (WriteBytes value) b = (b, Ret (Some ErrorWriteOverflow)))
      by (unfold err_of, bind; rewrite Hcur; reflexivity).
    rewrite Herr, Hcur. split.
    + unfold Legacy.WriteBytes, bind.
      rewrite applyWrite_overflow by (assumption || lia). reflexivity.
    + unfold bind. rewrite applyWrite_overflow by (assumption || lia). reflexivity.
Qed.

(** X17. On a well-formed buffer and for a payload no longer than the
    largest allocation, [WriteString] and [WriteBytes] of the superseded
    variant leave the buffer and return the error (and, for
    [WriteString], the count) that the current ones do. *)
Theorem Legacy_writes_agree (b : ByteBuffer) (s : string) (l : list Z) :
  wf b -> len (bytes_of_string s) <= maxAlloc -> len l <= maxAlloc ->
  Legacy.WriteString s b = WriteString s b /\
  Legacy.WriteBytes l b = err_of (WriteBytes l) b.
Proof.
  intros Hwf Hs Hl. split.
  - unfold Legacy.WriteString, WriteString.
    exact (proj2 (Legacy_WriteBytes_run (bytes_of_string s) b Hwf Hs)).
  - exact (proj1 (Legacy_WriteBytes_run l b Hwf Hl)).
Qed.

Lemma Legacy_writes_agree_witness :
  Legacy.WriteString "hi" bufAB = WriteString "hi" bufAB /\
  Legacy.WriteBytes [1; 2; 3; 4; 5; 6; 7; 8; 9] bufAB =
    err_of (WriteBytes [1; 2; 3; 4; 5; 6; 7; 8; 9]) bufAB.
Proof.
  apply (Legacy_writes_agree bufAB "hi" [1; 2; 3; 4; 5; 6; 7; 8; 9]).
  - split; simpl; unfold maxAlloc, len; simpl; lia.
  - vm_compute. discriminate.
  - vm_compute. discriminate.
Defined.

(** X18. On a well-formed buffer [ReadBytes] of the superseded variant
    leaves the buffer and the destination and returns the error that the
    current one does, for every destination and every length; only the
    count is not returned. *)
Theorem Legacy_ReadBytes_agrees (b : ByteBuffer) (dst : list Z) (n : Z) :
  wf b ->
  Legacy.ReadBytes dst n b =
  (letM r := ReadBytes dst n in ret (fst (fst r), snd r)) b.
Proof.
  intros Hwf. pose proof Hwf as [Hoff Hlen Hbuf Hcap].
  pose proof (len_nonneg dst) as Hnn.
  unfold Legacy.ReadBytes, ReadBytes.
  destruct (Z.eqb_spec n 0) as [->|Hnz].
  - cbn [Z.ltb Z.compare]. destruct (Z.gtb_spec 0 (len dst)); [lia|].
    unfold bind at 1. rewrite applyRead_ok by (assumption || lia).
    cbv beta iota. cbn [negb]. unfold bind, slice, ret.
    cbn [buf cap length offset order].
    rewrite int_add_small by (apply wf_is_int_add; [assumption|unfold maxAlloc; lia]).
    rewrite Z.add_0_r.
    destruct (Z.leb_spec 0 (offset b)); [|lia].
    destruct (Z.leb_spec (offset b) (offset b)); [|lia].
    destruct (Z.leb_spec (offset b) (len (buf b))); [|lia].
    cbn [andb fst snd]. rewrite Z.sub_diag, ByteBuffer_eta.
    change (Z.to_nat 0) with 0%nat. rewrite take_0.
    rewrite copy_out_within by (unfold len; simpl; lia). reflexivity.
  - destruct (if n <? 0 then inl (len dst)
              else if n >? len dst then inr ErrorReadOverflow else inl n)
      as [m|e]; [|reflexivity].
    unfold bind. destruct (applyRead m b) as [b1 [[off ok]|]]; [|reflexivity].
    destruct ok; cbn [negb]; [|reflexivity].
    destruct (slice off (int_add off m) b1) as [b2 [source|]]; [|reflexivity].
    destruct (copy_out dst source). reflexivity.
Qed.

Lemma Legacy_ReadBytes_agrees_witness :
  Legacy.ReadBytes [9; 9; 9] (-1) bufAB =
  (letM r := ReadBytes [9; 9; 9] (-1) in ret (fst (fst r), snd r)) bufAB.
Proof.
  apply (Legacy_ReadBytes_agrees bufAB [9; 9; 9] (-1)).
  split; simpl; unfold maxAlloc, len; simpl; lia.
Defined.

(** ** ReadString by count *)

(** X19. [ReadString(n)] with [n > 0] on a well-formed buffer, when
    [offset + n] does not exceed [MaxInt64]: if [n] bytes of valid data
    remain it returns them as a string with no error and advances the
    cursor by [n]; otherwise it returns the empty string and
    [ErrorReadOverflow] and leaves the buffer as it was. *)
Theorem ReadString_by_count (b : ByteBuffer) (n : Z) :
  wf b -> 0 < n -> offset b + n <= int_max ->
  (offset b + n <= length b ->
   ReadString n b =
   (with_offset (offset b + n) b,
    Ret (string_of_bytes (window (buf b) (offset b) (Z.to_nat n)), None))) /\
  (offset b + n > length b ->
   ReadString n b = (b, Ret (EmptyString, Some ErrorReadOverflow))).
Proof.
  intros Hwf Hn Hsmall. pose proof Hwf as [Hoff Hlen Hbuf Hcap].
  assert (Hint : is_int n) by (unfold is_int, int_min, int_max in *; lia).
  destruct (ReadString_positive b n Hwf Hn Hint)
    as [[Hfit Hrun]|[[Hover Hrun]|[Hbig _]]]; [| |lia];
    split; intros H; (exact Hrun || lia).
Qed.

Lemma ReadString_by_count_witness :
  ReadString 3 bufAB = (with_offset 3 bufAB, Ret (String "A" (String "B" (String "000" EmptyString)), None)) /\
  ReadString 5 bufAB = (bufAB, Ret (EmptyString, Some ErrorReadOverflow)).
Proof.
  assert (Hwf : wf bufAB) by (split; simpl; unfold maxAlloc, len; simpl; lia).
  split.
  - apply (proj1 (ReadString_by_count bufAB 3 Hwf ltac:(lia)
                    ltac:(simpl; unfold int_max; lia))).
    simpl. lia.
  - apply (proj2 (ReadString_by_count bufAB 5 Hwf ltac:(lia)
                    ltac:(simpl; unfold int_max; lia))).
    simpl. lia.
Defined.

(** ** SetOrder *)

Lemma uint16_swapped (o o' : ByteOrder) (v : Z) :
  is_uint 16 v -> o' <> o ->
  uint16_of_bytes o' (bytes_of_uint16 o v) = v mod 256 * 256 + v / 256.
Proof.
  unfold is_uint. intros Hv Hne.
  destruct o, o'; try congruence; cbn [uint16_of_bytes bytes_of_uint16];
    rewrite lor_bytes16 by apply byte_of_is_byte;
    bytes_as_quotients v; Z.div_mod_to_equations; lia.
Qed.

(** X20. [SetOrder] changes how bytes are decoded from then on, not the
    bytes already stored: a [uint16] written under one byte order and
    read back, after [SetOrder] to the other order and a seek to where it
    starts, comes back with its two bytes swapped; the backing bytes,
    cursor and valid length are untouched by [SetOrder]. *)
Theorem SetOrder_is_not_retroactive (b : ByteBuffer) (v : Z) (o' : ByteOrder) :
  wf b -> is_uint 16 v -> o' <> order b -> offset b + 2 <= cap b ->
  exists b1 b2 b3 b4,
    WriteUInt16 v b = (b1, Ret None) /\
    SetOrder o' b1 = (b2, Ret tt) /\
    buf b2 = buf b1 /\ offset b2 = offset b1 /\ length b2 = length b1 /\
    SetPosition (offset b) b2 = (b3, Ret None) /\
    ReadUInt16 b3 = (b4, Ret (v mod 256 * 256 + v / 256, None)).
Proof.
  intros Hwf Hv Hne Hfit. pose proof Hwf as [Hoff Hlen Hbuf Hcap].
  set (bs := bytes_of_uint16 (order b) v).
  assert (Hbs : List.length bs = 2%nat) by apply length_bytes_of_uint16.
  set (b1 := written b 2 bs).
  set (b2 := mkByteBuffer (cap b1) (buf b1) (length b1) (offset b1) o').
  assert (Hwf1 : wf b1) by (apply wf_written; (assumption || lia)).
  assert (Hwf2 : wf b2)
    by (destruct Hwf1; split; unfold b2; cbn [cap buf length offset]; assumption).
  assert (Hwf3 : wf (with_offset (offset b) b2)).
  { apply wf_with_offset; [assumption|].
    unfold b2, b1. cbn [written cap buf length offset]. lia. }
  exists b1, b2, (with_offset (offset b) b2),
         (with_offset (offset b + 2) (with_offset (offset b) b2)).
  split; [now apply WriteUInt16_ok|].
  split; [reflexivity|]. split; [reflexivity|]. split; [reflexivity|].
  split; [reflexivity|].
  split; [apply SetPosition_ok; unfold b2, b1; cbn [written cap buf length offset]; lia|].
  rewrite ReadUInt16_ok
    by (assumption ||
        (unfold b2, b1; cbn [with_offset written cap buf length offset]; lia)).
  unfold b2, b1. cbn [with_offset offset order buf written].
  rewrite <- Hbs, window_put_bytes by (unfold len in *; lia).
  unfold bs. now rewrite uint16_swapped.
Qed.

Lemma SetOrder_is_not_retroactive_witness :
  exists b1 b2 b3 b4,
    WriteUInt16 258 bufAB = (b1, Ret None) /\
    SetOrder BigEndian b1 = (b2, Ret tt) /\
    buf b2 = buf b1 /\ offset b2 = offset b1 /\ length b2 = length b1 /\
    SetPosition 0 b2 = (b3, Ret None) /\
    ReadUInt16 b3 = (b4, Ret (513, None)).
Proof.
  apply (SetOrder_is_not_retroactive bufAB 258 BigEndian).
  - split; simpl; unfold maxAlloc, len; simpl; lia.
  - unfold is_uint. simpl. lia.
  - discriminate.
  - simpl. lia.
Defined.

(** ** Range tests that wrap around *)

(** X21. A position-indexed accessor whose offset is so large that
    [off + size] exceeds [MaxInt64] neither succeeds nor returns
    [ErrorPositionOverflow]: the sum wraps around, the range test passes,
    and the call panics on the slice expression, leaving the buffer as it
    was. *)
Theorem accessor_offset_overflow_panics
    (b : ByteBuffer) (op : Op) (off size : Z) :
  wf b -> is_int off -> accessor_of op = Some (off, size) ->
  off + size > int_max ->
  exec op b = (b, Panic).
Proof.
  intros Hwf Hint Hacc Hbig.
  destruct (exec_accessor_cases b op off size Hwf Hint Hacc)
    as [(_ & Hhi & _)|[(_ & Hsmall & _)|(_ & Hrun)]]; [| |exact Hrun].
  - destruct Hwf. unfold int_max, maxAlloc in *. lia.
  - lia.
Qed.

Lemma accessor_offset_overflow_panics_witness :
  exec (OpGetUInt16 MaxInt64) bufAB = (bufAB, Panic).
Proof.
  apply (accessor_offset_overflow_panics bufAB (OpGetUInt16 MaxInt64) MaxInt64 2).
  - split; simpl; unfold maxAlloc, len; simpl; lia.
  - unfold is_int, int_min, int_max, MaxInt64. lia.
  - reflexivity.
  - unfold int_max, MaxInt64. lia.
Defined.

(** X22. [ReadString(n)] with [n > 0] so large that [offset + n] exceeds
    [MaxInt64] does not return [ErrorReadOverflow]: on any well-formed
    buffer the sum wraps around, both range tests pass, the cursor is set
    to the wrapped (negative) value and the call panics on the slice
    expression; the backing bytes and the valid length are untouched. *)
Theorem ReadString_length_overflow_panics (b : ByteBuffer) (n : Z) :
  wf b -> is_int n -> offset b + n > int_max ->
  exists b',
    ReadString n b = (b', Panic) /\
    offset b' = offset b + n - 2 ^ 64 /\ offset b' < 0 /\
    buf b' = buf b /\ length b' = length b /\ cap b' = cap b.
Proof.
  intros Hwf Hint Hbig. pose proof Hwf as [Hoff Hlen Hbuf Hcap].
  assert (Hn : 0 < n) by (unfold int_max, maxAlloc in *; lia).
  destruct (ReadString_positive b n Hwf Hn Hint)
    as [[Hfit _]|[[Hover _]|[_ Hrun]]].
  - unfold int_max, maxAlloc in *. lia.
  - lia.
  - exists (with_offset (offset b + n - 2 ^ 64) b).
    split; [exact Hrun|]. cbn [with_offset offset buf length cap].
    repeat split. unfold is_int, int_max, maxAlloc in *. lia.
Qed.

Lemma ReadString_length_overflow_panics_witness :
  exists b',
    ReadString MaxInt64 buf7 = (b', Panic) /\
    offset b' = offset buf7 + MaxInt64 - 2 ^ 64 /\ offset b' < 0 /\
    buf b' = buf buf7 /\ length b' = length buf7 /\ cap b' = cap buf7.
Proof.
  apply (ReadString_length_overflow_panics buf7 MaxInt64).
  - split; simpl; unfold maxAlloc, len; simpl; lia.
  - unfold is_int, int_min, int_max, MaxInt64. lia.
  - simpl. unfold int_max, MaxInt64. lia.
Defined.

(** ** Signed values read as unsigned *)

Lemma WriteInt_fits (w : width) (v : Z) (b : ByteBuffer) :
  wf b -> offset b + width_bytes w <= cap b ->
  WriteInt w v b =
  (written b (width_bytes w)
     (bytes_of_uint w (order b) (to_unsigned (width_bits w) v)), Ret None).
Proof.
  intros Hwf Hfit.
  destruct w; cbn [WriteInt width_bytes width_bits bytes_of_uint] in *;
    unfold SIZEOF_2_BYTE, SIZEOF_4_BYTE, SIZEOF_8_BYTE in *.
  - now apply WriteInt16_ok.
  - now apply WriteInt32_ok.
  - now apply WriteInt64_ok.
Qed.

(** X23. A signed integer written with [WriteIntN] and read back with the
    unsigned [ReadUIntN] of the same width comes back as its two's
    complement: [v mod 2^N], that is [v] itself when [v >= 0] and
    [v + 2^N] when [v < 0]. *)
Theorem signed_write_unsigned_read (w : width) (b : ByteBuffer) (v : Z) :
  wf b -> is_sint (width_bits w) v -> offset b + width_bytes w <= cap b ->
  exists b1 b2 b3,
    WriteInt w v b = (b1, Ret None) /\
    SetPosition (offset b) b1 = (b2, Ret None) /\
    ReadUInt w b2 = (b3, Ret (v mod 2 ^ width_bits w, None)) /\
    (0 <= v -> v mod 2 ^ width_bits w = v) /\
    (v < 0 -> v mod 2 ^ width_bits w = v + 2 ^ width_bits w).
Proof.
  intros Hwf Hv Hfit.
  assert (Hbits : 0 < width_bits w) by (destruct w; reflexivity).
  destruct (to_signed_to_unsigned (width_bits w) v Hbits Hv) as [Hu _].
  set (bs := bytes_of_uint w (order b) (to_unsigned (width_bits w) v)).
  pose proof (length_bytes_of_uint w (order b) (to_unsigned (width_bits w) v)) as Hbs.
  fold bs in Hbs.
  assert (Hfit' : offset b + Z.of_nat (List.length bs) <= cap b)
    by (unfold len in Hbs; lia).
  destruct (roundtrip_steps b (List.length bs) bs Hwf eq_refl Hfit')
    as (Hset & Hwf2 & Hoff2 & Hfit2 & Hord2 & Hwin).
  fold (len bs) in Hset, Hwf2, Hoff2, Hfit2, Hord2, Hwin.
  rewrite Hbs in Hset, Hwf2, Hoff2, Hfit2, Hord2, Hwin.
  exists (written b (width_bytes w) bs),
         (with_offset (offset b) (written b (width_bytes w) bs)),
         (with_offset (offset b + width_bytes w)
            (with_offset (offset b) (written b (width_bytes w) bs))).
  split; [now apply WriteInt_fits|].
  split; [exact Hset|].
  split.
  - rewrite ReadUInt_fits by assumption.
    rewrite Hord2, Hoff2.
    replace (Z.to_nat (width_bytes w)) with (List.length bs) by (unfold len in Hbs; lia).
    rewrite Hoff2 in Hwin. rewrite Hwin. unfold bs.
    rewrite uint_roundtrip by assumption. reflexivity.
  - unfold is_sint in Hv.
    assert (Hpow : 2 ^ width_bits w = 2 * 2 ^ (width_bits w - 1)).
    { replace (width_bits w) with (Z.succ (width_bits w - 1)) at 1 by lia.
      apply Z.pow_succ_r. lia. }
    split; intros Hsign.
    + apply Z.mod_small. lia.
    + replace v with (v + 2 ^ width_bits w + (-1) * 2 ^ width_bits w) at 1 by lia.
      rewrite Z.mod_add by lia. apply Z.mod_small. lia.
Qed.

Lemma signed_write_unsigned_read_witness :
  exists b1 b2 b3,
    WriteInt W16 (-2) bufAB = (b1, Ret None) /\
    SetPosition 0 b1 = (b2, Ret None) /\
    ReadUInt W16 b2 = (b3, Ret (65534, None)) /\
    (0 <= -2 -> (-2) mod 2 ^ 16 = -2) /\
    (-2 < 0 -> (-2) mod 2 ^ 16 = -2 + 2 ^ 16).
Proof.
  apply (signed_write_unsigned_read W16 bufAB (-2)).
  - split; simpl; unfold maxAlloc, len; simpl; lia.
  - unfold is_sint. simpl. lia.
  - simpl. unfold SIZEOF_2_BYTE. lia.
Defined.
